(** * Interactive particle network: [assets/js/particles.js]

    A shallow embedding of the particle simulation and of its drawing
    loop, and the properties of the specification that are stated about
    them.

    Numbers.  JavaScript numbers are IEEE-754 doubles; here they are the
    real numbers of the Standard Library, so every arithmetic operation
    is exact and total.  [Math.sqrt], [Math.abs], [Math.min], [Math.max],
    [Math.cos] and [Math.sin] are [sqrt], [Rabs], [Rmin], [Rmax], [cos]
    and [sin]; [Math.atan2] is defined below with the case split of
    ECMAScript.  [canvas.width] and [canvas.height] are unsigned
    integers in the DOM, and [offsetWidth] and [offsetHeight], which are
    assigned to them, are never negative: the four are kept in [N], and
    [num] is their use as a number.  What the specification says of
    [NaN] and of finite values has no content over the reals: module
    [Binary64] gives [Particle.update] a second time, over the binary64
    numbers of the Standard Library, for that statement alone.

    Effects.  [Math.random] reads the next value of a sequence carried
    by the state.  The methods of [ParticleSystem] run in a state monad
    with exceptions, over the fields of the instance and the part of
    the host they touch: the calls received by the 2d context, the
    registered listeners and the animation frames requested.  A method
    throws where JavaScript raises a [TypeError]: on a property of a
    [null] canvas or of a particle that does not exist. *)

From Stdlib Require Import Floats String Reals Lra Lia ZArith NArith Bool Arith List.
Import ListNotations.

Local Open Scope R_scope.

(** ** Configuration (lines 6-15) *)

Inductive Color : Type :=
| rgba (r g b : Z) (a : R).

Module config.
Definition particleCount : nat := 120.
Definition particleColor : Color := rgba 255 255 255 0.9.
Definition lineColor : Color := rgba 26 188 156 0.4.
Definition particleSize : R := 3.5.
Definition maxDistance : R := 180.
Definition speed : R := 0.3.
Definition mouseRadius : R := 200.
Definition mouseForce : R := 0.05.
End config.

(** ** The host objects the code reads *)

(** [canvas.parentElement], with the two layout properties [resize]
    reads. *)
Record Container : Type := mkContainer {
  offsetWidth : N;
  offsetHeight : N
}.

(** The canvas element.  Every particle keeps a reference to the one
    canvas of its system (line 19, line 118), so the element is stored
    once, in the state of the system, and [Particle.update] receives
    it. *)
Record Canvas : Type := mkCanvas {
  width : N;
  height : N;
  parentElement : Container
}.

(** An integer property of the DOM read as a number. *)
Definition num (n : N) : R := IZR (Z.of_N n).

(** [this.mouse]: both coordinates are [null] (here [None]) while the
    pointer is outside the canvas. *)
Module Mouse.
Record t : Type := mk {
  x : option R;
  y : option R
}.
End Mouse.

(** The calls made on the 2d drawing context, in order. *)
Inductive DrawCmd : Type :=
| clearRect (x y w h : R)
| beginPath
| arc (x y radius startAngle endAngle : R)
| set_fillStyle (c : Color)
| fill
| set_strokeStyle (c : Color)
| set_lineWidth (w : R)
| moveTo (x y : R)
| lineTo (x y : R)
| stroke.

(** ** [Math.random] *)

(** The values [Math.random()] returns, in call order, and the number of
    calls made so far. *)
Record Rng : Type := mkRng {
  entropy : nat -> R;
  calls : nat
}.

(** Every value of the sequence is in [[0, 1)], as ECMAScript requires
    of [Math.random]. *)
Definition uniform (g : Rng) : Prop :=
  forall n : nat, 0 <= entropy g n < 1.

Definition Rand (A : Type) : Type := Rng -> A * Rng.

Definition rret {A : Type} (a : A) : Rand A := fun g => (a, g).

Definition rbind {A B : Type} (m : Rand A) (k : A -> Rand B) : Rand B :=
  fun g => let (a, g') := m g in k a g'.

Definition Math_random : Rand R :=
  fun g => (entropy g (calls g), mkRng (entropy g) (S (calls g))).

Declare Scope rand_scope.
Delimit Scope rand_scope with rand.
Notation "x <- m ;; k" := (rbind m (fun x => k))
  (at level 61, m at next level, right associativity) : rand_scope.

(** ** [Math.atan2] on real arguments *)

Definition Math_atan2 (y x : R) : R :=
  if Rlt_dec 0 x then atan (y / x)
  else if Rlt_dec x 0 then
    if Rle_dec 0 y then atan (y / x) + PI else atan (y / x) - PI
  else if Rlt_dec 0 y then PI / 2
  else if Rlt_dec y 0 then - (PI / 2)
  else 0.

(** [a || b] on two decided comparisons. *)
Definition either {A B C D : Prop} (a : {A} + {B}) (b : {C} + {D}) : bool :=
  if a then true else if b then true else false.

(** ** class Particle (lines 17-77) *)

Module Particle.

Record t : Type := mk {
  x : R;
  y : R;
  vx : R;
  vy : R;
  size : R
}.

(** [reset()], lines 25-31: four draws, in this order. *)
Definition reset (canvas : Canvas) : Rand t :=
  (rx <- Math_random ;;
   ry <- Math_random ;;
   rvx <- Math_random ;;
   rvy <- Math_random ;;
   rret (mk (rx * num (width canvas)) (ry * num (height canvas))
            ((rvx - 0.5) * config.speed) ((rvy - 0.5) * config.speed)
            config.particleSize))%rand.

(** [constructor(canvas)], lines 18-23: [reset], then the position is
    drawn a second time. *)
Definition constructor (canvas : Canvas) : Rand t :=
  (p <- reset canvas ;;
   rx <- Math_random ;;
   ry <- Math_random ;;
   rret (mk (rx * num (width canvas)) (ry * num (height canvas))
            (vx p) (vy p) (size p)))%rand.

(** Line 41: [force], as a function of [distance]. *)
Definition force (distance : R) : R :=
  (config.mouseRadius - distance) / config.mouseRadius.

(** "Mouse interaction", lines 35-46. *)
Definition mouse_interaction (mouse : Mouse.t) (p : t) : t :=
  match Mouse.x mouse, Mouse.y mouse with
  | Some mx, Some my =>
      let dx := x p - mx in
      let dy := y p - my in
      let distance := sqrt (dx * dx + dy * dy) in
      if Rlt_dec distance config.mouseRadius then
        let force := force distance in
        let angle := Math_atan2 dy dx in
        mk (x p) (y p)
           (vx p + cos angle * force * config.mouseForce)
           (vy p + sin angle * force * config.mouseForce)
           (size p)
      else p
  | _, _ => p
  end.

(** "Update position", lines 49-50. *)
Definition move (p : t) : t :=
  mk (x p + vx p) (y p + vy p) (vx p) (vy p) (size p).

(** "Damping", lines 53-54. *)
Definition damping (p : t) : t :=
  mk (x p) (y p) (vx p * 0.99) (vy p * 0.99) (size p).

(** One line of "Keep particles moving": a draw is made only when the
    component is below the threshold. *)
Definition nudge (v : R) : Rand R :=
  if Rlt_dec (Rabs v) 0.1
  then (r <- Math_random ;; rret (v + (r - 0.5) * 0.1))%rand
  else rret v.

(** "Keep particles moving", lines 57-58. *)
Definition keep_moving (p : t) : Rand t :=
  (vx' <- nudge (vx p) ;;
   vy' <- nudge (vy p) ;;
   rret (mk (x p) (y p) vx' vy' (size p)))%rand.

(** "Boundary collision", lines 61-68. *)
Definition boundary_collision (canvas : Canvas) (p : t) : t :=
  let w := num (width canvas) in
  let h := num (height canvas) in
  let p1 :=
    if either (Rlt_dec (x p) 0) (Rgt_dec (x p) w)
    then mk (Rmax 0 (Rmin w (x p))) (y p) (vx p * -1) (vy p) (size p)
    else p in
  if either (Rlt_dec (y p1) 0) (Rgt_dec (y p1) h)
  then mk (x p1) (Rmax 0 (Rmin h (y p1))) (vx p1) (vy p1 * -1) (size p1)
  else p1.

(** [update(mouse)], lines 33-69. *)
Definition update (canvas : Canvas) (mouse : Mouse.t) (p : t) : Rand t :=
  (p' <- keep_moving (damping (move (mouse_interaction mouse p))) ;;
   rret (boundary_collision canvas p'))%rand.

(** [draw(ctx)], lines 71-76: the calls it makes on the context. *)
Definition draw (p : t) : list DrawCmd :=
  [ beginPath;
    arc (x p) (y p) (size p) 0 (PI * 2);
    set_fillStyle config.particleColor;
    fill ].

End Particle.

(** ** The state of a [ParticleSystem] and of its host *)

Inductive Target : Type := window | this_canvas_element.

(** The three arrow functions [bindEvents] registers. *)
Inductive Handler : Type :=
| call_resize        (* () => this.resize() *)
| track_pointer      (* (e) => { this.mouse.x = ...; this.mouse.y = ... } *)
| forget_pointer.    (* () => { this.mouse.x = null; this.mouse.y = null } *)

Record Listener : Type := mkListener {
  target : Target;
  event : string;
  handler : Handler
}.

(** The fields of the instance ([canvas], [ctx], [particles], [mouse])
    and the host state the methods act on.  [canvas = None] is
    [this.canvas === null]; an instance whose constructor returned at
    line 82 has no other field, which is [ctx = []], [particles = []]
    and an absent pointer here.  [ctx] is the list of calls the 2d
    context has received. *)
Record World : Type := mkWorld {
  canvas : option Canvas;
  ctx : list DrawCmd;
  particles : list Particle.t;
  mouse : Mouse.t;
  rng : Rng;
  listeners : list Listener;
  animation_frames : nat
}.

(** A method call returns, with a value and the state it leaves, or
    throws (a [TypeError], when a property of [null] or [undefined] is
    read). *)
Inductive Outcome (A : Type) : Type :=
| Returns (a : A) (w : World)
| Throws.
Arguments Returns {A} a w.
Arguments Throws {A}.

Definition M (A : Type) : Type := World -> Outcome A.

Definition ret {A : Type} (a : A) : M A := fun w => Returns a w.

Definition bind {A B : Type} (m : M A) (k : A -> M B) : M B :=
  fun w => match m w with
           | Returns a w' => k a w'
           | Throws => Throws
           end.

Declare Scope sys_scope.
Delimit Scope sys_scope with sys.
Notation "x <- m ;; k" := (bind m (fun x => k))
  (at level 61, m at next level, right associativity) : sys_scope.
Notation "m ;; k" := (bind m (fun _ => k))
  (at level 61, right associativity) : sys_scope.

Definition gets {A : Type} (f : World -> A) : M A := fun w => Returns (f w) w.

Definition modify (f : World -> World) : M unit := fun w => Returns tt (f w).

Definition set_canvas (c : option Canvas) (w : World) : World :=
  mkWorld c (ctx w) (particles w) (mouse w) (rng w) (listeners w)
          (animation_frames w).

Definition set_ctx (l : list DrawCmd) (w : World) : World :=
  mkWorld (canvas w) l (particles w) (mouse w) (rng w) (listeners w)
          (animation_frames w).

Definition set_particles (ps : list Particle.t) (w : World) : World :=
  mkWorld (canvas w) (ctx w) ps (mouse w) (rng w) (listeners w)
          (animation_frames w).

Definition set_mouse (m : Mouse.t) (w : World) : World :=
  mkWorld (canvas w) (ctx w) (particles w) m (rng w) (listeners w)
          (animation_frames w).

Definition set_rng (g : Rng) (w : World) : World :=
  mkWorld (canvas w) (ctx w) (particles w) (mouse w) g (listeners w)
          (animation_frames w).

Definition set_listeners (l : list Listener) (w : World) : World :=
  mkWorld (canvas w) (ctx w) (particles w) (mouse w) (rng w) l
          (animation_frames w).

Definition set_animation_frames (n : nat) (w : World) : World :=
  mkWorld (canvas w) (ctx w) (particles w) (mouse w) (rng w) (listeners w) n.

(** One call on the 2d context. *)
Definition call (c : DrawCmd) : M unit :=
  modify (fun w => set_ctx (ctx w ++ [c]) w).

(** A computation that only draws random numbers. *)
Definition draw_random {A : Type} (m : Rand A) : M A :=
  fun w => let (a, g) := m (rng w) in Returns a (set_rng g w).

(** [this.canvas], dereferenced. *)
Definition the_canvas : M Canvas :=
  fun w => match canvas w with
           | Some c => Returns c w
           | None => Throws
           end.

(** [this.particles[i]], dereferenced. *)
Definition particle_at (i : nat) : M Particle.t :=
  fun w => match nth_error (particles w) i with
           | Some p => Returns p w
           | None => Throws
           end.

(** [for (let i = from; i < to; i++) body(i)], for a bound that is a
    value. *)
Fixpoint iterate (count from : nat) (body : nat -> M unit) : M unit :=
  match count with
  | O => ret tt
  | S count' => (body from ;; iterate count' (S from) body)%sys
  end.

Definition for_range (from to : nat) (body : nat -> M unit) : M unit :=
  iterate (to - from) from body.

(** ** class ParticleSystem (lines 79-172) *)

Module ParticleSystem.

(** [resize()], lines 102-121. *)
Definition resize : M unit :=
  (c <- the_canvas ;;
   let section := parentElement c in
   let oldWidth := width c in
   let oldHeight := height c in
   let newWidth := offsetWidth section in
   let newHeight := offsetHeight section in
   modify (set_canvas (Some (mkCanvas newWidth newHeight section))) ;;
   if ((0 <? oldWidth)%N && (0 <? oldHeight)%N)%bool
   then modify (fun w =>
          set_particles
            (map (fun particle =>
                    Particle.mk
                      (Particle.x particle / num oldWidth * num newWidth)
                      (Particle.y particle / num oldHeight * num newHeight)
                      (Particle.vx particle) (Particle.vy particle)
                      (Particle.size particle))
                 (particles w)) w)
   else ret tt)%sys.

(** [init()], lines 93-100. *)
Definition init : M unit :=
  (resize ;;
   for_range 0 config.particleCount (fun _ =>
     c <- the_canvas ;;
     p <- draw_random (Particle.constructor c) ;;
     modify (fun w => set_particles (particles w ++ [p]) w)))%sys.

(** [bindEvents()], lines 123-136. *)
Definition bindEvents : M unit :=
  (modify (fun w => set_listeners
             (listeners w ++ [mkListener window "resize" call_resize]) w) ;;
   _ <- the_canvas ;;
   modify (fun w => set_listeners
             (listeners w ++
              [mkListener this_canvas_element "mousemove" track_pointer]) w) ;;
   _ <- the_canvas ;;
   modify (fun w => set_listeners
             (listeners w ++
              [mkListener this_canvas_element "mouseleave" forget_pointer]) w)
  )%sys.

(** The body of the inner loop of [drawLines], lines 141-153. *)
Definition connect (i j : nat) : M unit :=
  (pi <- particle_at i ;;
   pj <- particle_at j ;;
   let dx := Particle.x pi - Particle.x pj in
   let dy := Particle.y pi - Particle.y pj in
   let distance := sqrt (dx * dx + dy * dy) in
   if Rlt_dec distance config.maxDistance then
     let opacity := (1 - distance / config.maxDistance) * 0.5 in
     call beginPath ;;
     call (set_strokeStyle (rgba 26 188 156 opacity)) ;;
     call (set_lineWidth 2) ;;
     call (moveTo (Particle.x pi) (Particle.y pi)) ;;
     call (lineTo (Particle.x pj) (Particle.y pj)) ;;
     call stroke
   else ret tt)%sys.

(** The two nested loops of lines 139-140, around any body.  The code
    reads [this.particles.length] at every test; nothing assigns
    [this.particles] or changes its length after [init], and the bound
    is read once here. *)
Definition each_pair (body : nat -> nat -> M unit) : M unit :=
  (n <- gets (fun w => length (particles w)) ;;
   for_range 0 n (fun i =>
     for_range (i + 1) n (fun j => body i j)))%sys.

(** [drawLines()], lines 138-156. *)
Definition drawLines : M unit := each_pair connect.

(** The callback of [forEach] in [animate], lines 165-168, on the
    particle of index [i]: the particle is updated in place, then
    drawn. *)
Definition update_and_draw (i : nat) : M unit :=
  (particle <- particle_at i ;;
   c <- the_canvas ;;
   m <- gets mouse ;;
   particle' <- draw_random (Particle.update c m particle) ;;
   modify (fun w =>
     set_particles
       (firstn i (particles w) ++ particle' :: skipn (S i) (particles w)) w) ;;
   modify (fun w => set_ctx (ctx w ++ Particle.draw particle') w))%sys.

(** [animate()], lines 158-171: one frame, which requests the next. *)
Definition animate : M unit :=
  (c <- the_canvas ;;
   call (clearRect 0 0 (num (width c)) (num (height c))) ;;
   drawLines ;;
   n <- gets (fun w => length (particles w)) ;;
   for_range 0 n update_and_draw ;;
   modify (fun w => set_animation_frames (S (animation_frames w)) w))%sys.

(** [constructor(canvasId)], lines 80-91.  [document] is
    [document.getElementById].  [getContext('2d')] (line 84) makes no
    call on the context, whose calls [ctx] records. *)
Definition constructor (document : string -> option Canvas)
    (canvasId : string) : M unit :=
  (modify (set_canvas (document canvasId)) ;;
   c <- gets canvas ;;
   match c with
   | None => ret tt
   | Some _ =>
       modify (set_particles []) ;;
       modify (set_mouse (Mouse.mk None None)) ;;
       init ;;
       bindEvents ;;
       animate
   end)%sys.

(** What a registered handler does when its event is delivered.
    [clientX], [clientY] are the event's coordinates and [left], [top]
    those of [getBoundingClientRect()]; only [track_pointer] reads
    them. *)
Definition run_handler (h : Handler) (clientX clientY left top : R)
  : M unit :=
  match h with
  | call_resize => resize
  | track_pointer =>
      (_ <- the_canvas ;;
       modify (fun w => set_mouse (Mouse.mk (Some (clientX - left))
                                            (Mouse.y (mouse w))) w) ;;
       modify (fun w => set_mouse (Mouse.mk (Mouse.x (mouse w))
                                            (Some (clientY - top))) w))%sys
  | forget_pointer =>
      (modify (fun w => set_mouse (Mouse.mk None (Mouse.y (mouse w))) w) ;;
       modify (fun w => set_mouse (Mouse.mk (Mouse.x (mouse w)) None) w))%sys
  end.

End ParticleSystem.

(** ** Auxiliary definitions of the statements *)

(** The state on which the floor acts: after "Mouse interaction",
    "Update position" and "Damping". *)
Definition damped (mouse : Mouse.t) (p : Particle.t) : Particle.t :=
  Particle.damping (Particle.move (Particle.mouse_interaction mouse p)).

(** Two successive calls of [update] on one particle. *)
Definition update_twice (canvas : Canvas) (mouse : Mouse.t) (p : Particle.t)
    (g : Rng) : Particle.t * Particle.t :=
  let (p1, g1) := Particle.update canvas mouse p g in
  let (p2, _) := Particle.update canvas mouse p1 g1 in
  (p1, p2).

(** Both velocity components are below the threshold of the floor. *)
Definition slow (p : Particle.t) : Prop :=
  Rabs (Particle.vx p) < 0.1 /\ Rabs (Particle.vy p) < 0.1.

(** The distance of lines 36-38 between a particle and the pointer at
    [(mx, my)]. *)
Definition distance_to (mx my : R) (p : Particle.t) : R :=
  let dx := Particle.x p - mx in
  let dy := Particle.y p - my in
  sqrt (dx * dx + dy * dy).

(** The magnitude of the velocity change that "Mouse interaction" makes
    on a particle. *)
Definition applied_force (mouse : Mouse.t) (p : Particle.t) : R :=
  let p' := Particle.mouse_interaction mouse p in
  let dvx := Particle.vx p' - Particle.vx p in
  let dvy := Particle.vy p' - Particle.vy p in
  sqrt (dvx * dvx + dvy * dvy).

(** The state after the 2d context has received the calls [cmds]. *)
Definition emit (cmds : list DrawCmd) (w : World) : World :=
  set_ctx (ctx w ++ cmds) w.

(** A body run on the elements of a list, in order. *)
Fixpoint for_each {A : Type} (l : list A) (body : A -> M unit) : M unit :=
  match l with
  | [] => ret tt
  | a :: l' => (body a ;; for_each l' body)%sys
  end.

(** The values [(i, j)] that the loop variables of lines 139-140 take
    when there are [n] particles, in the order of the iterations. *)
Definition index_pairs (n : nat) : list (nat * nat) :=
  flat_map (fun i => map (pair i) (seq (i + 1) (n - (i + 1)))) (seq 0 n).

(** The calls of lines 147-152 for a line from [p] to [q]. *)
Definition line_calls (p q : Particle.t) (opacity : R) : list DrawCmd :=
  [ beginPath;
    set_strokeStyle (rgba 26 188 156 opacity);
    set_lineWidth 2;
    moveTo (Particle.x p) (Particle.y p);
    lineTo (Particle.x q) (Particle.y q);
    stroke ].

(** The distance of lines 141-143 between two particles. *)
Definition distance (p q : Particle.t) : R :=
  let dx := Particle.x p - Particle.x q in
  let dy := Particle.y p - Particle.y q in
  sqrt (dx * dx + dy * dy).

(** Line 146. *)
Definition opacity (distance : R) : R :=
  (1 - distance / config.maxDistance) * 0.5.

(** The calls one iteration of the inner loop makes for the particles
    [p] and [q]. *)
Definition calls_between (p q : Particle.t) : list DrawCmd :=
  if Rlt_dec (distance p q) config.maxDistance
  then line_calls p q (opacity (distance p q))
  else [].

(** The same for the particles of indices [fst ij] and [snd ij] of
    [ps]. *)
Definition calls_of_pair (ps : list Particle.t) (ij : nat * nat)
  : list DrawCmd :=
  match nth_error ps (fst ij), nth_error ps (snd ij) with
  | Some p, Some q => calls_between p q
  | _, _ => []
  end.

Definition index_pair_eq_dec (a b : nat * nat) : {a = b} + {a <> b}.
Proof. decide equality; apply Nat.eq_dec. Defined.

(** How many iterations of the inner loop have the index pair [ij]. *)
Definition visits (n : nat) (ij : nat * nat) : nat :=
  count_occ index_pair_eq_dec (index_pairs n) ij.

(** [m], run from [w], returns, with a value and a state that satisfy
    [Q]. *)
Definition returns {A : Type} (m : M A) (w : World)
    (Q : A -> World -> Prop) : Prop :=
  exists (a : A) (w' : World), m w = Returns a w' /\ Q a w'.

(** The three listeners of [bindEvents], in the order of
    registration. *)
Definition bound_listeners : list Listener :=
  [ mkListener window "resize" call_resize;
    mkListener this_canvas_element "mousemove" track_pointer;
    mkListener this_canvas_element "mouseleave" forget_pointer ].

(** The canvas once [resize] has given it the dimensions of its
    parent. *)
Definition resized (c : Canvas) : Canvas :=
  mkCanvas (offsetWidth (parentElement c)) (offsetHeight (parentElement c))
           (parentElement c).

(** The system has the canvas [c] and [n] particles, and the host has
    the listeners [L] and [F] animation frames requested. *)
Definition settled (c : Canvas) (n : nat) (L : list Listener) (F : nat)
    (w : World) : Prop :=
  canvas w = Some c /\ length (particles w) = n /\
  listeners w = L /\ animation_frames w = F.

(** The particle is inside the canvas, borders included. *)
Definition inside (c : Canvas) (p : Particle.t) : Prop :=
  0 <= Particle.x p <= num (width c) /\ 0 <= Particle.y p <= num (height c).

(** [k] frames in a row: the host runs the callback given to
    [requestAnimationFrame], which is [animate], [k] times. *)
Fixpoint frames (k : nat) : M unit :=
  match k with
  | O => ret tt
  | S k' => (ParticleSystem.animate ;; frames k')%sys
  end.

(** The speed, per axis, that no particle exceeds once it is below it:
    the fixed point of [v -> 0.99 * (v + mouseForce)]. *)
Definition speed_cap : R := 4.95.

(** The particle has the configured size and a speed within the cap on
    each axis. *)
Definition healthy (p : Particle.t) : Prop :=
  Particle.size p = config.particleSize /\
  Rabs (Particle.vx p) <= speed_cap /\ Rabs (Particle.vy p) <= speed_cap.

(** The number of values "Keep particles moving" draws for a component
    [v]. *)
Definition draws_for (v : R) : nat :=
  if Rlt_dec (Rabs v) 0.1 then 1%nat else 0%nat.

(** The callback of [forEach] in [resize], lines 116-118, for the
    canvas [c] as it is before line 110. *)
Definition rescaled (c : Canvas) (particle : Particle.t) : Particle.t :=
  Particle.mk
    (Particle.x particle / num (width c) *
     num (offsetWidth (parentElement c)))
    (Particle.y particle / num (height c) *
     num (offsetHeight (parentElement c)))
    (Particle.vx particle) (Particle.vy particle) (Particle.size particle).

(** The host lays the parent of the canvas out at [s]. *)
Definition relayout (s : Container) (w : World) : World :=
  match canvas w with
  | Some c => set_canvas (Some (mkCanvas (width c) (height c) s)) w
  | None => w
  end.

(** A particle as [new Particle] leaves it: inside the canvas, with the
    configured size and a velocity within half of [speed] on each
    axis. *)
Definition fresh (c : Canvas) (p : Particle.t) : Prop :=
  inside c p /\ Particle.size p = config.particleSize /\
  Rabs (Particle.vx p) <= config.speed / 2 /\
  Rabs (Particle.vy p) <= config.speed / 2.

(** [p'] is what [update] makes of [p] on the canvas [c] with the
    pointer [m], for some position in the random sequence [E]. *)
Definition updated (c : Canvas) (m : Mouse.t) (E : nat -> R)
    (p p' : Particle.t) : Prop :=
  exists g : Rng, entropy g = E /\ p' = fst (Particle.update c m p g).

(** The calls of a frame that starts with the particles [before] and
    ends with the particles [after]: the canvas is cleared, the lines
    are drawn, then the particles. *)
Definition frame_calls (c : Canvas) (before after : list Particle.t)
  : list DrawCmd :=
  clearRect 0 0 (num (width c)) (num (height c))
  :: flat_map (calls_of_pair before) (index_pairs (length before))
  ++ flat_map Particle.draw after.

(** ** The host around a system *)

Definition Target_eqb (a b : Target) : bool :=
  match a, b with
  | window, window => true
  | this_canvas_element, this_canvas_element => true
  | _, _ => false
  end.

(** The listener is registered on [t] for the event [name]. *)
Definition listens (t : Target) (name : string) (l : Listener) : bool :=
  Target_eqb (target l) t && String.eqb (event l) name.

(** The host delivers the event [name] to [t]: the handlers registered
    for it run, in the order of registration.  [clientX], [clientY],
    [left] and [top] are what a handler can read from the event and
    from [getBoundingClientRect()]. *)
Definition dispatch (t : Target) (name : string)
    (clientX clientY left top : R) : M unit :=
  (ls <- gets listeners ;;
   for_each (filter (listens t name) ls)
            (fun l => ParticleSystem.run_handler (handler l)
                        clientX clientY left top))%sys.

(** The host runs a requested animation frame, if there is one: the
    request is consumed and its callback, which is [animate] (line
    170), runs. *)
Definition run_frame : M unit :=
  (n <- gets animation_frames ;;
   match n with
   | O => ret tt
   | S n' => modify (set_animation_frames n') ;; ParticleSystem.animate
   end)%sys.

(** What the host does to a page that has run the script. *)
Inductive HostEvent : Type :=
| layout (s : Container)        (* the parent is laid out at [s], then
                                   "resize" is delivered to the window *)
| pointer_moves (clientX clientY rectLeft rectTop : R)
| pointer_leaves
| next_frame.

Definition host_step (e : HostEvent) : M unit :=
  match e with
  | layout s =>
      (modify (relayout s) ;; dispatch window "resize" 0 0 0 0)%sys
  | pointer_moves clientX clientY rectLeft rectTop =>
      dispatch this_canvas_element "mousemove" clientX clientY rectLeft rectTop
  | pointer_leaves => dispatch this_canvas_element "mouseleave" 0 0 0 0
  | next_frame => run_frame
  end.

(** Both coordinates of the pointer are present, or neither. *)
Definition paired (m : Mouse.t) : Prop :=
  match Mouse.x m, Mouse.y m with
  | Some _, Some _ | None, None => True
  | _, _ => False
  end.

(** The state of a system that has started: a canvas with the
    dimensions of its parent, 120 healthy particles, a pointer with
    both coordinates or none, the three listeners of [bindEvents] and
    one animation frame requested. *)
Definition running (w : World) : Prop :=
  (exists c : Canvas,
      canvas w = Some c /\
      width c = offsetWidth (parentElement c) /\
      height c = offsetHeight (parentElement c)) /\
  length (particles w) = config.particleCount /\
  Forall healthy (particles w) /\
  paired (mouse w) /\
  uniform (rng w) /\
  listeners w = bound_listeners /\
  animation_frames w = 1%nat.

(** The canvas has positive dimensions and every particle is inside
    it. *)
Definition placed (w : World) : Prop :=
  exists c : Canvas,
    canvas w = Some c /\ (0 < width c)%N /\ (0 < height c)%N /\
    Forall (inside c) (particles w).

(** A layout gives the parent positive dimensions. *)
Definition positive_layout (e : HostEvent) : Prop :=
  match e with
  | layout s => (0 < offsetWidth s)%N /\ (0 < offsetHeight s)%N
  | _ => True
  end.

(** ** Inputs of the examples *)

Definition canvas_100 : Canvas := mkCanvas 100 100 (mkContainer 100 100).

Definition absent : Mouse.t := Mouse.mk None None.

Definition halves : Rng := mkRng (fun _ => 0.5) 0.

Definition three_quarters : Rng := mkRng (fun _ => 0.75) 0.

Definition past_right_wall : Particle.t := Particle.mk 105 50 2 1 3.5.

Definition at_rest : Particle.t := Particle.mk 50 50 0 0 3.5.

Definition pointer_at_origin : Mouse.t := Mouse.mk (Some 0) (Some 0).

Definition near_particle : Particle.t := Particle.mk 30 40 0 0 3.5.

Definition farther_particle : Particle.t := Particle.mk 60 80 0 0 3.5.

Definition remote_particle : Particle.t := Particle.mk 300 0 0 0 3.5.

(** A system that has not drawn yet, on a canvas of 200 by 100 whose
    parent is 400 by 200, with the given particles. *)
Definition field_of (ps : list Particle.t) : World :=
  mkWorld (Some (mkCanvas 200 100 (mkContainer 400 200))) [] ps absent halves
          [] 0.

Definition particle_origin : Particle.t := Particle.mk 0 0 0.1 0.1 3.5.

Definition particle_50_0 : Particle.t := Particle.mk 50 0 0.1 0.1 3.5.

Definition particle_centre : Particle.t := Particle.mk 100 50 0.1 0.1 3.5.

Definition field_of_two : World := field_of [particle_origin; particle_50_0].

Definition field_of_four : World :=
  field_of [particle_origin; particle_50_0; particle_centre; remote_particle].

(** A page without the element, and a page with it. *)
Definition blank_page : string -> option Canvas := fun _ => None.

Definition page_with_canvas : string -> option Canvas :=
  fun id => if String.eqb id "particles-canvas"
            then Some (mkCanvas 300 150 (mkContainer 400 200))
            else None.

(** The state before [new ParticleSystem(...)]. *)
Definition before_construction : World :=
  mkWorld None [] [] absent halves [] 0.

Definition toward_left_wall : Particle.t := Particle.mk 2 50 (-5) 1 3.5.

Definition cruising : Particle.t := Particle.mk 10 10 2 1 3.5.

(** A session: frames, pointer moves and a change of layout. *)
Definition session : list HostEvent :=
  [ next_frame;
    pointer_moves 30 40 10 10;
    next_frame;
    layout (mkContainer 800 600);
    next_frame;
    pointer_leaves;
    next_frame ].

(** ** [Particle.update] over binary64 (lines 33-69)

    The same method with JavaScript numbers as they are: the binary64
    values of the Standard Library, whose operations are those of
    IEEE-754 (round to nearest, ties to even).  [Math.sqrt] and
    [Math.abs] are exact functions of the format; [Math.cos],
    [Math.sin] and [Math.atan2] are approximations that ECMAScript
    leaves to the implementation, so the method takes them as a
    parameter.  The canvas dimensions are the numbers the comparisons
    of lines 61 and 65 read. *)
Module Binary64.

Local Open Scope float_scope.

(** The functions of [Math] that the method calls and that ECMAScript
    leaves to the implementation. *)
Record MathObject : Type := mkMath {
  Math_cos : float -> float;
  Math_sin : float -> float;
  Math_atan2 : float -> float -> float
}.

Definition Math_sqrt : float -> float := PrimFloat.sqrt.

Definition Math_abs : float -> float := PrimFloat.abs.

(** [Math.min] and [Math.max] of two numbers: [NaN] if either is, and
    [-0] below [+0]. *)
Definition Math_min (a b : float) : float :=
  if is_nan a || is_nan b then PrimFloat.nan
  else if a <? b then a
  else if b <? a then b
  else if get_sign a then a else b.

Definition Math_max (a b : float) : float :=
  if is_nan a || is_nan b then PrimFloat.nan
  else if a <? b then b
  else if b <? a then a
  else if get_sign a then b else a.

Module config.
Definition mouseRadius : float := 200.
Definition mouseForce : float := 0.05.
End config.

Record Canvas : Type := mkCanvas {
  width : float;
  height : float
}.

Module Mouse.
Record t : Type := mk {
  x : option float;
  y : option float
}.
End Mouse.

Record Rng : Type := mkRng {
  entropy : nat -> float;
  calls : nat
}.

Definition uniform (g : Rng) : Prop :=
  forall n : nat, (0 <=? entropy g n) = true /\ (entropy g n <? 1) = true.

Definition Math_random (g : Rng) : float * Rng :=
  (entropy g (calls g), mkRng (entropy g) (S (calls g))).

Module Particle.

Record t : Type := mk {
  x : float;
  y : float;
  vx : float;
  vy : float;
  size : float
}.

(** Lines 36-38. *)
Definition distance (mx my : float) (p : t) : float :=
  let dx := x p - mx in
  let dy := y p - my in
  Math_sqrt (dx * dx + dy * dy).

(** Line 41. *)
Definition force (distance : float) : float :=
  (config.mouseRadius - distance) / config.mouseRadius.

(** "Mouse interaction", lines 35-46. *)
Definition mouse_interaction (M : MathObject) (mouse : Mouse.t) (p : t) : t :=
  match Mouse.x mouse, Mouse.y mouse with
  | Some mx, Some my =>
      let dx := x p - mx in
      let dy := y p - my in
      let distance := distance mx my p in
      if distance <? config.mouseRadius then
        let force := force distance in
        let angle := Math_atan2 M dy dx in
        mk (x p) (y p)
           (vx p + Math_cos M angle * force * config.mouseForce)
           (vy p + Math_sin M angle * force * config.mouseForce)
           (size p)
      else p
  | _, _ => p
  end.

(** "Update position", lines 49-50. *)
Definition move (p : t) : t :=
  mk (x p + vx p) (y p + vy p) (vx p) (vy p) (size p).

(** "Damping", lines 53-54. *)
Definition damping (p : t) : t :=
  mk (x p) (y p) (vx p * 0.99) (vy p * 0.99) (size p).

(** One line of "Keep particles moving". *)
Definition nudge (v : float) (g : Rng) : float * Rng :=
  if Math_abs v <? 0.1
  then let (r, g') := Math_random g in (v + (r - 0.5) * 0.1, g')
  else (v, g).

(** "Keep particles moving", lines 57-58. *)
Definition keep_moving (p : t) (g : Rng) : t * Rng :=
  let (vx', g1) := nudge (vx p) g in
  let (vy', g2) := nudge (vy p) g1 in
  (mk (x p) (y p) vx' vy' (size p), g2).

(** "Boundary collision", lines 61-68. *)
Definition boundary_collision (canvas : Canvas) (p : t) : t :=
  let p1 :=
    if (x p <? 0) || (width canvas <? x p)
    then mk (Math_max 0 (Math_min (width canvas) (x p))) (y p)
            (vx p * -1) (vy p) (size p)
    else p in
  if (y p1 <? 0) || (height canvas <? y p1)
  then mk (x p1) (Math_max 0 (Math_min (height canvas) (y p1)))
          (vx p1) (vy p1 * -1) (size p1)
  else p1.

(** [update(mouse)], lines 33-69. *)
Definition update (M : MathObject) (canvas : Canvas) (mouse : Mouse.t)
    (p : t) (g : Rng) : t * Rng :=
  let (p', g') := keep_moving (damping (move (mouse_interaction M mouse p))) g in
  (boundary_collision canvas p', g').

End Particle.

(** What ECMAScript and IEEE-754 give about the three functions. *)
Record conforms (M : MathObject) : Prop := {
  atan2_of_numbers : forall y x : float,
    is_nan y = false -> is_nan x = false -> is_finite (Math_atan2 M y x) = true;
  cos_range : forall a : float,
    is_finite a = true -> (-1 <=? Math_cos M a) = true /\ (Math_cos M a <=? 1) = true;
  sin_range : forall a : float,
    is_finite a = true -> (-1 <=? Math_sin M a) = true /\ (Math_sin M a <=? 1) = true;
  atan2_origin : Math_atan2 M 0 0 = 0;
  cos_zero : Math_cos M 0 = 1;
  sin_zero : Math_sin M 0 = 0
}.

Definition finite_pointer (mouse : Mouse.t) : Prop :=
  match Mouse.x mouse, Mouse.y mouse with
  | Some mx, Some my => is_finite mx = true /\ is_finite my = true
  | _, _ => True
  end.

Definition speed_limit : float := 0x1p+512.

(** A [Math] reduced to its values at the angle 0, which are all that
    a particle lying on the pointer asks of it. *)
Definition eastward : MathObject :=
  mkMath (fun _ => 1) (fun _ => 0) (fun _ _ => 0).

(** A [Math] whose [atan2] takes the angle from the quotient [dy / dx]
    and has no value at the origin, as the mathematical function. *)
Definition slope_angle : MathObject :=
  mkMath (fun a => 1 - a * a / 2) (fun a => a) (fun dy dx => dy / dx).

Definition square_canvas : Canvas := mkCanvas 100 100.

Definition centre : Particle.t := Particle.mk 50 50 0 0 3.5.

Definition pointer_on_centre : Mouse.t := Mouse.mk (Some 50) (Some 50).

Definition draws_of_three_quarters : Rng := mkRng (fun _ => 0.75) 0.

End Binary64.

(** Magnitudes of binary64 values, on their decoding by [Prim2SF]: a
    value is [small K] when it is a zero or [m * 2^e] with [m * 2^e]
    below [2^K] in magnitude. *)
Definition sf_small (K : Z) (x : spec_float) : Prop :=
  match x with
  | S754_zero _ => True
  | S754_finite _ m e => (Zpos m < 2 ^ (K - e))%Z
  | _ => False
  end.

Definition sf_signed (s : bool) (x : spec_float) : Prop :=
  match x with
  | S754_zero s' => s' = s
  | S754_infinity s' => s' = s
  | S754_finite s' _ _ => s' = s
  | S754_nan => False
  end.

Definition sf_finite (x : spec_float) : Prop :=
  match x with
  | S754_zero _ | S754_finite _ _ _ => True
  | _ => False
  end.

Definition shr_below (j : Z) (mrs : shr_record) : Prop :=
  (0 <= shr_m mrs < 2 ^ Z.max 0 j)%Z.

Definition small (K : Z) (x : float) : Prop := sf_small K (Prim2SF x).

(** * Properties *)

(** ** Numbers of the DOM *)

Lemma num_nonneg (n : N) : 0 <= num n.
Proof.
  unfold num. apply IZR_le. apply N2Z.is_nonneg.
Qed.

Lemma num_pos (n : N) : (0 < n)%N -> 0 < num n.
Proof.
  intros H. unfold num. apply IZR_lt. lia.
Qed.

(** ** One update step *)

Section UpdateStep.

Variable canvas : Canvas.

Let w := num (width canvas).
Let h := num (height canvas).

(** The clamp of lines 63 and 67 lands in the interval. *)
Lemma clamp_within (bound v : R) :
  0 <= bound -> 0 <= Rmax 0 (Rmin bound v) <= bound.
Proof.
  intros Hb. unfold Rmax, Rmin.
  destruct (Rle_dec bound v); destruct (Rle_dec 0 _); lra.
Qed.

(** "Boundary collision" puts any particle inside the canvas. *)
Lemma boundary_collision_within (p : Particle.t) :
  let p' := Particle.boundary_collision canvas p in
  0 <= Particle.x p' <= w /\ 0 <= Particle.y p' <= h.
Proof.
  pose proof (num_nonneg (width canvas)) as Hw.
  pose proof (num_nonneg (height canvas)) as Hh.
  fold w in Hw. fold h in Hh.
  unfold Particle.boundary_collision, either. fold w h.
  destruct (Rlt_dec (Particle.x p) 0) as [Hx0 | Hx0];
    [ | destruct (Rgt_dec (Particle.x p) w) as [Hxw | Hxw] ];
    cbn [Particle.x Particle.y];
    (destruct (Rlt_dec (Particle.y p) 0) as [Hy0 | Hy0];
     [ | destruct (Rgt_dec (Particle.y p) h) as [Hyh | Hyh] ]);
    cbn [Particle.x Particle.y];
    pose proof (clamp_within w (Particle.x p) Hw);
    pose proof (clamp_within h (Particle.y p) Hh);
    lra.
Qed.

(** [update] is "Boundary collision" applied to some state. *)
Lemma update_ends_with_collision (mouse : Mouse.t) (p : Particle.t) (g : Rng) :
  exists q : Particle.t,
    fst (Particle.update canvas mouse p g) =
    Particle.boundary_collision canvas q.
Proof.
  unfold Particle.update, rbind.
  destruct (Particle.keep_moving _ g) as [q g'].
  exists q. reflexivity.
Qed.

End UpdateStep.

(** C1. Boundary containment: whatever the particle, the pointer and the
    values drawn, after [Particle.update] the position satisfies
    [0 <= x <= width] and [0 <= y <= height] for the canvas the particle
    belongs to (whose dimensions are never negative). *)
Theorem update_boundary_containment
    (canvas : Canvas) (mouse : Mouse.t) (p : Particle.t) (g : Rng) :
  let p' := fst (Particle.update canvas mouse p g) in
  0 <= Particle.x p' <= num (width canvas) /\
  0 <= Particle.y p' <= num (height canvas).
Proof.
  destruct (update_ends_with_collision canvas mouse p g) as [q Hq].
  cbn zeta. rewrite Hq. apply boundary_collision_within.
Qed.

(** ** Reflection at a wall *)

Lemma Rabs_small (v b : R) : Rabs v < b <-> - b < v < b.
Proof.
  unfold Rabs. destruct (Rcase_abs v); lra.
Qed.

(** A component at or above the threshold is left alone and no value is
    drawn. *)
Lemma nudge_fast (v : R) (g : Rng) :
  0.1 <= Rabs v -> Particle.nudge v g = (v, g).
Proof.
  intros Hv. unfold Particle.nudge.
  destruct (Rlt_dec (Rabs v) 0.1); [lra | reflexivity].
Qed.

(** A component below the threshold receives the next value drawn. *)
Lemma nudge_slow (v : R) (g : Rng) :
  Rabs v < 0.1 ->
  Particle.nudge v g =
  (v + (entropy g (calls g) - 0.5) * 0.1, mkRng (entropy g) (S (calls g))).
Proof.
  intros Hv. unfold Particle.nudge.
  destruct (Rlt_dec (Rabs v) 0.1); [reflexivity | lra].
Qed.

(** "Boundary collision", one field at a time: the horizontal test
    decides [x] and [vx], the vertical one [y] and [vy]. *)
Lemma collision_x (canvas : Canvas) (p : Particle.t) :
  Particle.x (Particle.boundary_collision canvas p) =
  if either (Rlt_dec (Particle.x p) 0)
            (Rgt_dec (Particle.x p) (num (width canvas)))
  then Rmax 0 (Rmin (num (width canvas)) (Particle.x p))
  else Particle.x p.
Proof.
  unfold Particle.boundary_collision.
  destruct (either (Rlt_dec (Particle.x p) 0) _);
    cbn [Particle.x Particle.y]; destruct (either _ _); reflexivity.
Qed.

Lemma collision_vx (canvas : Canvas) (p : Particle.t) :
  Particle.vx (Particle.boundary_collision canvas p) =
  if either (Rlt_dec (Particle.x p) 0)
            (Rgt_dec (Particle.x p) (num (width canvas)))
  then Particle.vx p * -1
  else Particle.vx p.
Proof.
  unfold Particle.boundary_collision.
  destruct (either (Rlt_dec (Particle.x p) 0) _);
    cbn [Particle.x Particle.y]; destruct (either _ _); reflexivity.
Qed.

Lemma collision_y (canvas : Canvas) (p : Particle.t) :
  Particle.y (Particle.boundary_collision canvas p) =
  if either (Rlt_dec (Particle.y p) 0)
            (Rgt_dec (Particle.y p) (num (height canvas)))
  then Rmax 0 (Rmin (num (height canvas)) (Particle.y p))
  else Particle.y p.
Proof.
  unfold Particle.boundary_collision.
  destruct (either (Rlt_dec (Particle.x p) 0) _);
    cbn [Particle.x Particle.y]; destruct (either _ _); reflexivity.
Qed.

Lemma collision_vy (canvas : Canvas) (p : Particle.t) :
  Particle.vy (Particle.boundary_collision canvas p) =
  if either (Rlt_dec (Particle.y p) 0)
            (Rgt_dec (Particle.y p) (num (height canvas)))
  then Particle.vy p * -1
  else Particle.vy p.
Proof.
  unfold Particle.boundary_collision.
  destruct (either (Rlt_dec (Particle.x p) 0) _);
    cbn [Particle.x Particle.y]; destruct (either _ _); reflexivity.
Qed.

(** With the pointer absent, "Mouse interaction" does nothing. *)
Lemma mouse_interaction_absent (p : Particle.t) :
  Particle.mouse_interaction (Mouse.mk None None) p = p.
Proof. reflexivity. Qed.

(** The horizontal part of [update], pointer absent: where the particle
    ends and with which horizontal velocity, when it has crossed the
    right wall with a velocity that the floor does not touch. *)
Lemma update_right_wall (canvas : Canvas) (p : Particle.t) (g : Rng) :
  num (width canvas) < Particle.x p + Particle.vx p ->
  0.1 <= Rabs (Particle.vx p * 0.99) ->
  let p' := fst (Particle.update canvas (Mouse.mk None None) p g) in
  Particle.x p' = num (width canvas) /\
  Particle.vx p' = Particle.vx p * 0.99 * -1.
Proof.
  intros Hx Hv.
  pose proof (num_nonneg (width canvas)) as Hw.
  unfold Particle.update, rbind, Particle.keep_moving, rbind.
  rewrite mouse_interaction_absent.
  cbn [Particle.damping Particle.move Particle.vx Particle.vy Particle.x
       Particle.y Particle.size].
  rewrite (nudge_fast _ g Hv).
  destruct (Particle.nudge (Particle.vy p * 0.99) g) as [vy' g'].
  unfold rret. cbn [fst].
  rewrite collision_x, collision_vx.
  cbn [Particle.x Particle.y Particle.vx Particle.vy Particle.size].
  unfold either.
  destruct (Rlt_dec (Particle.x p + Particle.vx p) 0); [lra | ].
  destruct (Rgt_dec (Particle.x p + Particle.vx p) (num (width canvas)));
    [ | lra].
  split; [ | reflexivity].
  unfold Rmax, Rmin.
  destruct (Rle_dec (num (width canvas)) (Particle.x p + Particle.vx p));
    [ | lra].
  destruct (Rle_dec 0 (num (width canvas))); [reflexivity | lra].
Qed.

(** C2, as amended. Reflection: a particle that enters [update] at
    [x = width + 5] with [vx = +2], pointer absent, leaves it with
    [x = width] and [vx = -1.98]: the position is clamped and the sign
    inverted, after the damping of the same step. *)
Theorem reflection_after_damping
    (canvas : Canvas) (p : Particle.t) (g : Rng) :
  Particle.x p = num (width canvas) + 5 ->
  Particle.vx p = 2 ->
  let p' := fst (Particle.update canvas (Mouse.mk None None) p g) in
  Particle.x p' = num (width canvas) /\ Particle.vx p' = -1.98.
Proof.
  intros Hx Hv.
  destruct (update_right_wall canvas p g) as [H1 H2].
  - rewrite Hx, Hv. lra.
  - rewrite Hv. apply Rnot_lt_le. intros H. apply Rabs_small in H. lra.
  - cbn zeta. split; [exact H1 | rewrite H2, Hv; lra].
Qed.

Lemma reflection_after_damping_witness :
  let p' := fst (Particle.update canvas_100 (Mouse.mk None None)
                                 past_right_wall halves) in
  Particle.x p' = num (width canvas_100) /\ Particle.vx p' = -1.98.
Proof.
  apply (reflection_after_damping canvas_100 past_right_wall halves).
  - unfold num; simpl; lra.
  - reflexivity.
Defined.

(** C2, as stated, fails: on a canvas of width 100, the particle at
    [x = 105] with [vx = 2] ends at [x = 100] with [vx = -1.98], not
    [-2]. *)
Lemma reflection_counterexample :
  let p' := fst (Particle.update canvas_100 (Mouse.mk None None)
                                 past_right_wall halves) in
  Particle.x past_right_wall = num (width canvas_100) + 5 /\
  Particle.vx past_right_wall = 2 /\
  ~ (Particle.x p' = num (width canvas_100) /\ Particle.vx p' = -2).
Proof.
  cbn zeta.
  destruct (update_right_wall canvas_100 past_right_wall halves) as [H1 H2].
  - unfold num; simpl; lra.
  - simpl. apply Rnot_lt_le. intros H. apply Rabs_small in H. lra.
  - split; [unfold num; simpl; lra | ].
    split; [reflexivity | ].
    intros [_ H]. rewrite H2 in H. simpl in H. lra.
Qed.

(** ** The velocity floor *)

(** Drawing a value keeps the source in range. *)
Lemma uniform_next (g : Rng) :
  uniform g -> uniform (mkRng (entropy g) (S (calls g))).
Proof. intros H n. apply H. Qed.

(** What one line of "Keep particles moving" does to a component: below
    the threshold it adds [(r - 0.5) * 0.1] for the value [r] drawn, at
    or above it it adds nothing. *)
Lemma nudge_cases (v : R) (g : Rng) :
  uniform g ->
  uniform (snd (Particle.nudge v g)) /\
  ((Rabs v < 0.1 /\
    exists r : R, 0 <= r < 1 /\ fst (Particle.nudge v g) = v + (r - 0.5) * 0.1)
   \/ (0.1 <= Rabs v /\ fst (Particle.nudge v g) = v)).
Proof.
  intros Hg.
  destruct (Rlt_dec (Rabs v) 0.1) as [Hv | Hv].
  - rewrite (nudge_slow v g Hv). cbn [fst snd]. split.
    + apply uniform_next, Hg.
    + left. split; [exact Hv | ].
      exists (entropy g (calls g)). split; [apply Hg | reflexivity].
  - apply Rnot_lt_le in Hv. rewrite (nudge_fast v g Hv). cbn [fst snd].
    split; [exact Hg | right; split; [exact Hv | reflexivity]].
Qed.

(** The perturbation is at most [0.05] in magnitude. *)
Lemma nudge_bound (v : R) (g : Rng) :
  uniform g -> Rabs (fst (Particle.nudge v g) - v) <= 0.05.
Proof.
  intros Hg.
  destruct (nudge_cases v g Hg) as [_ [[_ [r [Hr Hv]]] | [_ Hv]]];
    rewrite Hv.
  - replace (v + (r - 0.5) * 0.1 - v) with ((r - 0.5) * 0.1) by lra.
    unfold Rabs. destruct (Rcase_abs _); lra.
  - replace (v - v) with 0 by lra. rewrite Rabs_R0. lra.
Qed.

(** [update], cut after "Keep particles moving". *)
Lemma update_unfold (canvas : Canvas) (mouse : Mouse.t) (p : Particle.t)
    (g : Rng) :
  let q := damped mouse p in
  let n1 := Particle.nudge (Particle.vx q) g in
  let n2 := Particle.nudge (Particle.vy q) (snd n1) in
  Particle.update canvas mouse p g =
  (Particle.boundary_collision canvas
     (Particle.mk (Particle.x q) (Particle.y q) (fst n1) (fst n2)
                  (Particle.size q)),
   snd n2).
Proof.
  cbn zeta. unfold Particle.update, Particle.keep_moving, rbind, rret.
  fold (damped mouse p).
  destruct (Particle.nudge (Particle.vx (damped mouse p)) g) as [vx' g1].
  cbn [fst snd].
  destruct (Particle.nudge (Particle.vy (damped mouse p)) g1) as [vy' g2].
  reflexivity.
Qed.

(** "Boundary collision" changes at most the sign of a velocity
    component. *)
Lemma collision_speed (canvas : Canvas) (p : Particle.t) :
  Rabs (Particle.vx (Particle.boundary_collision canvas p)) =
  Rabs (Particle.vx p) /\
  Rabs (Particle.vy (Particle.boundary_collision canvas p)) =
  Rabs (Particle.vy p).
Proof.
  rewrite collision_vx, collision_vy.
  split; destruct (either _ _); try reflexivity;
    rewrite <- (Rabs_Ropp (_ * -1)); f_equal; lra.
Qed.

(** [update] keeps the random source in range. *)
Lemma update_uniform (canvas : Canvas) (mouse : Mouse.t) (p : Particle.t)
    (g : Rng) :
  uniform g -> uniform (snd (Particle.update canvas mouse p g)).
Proof.
  intros Hg. rewrite update_unfold. cbn [snd].
  apply nudge_cases. apply nudge_cases. exact Hg.
Qed.

(** C3, as amended. Velocity floor: in every call of [update], a
    velocity component whose magnitude after damping is below [0.1]
    receives the perturbation [(r - 0.5) * 0.1], where [r], in
    [[0, 1)], is the value [Math.random] returns for it: the next value
    of the sequence for [vx], and for [vy] the one after the values
    [vx] consumed.  The boundary block may then reverse the component,
    which ends with a magnitude below [0.15].  A component at or above
    [0.1] receives nothing.  (Nothing makes the perturbed component
    reach [0.1].) *)
Theorem velocity_floor_injection
    (canvas : Canvas) (mouse : Mouse.t) (p : Particle.t) (g : Rng) :
  uniform g ->
  let q := damped mouse p in
  let p' := fst (Particle.update canvas mouse p g) in
  let r1 := entropy g (calls g) in
  let r2 := entropy g (calls g + draws_for (Particle.vx q)) in
  let sx := if either (Rlt_dec (Particle.x q) 0)
                      (Rgt_dec (Particle.x q) (num (width canvas)))
            then -1 else 1 in
  let sy := if either (Rlt_dec (Particle.y q) 0)
                      (Rgt_dec (Particle.y q) (num (height canvas)))
            then -1 else 1 in
  ((Rabs (Particle.vx q) < 0.1 /\
    Particle.vx p' = (Particle.vx q + (r1 - 0.5) * 0.1) * sx /\
    0 <= r1 < 1 /\
    Rabs (Particle.vx p') < 0.15)
   \/ (0.1 <= Rabs (Particle.vx q) /\
       Particle.vx p' = Particle.vx q * sx))
  /\
  ((Rabs (Particle.vy q) < 0.1 /\
    Particle.vy p' = (Particle.vy q + (r2 - 0.5) * 0.1) * sy /\
    0 <= r2 < 1 /\
    Rabs (Particle.vy p') < 0.15)
   \/ (0.1 <= Rabs (Particle.vy q) /\
       Particle.vy p' = Particle.vy q * sy)).
Proof.
  intros Hg. cbn zeta. rewrite update_unfold. cbn [fst].
  rewrite collision_vx, collision_vy.
  cbn [Particle.x Particle.y Particle.vx Particle.vy].
  set (q := damped mouse p).
  assert (Hsign : forall (b : bool) (v : R),
             (if b then v * -1 else v) = v * (if b then -1 else 1))
    by (intros [ | ] v; ring).
  rewrite !Hsign.
  assert (Hsmall : forall (b : bool) (v r : R),
             Rabs v < 0.1 -> 0 <= r < 1 ->
             Rabs ((v + (r - 0.5) * 0.1) * (if b then -1 else 1)) < 0.15).
  { intros b v r Hv Hr. apply Rabs_small in Hv. apply Rabs_small.
    destruct b; lra. }
  unfold draws_for.
  destruct (Rlt_dec (Rabs (Particle.vx q)) 0.1) as [Hx | Hx].
  - rewrite (nudge_slow _ g Hx). cbn [fst snd]. split.
    + left. split; [exact Hx | ]. split; [reflexivity | ].
      split; [apply Hg | apply Hsmall; [exact Hx | apply Hg]].
    + rewrite Nat.add_1_r.
      destruct (Rlt_dec (Rabs (Particle.vy q)) 0.1) as [Hy | Hy].
      * rewrite (nudge_slow _ _ Hy). cbn [fst entropy calls].
        left. split; [exact Hy | ]. split; [reflexivity | ].
        split; [apply Hg | apply Hsmall; [exact Hy | apply Hg]].
      * apply Rnot_lt_le in Hy. rewrite (nudge_fast _ _ Hy). cbn [fst].
        right. split; [exact Hy | reflexivity].
  - apply Rnot_lt_le in Hx. rewrite (nudge_fast _ g Hx). cbn [fst snd].
    split; [right; split; [exact Hx | reflexivity] | ].
    rewrite Nat.add_0_r.
    destruct (Rlt_dec (Rabs (Particle.vy q)) 0.1) as [Hy | Hy].
    + rewrite (nudge_slow _ _ Hy). cbn [fst].
      left. split; [exact Hy | ]. split; [reflexivity | ].
      split; [apply Hg | apply Hsmall; [exact Hy | apply Hg]].
    + apply Rnot_lt_le in Hy. rewrite (nudge_fast _ _ Hy). cbn [fst].
      right. split; [exact Hy | reflexivity].
Qed.

Lemma velocity_floor_injection_witness :
  Particle.vx (fst (Particle.update canvas_100 absent at_rest three_quarters))
    = 0.025 /\
  Particle.vy (fst (Particle.update canvas_100 absent at_rest three_quarters))
    = 0.025.
Proof.
  assert (Hg : uniform three_quarters) by (intros n; simpl; lra).
  destruct (velocity_floor_injection canvas_100 absent at_rest three_quarters
              Hg) as [Hx Hy].
  assert (Hin : forall v bound : R, 0 <= v <= bound ->
             (if either (Rlt_dec v 0) (Rgt_dec v bound) then -1 else 1) = 1).
  { intros v bound Hv. unfold either.
    destruct (Rlt_dec v 0); [lra | ]. destruct (Rgt_dec v bound); [lra | ].
    reflexivity. }
  assert (Hrest : Rabs (0 * 0.99) < 0.1)
    by (replace (0 * 0.99) with 0 by lra; rewrite Rabs_R0; lra).
  cbn in Hx, Hy.
  rewrite Hin in Hx by (unfold num; simpl; lra).
  rewrite Hin in Hy by (unfold num; simpl; lra).
  split.
  - destruct Hx as [(_ & E & _) | (Hv & _)]; [rewrite E; lra | lra].
  - destruct Hy as [(_ & E & _) | (Hv & _)]; [rewrite E; lra | lra].
Defined.

(** With the pointer absent, one step multiplies a speed by [0.99] and
    adds at most [0.05] to it. *)
Lemma update_speed_bound (canvas : Canvas) (p : Particle.t) (g : Rng) :
  uniform g ->
  let p' := fst (Particle.update canvas absent p g) in
  Rabs (Particle.vx p') <= 0.99 * Rabs (Particle.vx p) + 0.05 /\
  Rabs (Particle.vy p') <= 0.99 * Rabs (Particle.vy p) + 0.05.
Proof.
  intros Hg. cbn zeta. rewrite update_unfold. cbn [fst].
  unfold damped, absent. rewrite mouse_interaction_absent.
  cbn [Particle.damping Particle.move Particle.vx Particle.vy Particle.x
       Particle.y Particle.size].
  set (n1 := Particle.nudge (Particle.vx p * 0.99) g).
  set (n2 := Particle.nudge (Particle.vy p * 0.99) (snd n1)).
  match goal with
  | |- context [Particle.boundary_collision canvas ?q] =>
      destruct (collision_speed canvas q) as [Hx Hy]
  end.
  cbn [Particle.vx Particle.vy] in Hx, Hy. rewrite Hx, Hy.
  assert (Hg1 : uniform (snd n1)) by (apply nudge_cases, Hg).
  pose proof (nudge_bound (Particle.vx p * 0.99) g Hg) as B1.
  pose proof (nudge_bound (Particle.vy p * 0.99) (snd n1) Hg1) as B2.
  fold n1 in B1. fold n2 in B2.
  assert (Hadd : forall v v' : R,
             Rabs (v' - v * 0.99) <= 0.05 -> Rabs v' <= 0.99 * Rabs v + 0.05).
  { intros v v'. unfold Rabs.
    destruct (Rcase_abs (v' - v * 0.99)); destruct (Rcase_abs v');
      destruct (Rcase_abs v); lra. }
  split; apply Hadd; assumption.
Qed.

(** A particle at rest, pointer absent, is still slow after one step
    and after two, whatever values are drawn. *)
Lemma rest_stays_slow (canvas : Canvas) (p : Particle.t) (g : Rng) :
  uniform g ->
  Particle.vx p = 0 -> Particle.vy p = 0 ->
  slow (fst (update_twice canvas absent p g)) /\
  slow (snd (update_twice canvas absent p g)).
Proof.
  intros Hg Hvx Hvy. unfold update_twice.
  pose proof (update_speed_bound canvas p g Hg) as [A1 A2].
  pose proof (update_uniform canvas absent p g Hg) as Hg1.
  destruct (Particle.update canvas absent p g) as [p1 g1].
  cbn [fst snd] in A1, A2, Hg1.
  pose proof (update_speed_bound canvas p1 g1 Hg1) as [B1 B2].
  destruct (Particle.update canvas absent p1 g1) as [p2 g2].
  cbn [fst snd] in B1, B2 |- *.
  rewrite Hvx, Rabs_R0 in A1. rewrite Hvy, Rabs_R0 in A2.
  unfold slow. lra.
Qed.

(** C3, as stated, fails: a particle at rest in the middle of the
    canvas, pointer absent, every draw equal to [0.75], is slow after
    the first step, where the floor injects motion, and still slow after
    the second. *)
Lemma velocity_floor_counterexample :
  uniform three_quarters /\
  slow (fst (update_twice canvas_100 absent at_rest three_quarters)) /\
  slow (snd (update_twice canvas_100 absent at_rest three_quarters)).
Proof.
  assert (Hg : uniform three_quarters) by (intros n; simpl; lra).
  split; [exact Hg | ].
  apply rest_stays_slow; [exact Hg | reflexivity | reflexivity].
Qed.

(** ** The push of the pointer *)

Lemma force_decreasing (d1 d2 : R) :
  d1 < d2 -> Particle.force d2 < Particle.force d1.
Proof.
  intros H. unfold Particle.force, config.mouseRadius. lra.
Qed.

Lemma force_positive (d : R) :
  d < config.mouseRadius -> 0 < Particle.force d.
Proof.
  unfold Particle.force, config.mouseRadius. intros H. lra.
Qed.

(** Out of reach, the particle is left as it is. *)
Lemma mouse_interaction_far (mx my : R) (p : Particle.t) :
  config.mouseRadius <= distance_to mx my p ->
  Particle.mouse_interaction (Mouse.mk (Some mx) (Some my)) p = p.
Proof.
  intros H. unfold Particle.mouse_interaction. cbn [Mouse.x Mouse.y].
  fold (distance_to mx my p).
  destruct (Rlt_dec (distance_to mx my p) config.mouseRadius);
    [lra | reflexivity].
Qed.

(** Within reach, the velocity changes by a vector of length
    [force * mouseForce], whatever the angle. *)
Lemma applied_force_near (mx my : R) (p : Particle.t) :
  distance_to mx my p < config.mouseRadius ->
  applied_force (Mouse.mk (Some mx) (Some my)) p =
  Particle.force (distance_to mx my p) * config.mouseForce.
Proof.
  intros H. unfold applied_force, Particle.mouse_interaction.
  cbn [Mouse.x Mouse.y]. fold (distance_to mx my p).
  destruct (Rlt_dec (distance_to mx my p) config.mouseRadius); [ | lra].
  cbn [Particle.vx Particle.vy].
  set (a := Math_atan2 (Particle.y p - my) (Particle.x p - mx)).
  set (f := Particle.force (distance_to mx my p)).
  assert (Hf : 0 < f) by (apply force_positive; exact H).
  assert (Hm : 0 < config.mouseForce) by (unfold config.mouseForce; lra).
  assert (Ha : sin a * sin a + cos a * cos a = 1)
    by (pose proof (sin2_cos2 a) as E; unfold Rsqr in E; exact E).
  apply sqrt_lem_1.
  - apply Rplus_le_le_0_compat; apply Rle_0_sqr.
  - apply Rlt_le, Rmult_lt_0_compat; assumption.
  - replace ((Particle.vx p + cos a * f * config.mouseForce - Particle.vx p) *
             (Particle.vx p + cos a * f * config.mouseForce - Particle.vx p) +
             (Particle.vy p + sin a * f * config.mouseForce - Particle.vy p) *
             (Particle.vy p + sin a * f * config.mouseForce - Particle.vy p))
      with (f * config.mouseForce * (f * config.mouseForce) *
            (sin a * sin a + cos a * cos a)) by ring.
    rewrite Ha. ring.
Qed.

(** C4. Pointer falloff: with the pointer present, for two particles at
    distances [d1 < d2 < mouseRadius] from it, the force
    [(mouseRadius - d) / mouseRadius] is strictly greater at [d1] than
    at [d2], and so is the magnitude of the velocity change, which is
    the force times [mouseForce]; at a distance of [mouseRadius] or
    more, the pointer branch changes nothing: the applied force is
    exactly 0. *)
Theorem pointer_falloff_monotone (mx my : R) (p1 p2 : Particle.t) :
  let mouse := Mouse.mk (Some mx) (Some my) in
  let d1 := distance_to mx my p1 in
  let d2 := distance_to mx my p2 in
  (d1 < d2 -> d2 < config.mouseRadius ->
   Particle.force d1 = (config.mouseRadius - d1) / config.mouseRadius /\
   Particle.force d2 = (config.mouseRadius - d2) / config.mouseRadius /\
   Particle.force d2 < Particle.force d1 /\
   applied_force mouse p1 = Particle.force d1 * config.mouseForce /\
   applied_force mouse p2 = Particle.force d2 * config.mouseForce /\
   applied_force mouse p2 < applied_force mouse p1)
  /\
  (config.mouseRadius <= d1 ->
   Particle.mouse_interaction mouse p1 = p1 /\ applied_force mouse p1 = 0).
Proof.
  cbn zeta. split.
  - intros H12 H2.
    assert (H1 : distance_to mx my p1 < config.mouseRadius) by lra.
    pose proof (force_decreasing _ _ H12) as Hf.
    rewrite (applied_force_near mx my p1 H1), (applied_force_near mx my p2 H2).
    repeat split; try reflexivity; try exact Hf.
    unfold config.mouseForce. lra.
  - intros Hfar. pose proof (mouse_interaction_far mx my p1 Hfar) as E.
    split; [exact E | ].
    unfold applied_force. rewrite E.
    replace ((Particle.vx p1 - Particle.vx p1) * (Particle.vx p1 - Particle.vx p1) +
             (Particle.vy p1 - Particle.vy p1) * (Particle.vy p1 - Particle.vy p1))
      with 0 by ring.
    apply sqrt_0.
Qed.

Lemma distance_near_particle : distance_to 0 0 near_particle = 50.
Proof.
  unfold distance_to, near_particle. cbn [Particle.x Particle.y].
  apply sqrt_lem_1; lra.
Qed.

Lemma distance_farther_particle : distance_to 0 0 farther_particle = 100.
Proof.
  unfold distance_to, farther_particle. cbn [Particle.x Particle.y].
  apply sqrt_lem_1; lra.
Qed.

Lemma distance_remote_particle : distance_to 0 0 remote_particle = 300.
Proof.
  unfold distance_to, remote_particle. cbn [Particle.x Particle.y].
  apply sqrt_lem_1; lra.
Qed.

Lemma pointer_falloff_monotone_witness :
  applied_force pointer_at_origin farther_particle <
  applied_force pointer_at_origin near_particle /\
  Particle.mouse_interaction pointer_at_origin remote_particle =
  remote_particle.
Proof.
  split.
  - apply (pointer_falloff_monotone 0 0 near_particle farther_particle).
    + rewrite distance_near_particle, distance_farther_particle. lra.
    + rewrite distance_farther_particle. unfold config.mouseRadius. lra.
  - apply (pointer_falloff_monotone 0 0 remote_particle near_particle).
    rewrite distance_remote_particle. unfold config.mouseRadius. lra.
Defined.

(** The pointer exactly on the particle: the distance is 0, the force 1
    and the angle [Math.atan2(0, 0) = 0], so the particle is pushed to
    the right by [mouseForce]. *)
Lemma pointer_on_particle (p : Particle.t) :
  let mouse := Mouse.mk (Some (Particle.x p)) (Some (Particle.y p)) in
  distance_to (Particle.x p) (Particle.y p) p = 0 /\
  Particle.force 0 = 1 /\
  Math_atan2 0 0 = 0 /\
  Particle.vx (Particle.mouse_interaction mouse p) =
    Particle.vx p + config.mouseForce /\
  Particle.vy (Particle.mouse_interaction mouse p) = Particle.vy p /\
  applied_force mouse p = config.mouseForce.
Proof.
  cbn zeta.
  assert (Hd : distance_to (Particle.x p) (Particle.y p) p = 0).
  { unfold distance_to. cbn zeta.
    replace (Particle.x p - Particle.x p) with 0 by ring.
    replace (Particle.y p - Particle.y p) with 0 by ring.
    replace (0 * 0 + 0 * 0) with 0 by ring. apply sqrt_0. }
  assert (Hf : Particle.force 0 = 1)
    by (unfold Particle.force, config.mouseRadius; lra).
  assert (Ha : Math_atan2 0 0 = 0).
  { unfold Math_atan2. destruct (Rlt_dec 0 0); [lra | reflexivity]. }
  assert (Hnear : distance_to (Particle.x p) (Particle.y p) p
                  < config.mouseRadius)
    by (rewrite Hd; unfold config.mouseRadius; lra).
  repeat split; try assumption.
  - unfold Particle.mouse_interaction. cbn [Mouse.x Mouse.y].
    fold (distance_to (Particle.x p) (Particle.y p) p).
    destruct (Rlt_dec _ config.mouseRadius); [ | lra].
    cbn [Particle.vx]. rewrite Hd, Hf.
    replace (Particle.x p - Particle.x p) with 0 by ring.
    replace (Particle.y p - Particle.y p) with 0 by ring.
    rewrite Ha, cos_0. ring.
  - unfold Particle.mouse_interaction. cbn [Mouse.x Mouse.y].
    fold (distance_to (Particle.x p) (Particle.y p) p).
    destruct (Rlt_dec _ config.mouseRadius); [ | lra].
    cbn [Particle.vy]. rewrite Hd, Hf.
    replace (Particle.x p - Particle.x p) with 0 by ring.
    replace (Particle.y p - Particle.y p) with 0 by ring.
    rewrite Ha, sin_0. ring.
  - rewrite (applied_force_near _ _ p Hnear), Hd, Hf. ring.
Qed.

(** ** The direction of the push *)

(** [Math_atan2 y x] is the angle of the vector [(x, y)]: away from the
    origin, its cosine and sine are the coordinates divided by the
    length. *)
Lemma hypotenuse_ratio (x y : R) :
  0 < x -> sqrt (1 + (y / x)²) = sqrt (x * x + y * y) / x.
Proof.
  intros Hx.
  assert (Hs : 0 <= x * x + y * y) by nra.
  apply sqrt_lem_1.
  - apply Rplus_le_le_0_compat; [lra | apply Rle_0_sqr].
  - apply Rmult_le_pos; [apply sqrt_pos | apply Rlt_le, Rinv_0_lt_compat, Hx].
  - unfold Rdiv, Rsqr.
    replace (sqrt (x * x + y * y) * / x * (sqrt (x * x + y * y) * / x))
      with (sqrt (x * x + y * y) * sqrt (x * x + y * y) * (/ x * / x)) by ring.
    rewrite (sqrt_sqrt _ Hs). field. lra.
Qed.

Lemma Math_atan2_direction (y x : R) :
  x <> 0 \/ y <> 0 ->
  cos (Math_atan2 y x) = x / sqrt (x * x + y * y) /\
  sin (Math_atan2 y x) = y / sqrt (x * x + y * y).
Proof.
  intros Hnz.
  assert (Hpos : 0 < x * x + y * y) by (destruct Hnz; nra).
  pose proof (sqrt_lt_R0 _ Hpos) as Hd.
  unfold Math_atan2.
  destruct (Rlt_dec 0 x) as [Hx | Hx].
  - rewrite cos_atan, sin_atan, (hypotenuse_ratio x y Hx).
    split; field; lra.
  - destruct (Rlt_dec x 0) as [Hx' | Hx'].
    + assert (Hh : sqrt (1 + (y / x)²) = sqrt (x * x + y * y) / - x).
      { replace (y / x) with (- y / - x) by (field; lra).
        rewrite (hypotenuse_ratio (- x) (- y)); [ | lra].
        replace (- x * - x + - y * - y) with (x * x + y * y) by ring.
        reflexivity. }
      destruct (Rle_dec 0 y).
      * rewrite neg_cos, neg_sin, cos_atan, sin_atan, Hh.
        split; field; lra.
      * replace (atan (y / x) - PI) with (- (PI - atan (y / x))) by ring.
        rewrite cos_neg, sin_neg, cos_minus, sin_minus, cos_PI, sin_PI,
          cos_atan, sin_atan, Hh.
        split; field; lra.
    + assert (Hx0 : x = 0) by lra. subst x.
      assert (Hy : y <> 0) by (destruct Hnz; [lra | assumption]).
      replace (0 * 0 + y * y) with (y * y) in * by ring.
      destruct (Rlt_dec 0 y) as [Hy1 | Hy1].
      * rewrite cos_PI2, sin_PI2, sqrt_square by lra. split; field; lra.
      * destruct (Rlt_dec y 0) as [Hy2 | Hy2]; [ | lra].
        rewrite cos_neg, sin_neg, cos_PI2, sin_PI2.
        replace (y * y) with (- y * - y) by ring.
        rewrite sqrt_square by lra. split; field; lra.
Qed.

(** The radicand of line 38 is never negative and the divisor of line 41
    is not zero. *)
Lemma mouse_interaction_domains (mx my : R) (p : Particle.t) :
  0 <= (Particle.x p - mx) * (Particle.x p - mx) +
       (Particle.y p - my) * (Particle.y p - my) /\
  config.mouseRadius <> 0.
Proof.
  split; [ | unfold config.mouseRadius; lra].
  apply Rplus_le_le_0_compat; apply Rle_0_sqr.
Qed.

(** Within reach and off the pointer, the particle is pushed straight
    away from the pointer. *)
Lemma mouse_interaction_pushes_away (mx my : R) (p : Particle.t) :
  let d := distance_to mx my p in
  let p' := Particle.mouse_interaction (Mouse.mk (Some mx) (Some my)) p in
  0 < d -> d < config.mouseRadius ->
  Particle.vx p' =
    Particle.vx p + (Particle.x p - mx) / d * Particle.force d * config.mouseForce /\
  Particle.vy p' =
    Particle.vy p + (Particle.y p - my) / d * Particle.force d * config.mouseForce.
Proof.
  cbn zeta. intros Hd Hnear.
  assert (Hnz : Particle.x p - mx <> 0 \/ Particle.y p - my <> 0).
  { destruct (Req_dec (Particle.x p - mx) 0) as [Hx | Hx]; [ | left; exact Hx].
    destruct (Req_dec (Particle.y p - my) 0) as [Hy | Hy]; [ | right; exact Hy].
    exfalso. unfold distance_to in Hd. cbn zeta in Hd.
    rewrite Hx, Hy in Hd.
    replace (0 * 0 + 0 * 0) with 0 in Hd by ring. rewrite sqrt_0 in Hd. lra. }
  destruct (Math_atan2_direction _ _ Hnz) as [Hc Hs].
  unfold Particle.mouse_interaction. cbn [Mouse.x Mouse.y].
  fold (distance_to mx my p).
  destruct (Rlt_dec (distance_to mx my p) config.mouseRadius); [ | lra].
  cbn [Particle.vx Particle.vy]. rewrite Hc, Hs.
  unfold distance_to. cbn zeta. split; reflexivity.
Qed.

(** ** Running the methods *)

Lemma emit_nil (w : World) : emit [] w = w.
Proof.
  destruct w. unfold emit, set_ctx. cbn. rewrite app_nil_r. reflexivity.
Qed.

Lemma emit_emit (c1 c2 : list DrawCmd) (w : World) :
  emit c2 (emit c1 w) = emit (c1 ++ c2) w.
Proof.
  unfold emit, set_ctx. cbn. rewrite app_assoc. reflexivity.
Qed.

Lemma call_emit (c : DrawCmd) (w : World) : call c w = Returns tt (emit [c] w).
Proof. reflexivity. Qed.

Section Returns.

Context {A B : Type}.

Lemma returns_ret (a : A) (w : World) (Q : A -> World -> Prop) :
  Q a w -> returns (ret a) w Q.
Proof. intros H. exists a, w. split; [reflexivity | exact H]. Qed.

Lemma returns_bind (m : M A) (k : A -> M B) (w : World)
    (Q : B -> World -> Prop) :
  returns m w (fun a w1 => returns (k a) w1 Q) -> returns (bind m k) w Q.
Proof.
  intros (a & w1 & Hm & b & w2 & Hk & HQ).
  exists b, w2. split; [ | exact HQ].
  unfold bind. rewrite Hm. exact Hk.
Qed.

Lemma returns_eq (m : M A) (w : World) (a : A) (w' : World)
    (Q : A -> World -> Prop) :
  m w = Returns a w' -> Q a w' -> returns m w Q.
Proof. intros Hm H. exists a, w'. auto. Qed.

Lemma returns_weaken (m : M A) (w : World) (P Q : A -> World -> Prop) :
  returns m w P -> (forall a w', P a w' -> Q a w') -> returns m w Q.
Proof.
  intros (a & w' & Hm & HP) H. exists a, w'. auto.
Qed.

Lemma returns_gets (f : World -> A) (w : World) (Q : A -> World -> Prop) :
  Q (f w) w -> returns (gets f) w Q.
Proof. intros H. exists (f w), w. split; [reflexivity | exact H]. Qed.

End Returns.

Lemma returns_modify (f : World -> World) (w : World)
    (Q : unit -> World -> Prop) :
  Q tt (f w) -> returns (modify f) w Q.
Proof. intros H. exists tt, (f w). split; [reflexivity | exact H]. Qed.

Lemma returns_the_canvas (c : Canvas) (w : World)
    (Q : Canvas -> World -> Prop) :
  canvas w = Some c -> Q c w -> returns the_canvas w Q.
Proof.
  intros Hc H. exists c, w. split; [ | exact H].
  unfold the_canvas. rewrite Hc. reflexivity.
Qed.

Lemma returns_particle_at (i : nat) (p : Particle.t) (w : World)
    (Q : Particle.t -> World -> Prop) :
  nth_error (particles w) i = Some p -> Q p w -> returns (particle_at i) w Q.
Proof.
  intros Hp H. exists p, w. split; [ | exact H].
  unfold particle_at. rewrite Hp. reflexivity.
Qed.

Lemma returns_draw_random {A : Type} (m : Rand A) (w : World)
    (Q : A -> World -> Prop) :
  Q (fst (m (rng w))) (set_rng (snd (m (rng w))) w) ->
  returns (draw_random m) w Q.
Proof.
  intros H. unfold returns, draw_random.
  destruct (m (rng w)) as [a g]. exists a, (set_rng g w).
  split; [reflexivity | exact H].
Qed.

(** A loop whose body returns and keeps an invariant returns, with the
    invariant at the final index. *)
Lemma returns_iterate (I : nat -> World -> Prop) (body : nat -> M unit) :
  forall (count from : nat) (w : World),
    I from w ->
    (forall i w1, (from <= i < from + count)%nat -> I i w1 ->
                  returns (body i) w1 (fun _ w2 => I (S i) w2)) ->
    returns (iterate count from body) w (fun _ w' => I (from + count)%nat w').
Proof.
  induction count as [ | count IH]; intros from w HI Hbody; cbn [iterate].
  - apply returns_ret. rewrite Nat.add_0_r. exact HI.
  - apply returns_bind.
    apply (returns_weaken _ _ (fun _ w2 => I (S from) w2)).
    + apply Hbody; [lia | exact HI].
    + intros _ w1 H1.
      replace (from + S count)%nat with (S from + count)%nat by lia.
      apply IH; [exact H1 | ].
      intros i w2 Hi. apply Hbody. lia.
Qed.

Lemma returns_for_range (I : nat -> World -> Prop) (body : nat -> M unit)
    (from to : nat) (w : World) :
  (from <= to)%nat ->
  I from w ->
  (forall i w1, (from <= i < to)%nat -> I i w1 ->
                returns (body i) w1 (fun _ w2 => I (S i) w2)) ->
  returns (for_range from to body) w (fun _ w' => I to w').
Proof.
  intros Hle HI Hbody. unfold for_range.
  assert (H : returns (iterate (to - from) from body) w
                      (fun _ w' => I (from + (to - from))%nat w')).
  { apply returns_iterate; [exact HI | ].
    intros i w1 Hi. apply Hbody. lia. }
  replace (from + (to - from))%nat with to in H by lia. exact H.
Qed.

(** ** The iterations of the two nested loops *)

Section IndexPairs.

Variable n : nat.

Let row (i : nat) : list (nat * nat) :=
  map (pair i) (seq (i + 1) (n - (i + 1))).

Lemma in_row (i a b : nat) :
  In (a, b) (row i) <-> a = i /\ (i < b < n)%nat.
Proof.
  unfold row. rewrite in_map_iff. split.
  - intros (y & E & Hy). inversion E; subst. apply in_seq in Hy. lia.
  - intros (-> & Hb). exists b. split; [reflexivity | apply in_seq; lia].
Qed.

Lemma in_rows (a k i j : nat) :
  In (i, j) (flat_map row (seq a k)) <->
  (a <= i < a + k)%nat /\ (i < j < n)%nat.
Proof.
  rewrite in_flat_map. split.
  - intros (x & Hx & Hin). apply in_seq in Hx. apply in_row in Hin.
    destruct Hin as [-> Hj]. lia.
  - intros (Hi & Hj). exists i. split; [apply in_seq; lia | ].
    apply in_row. lia.
Qed.

Lemma row_NoDup (i : nat) : NoDup (row i).
Proof.
  unfold row. generalize (seq_NoDup (n - (i + 1)) (i + 1)).
  generalize (seq (i + 1) (n - (i + 1))) as l.
  induction l as [ | b l IH]; intros Hl; cbn [map].
  - constructor.
  - inversion Hl as [ | ? ? Hb Hl']; subst. constructor.
    + rewrite in_map_iff. intros (y & E & Hy). inversion E; subst. tauto.
    + apply IH, Hl'.
Qed.

Lemma rows_NoDup (k a : nat) : NoDup (flat_map row (seq a k)).
Proof.
  revert a. induction k as [ | k IH]; intros a; cbn [seq flat_map].
  - constructor.
  - apply NoDup_app.
    + apply row_NoDup.
    + apply IH.
    + intros [i j] Hrow Hrest. apply in_row in Hrow. apply in_rows in Hrest.
      lia.
Qed.

Lemma rows_length (k a : nat) :
  (a + k = n)%nat ->
  (2 * length (flat_map row (seq a k)) = k * (k - 1))%nat.
Proof.
  revert a. induction k as [ | k IH]; intros a Hn; cbn [seq flat_map].
  - reflexivity.
  - rewrite length_app. unfold row at 1. rewrite length_map, length_seq.
    specialize (IH (S a)).
    assert (Hk : (2 * length (flat_map row (seq (S a) k)) = k * (k - 1))%nat)
      by (apply IH; lia).
    replace (n - (a + 1))%nat with k by lia.
    destruct k as [ | k']; [cbn in *; lia | ].
    replace (S k' - 1)%nat with k' in Hk by lia.
    replace (S (S k') - 1)%nat with (S k') by lia.
    lia.
Qed.

End IndexPairs.

(** The loop variables take the value [(i, j)] exactly when
    [i < j < n]. *)
Lemma index_pairs_In (n i j : nat) :
  In (i, j) (index_pairs n) <-> (i < j < n)%nat.
Proof.
  unfold index_pairs. rewrite in_rows. lia.
Qed.

Lemma index_pairs_NoDup (n : nat) : NoDup (index_pairs n).
Proof. apply rows_NoDup. Qed.

Lemma index_pairs_length (n : nat) :
  length (index_pairs n) = (n * (n - 1) / 2)%nat.
Proof.
  pose proof (rows_length n n 0 eq_refl) as H.
  fold (index_pairs n) in H.
  rewrite <- H, Nat.mul_comm, Nat.div_mul; [reflexivity | discriminate].
Qed.

(** An ordered pair of indices is visited once when it is increasing
    and never otherwise. *)
Lemma visits_ordered (n i j : nat) :
  ((i < j < n)%nat -> visits n (i, j) = 1%nat) /\
  (~ (i < j < n)%nat -> visits n (i, j) = 0%nat).
Proof.
  unfold visits. split; intros H.
  - apply NoDup_count_occ'; [apply index_pairs_NoDup | ].
    apply index_pairs_In, H.
  - apply count_occ_not_In. rewrite index_pairs_In. exact H.
Qed.

(** ** Loops as runs over lists *)

Section ForEach.

Context {A : Type}.

Lemma for_each_app (l1 l2 : list A) (body : A -> M unit) (w : World) :
  for_each (l1 ++ l2) body w =
  bind (for_each l1 body) (fun _ => for_each l2 body) w.
Proof.
  revert w. induction l1 as [ | a l1 IH]; intros w; cbn [for_each app].
  - reflexivity.
  - unfold bind in *. destruct (body a w) as [[] w1 | ]; [ | reflexivity].
    apply IH.
Qed.

Lemma for_each_ext (l : list A) (body1 body2 : A -> M unit) :
  (forall a w, In a l -> body1 a w = body2 a w) ->
  forall w, for_each l body1 w = for_each l body2 w.
Proof.
  induction l as [ | a l IH]; intros H w; cbn [for_each].
  - reflexivity.
  - unfold bind. rewrite (H a w (or_introl eq_refl)).
    destruct (body2 a w) as [[] w1 | ]; [ | reflexivity].
    apply IH. intros b w2 Hb. apply H. right. exact Hb.
Qed.

Lemma for_each_map {B : Type} (f : B -> A) (l : list B) (body : A -> M unit)
    (w : World) :
  for_each (map f l) body w = for_each l (fun b => body (f b)) w.
Proof.
  revert w. induction l as [ | b l IH]; intros w; cbn [for_each map].
  - reflexivity.
  - unfold bind. destruct (body (f b) w) as [[] w1 | ]; [ | reflexivity].
    apply IH.
Qed.

Lemma for_each_flat_map {B : Type} (f : B -> list A) (l : list B)
    (body : A -> M unit) (w : World) :
  for_each (flat_map f l) body w =
  for_each l (fun b => for_each (f b) body) w.
Proof.
  revert w. induction l as [ | b l IH]; intros w; cbn [for_each flat_map].
  - reflexivity.
  - rewrite for_each_app. unfold bind.
    destruct (for_each (f b) body w) as [[] w1 | ]; [ | reflexivity].
    apply IH.
Qed.

End ForEach.

Lemma iterate_for_each (body : nat -> M unit) (count from : nat) (w : World) :
  iterate count from body w = for_each (seq from count) body w.
Proof.
  revert from w. induction count as [ | count IH]; intros from w;
    cbn [iterate seq for_each].
  - reflexivity.
  - unfold bind. destruct (body from w) as [[] w1 | ]; [ | reflexivity].
    apply IH.
Qed.

(** The two nested loops run their body on the index pairs, in order. *)
Lemma each_pair_for_each (body : nat -> nat -> M unit) (w : World) :
  ParticleSystem.each_pair body w =
  for_each (index_pairs (length (particles w)))
           (fun ij => body (fst ij) (snd ij)) w.
Proof.
  unfold ParticleSystem.each_pair, bind, gets, for_range, index_pairs.
  set (n := length (particles w)).
  rewrite Nat.sub_0_r, iterate_for_each, for_each_flat_map.
  apply for_each_ext. intros i w1 _.
  rewrite iterate_for_each, for_each_map. reflexivity.
Qed.

(** ** [drawLines] *)

(** One iteration of the inner loop, on two particles that exist. *)
Lemma connect_emit (i j : nat) (p q : Particle.t) (w : World) :
  nth_error (particles w) i = Some p ->
  nth_error (particles w) j = Some q ->
  ParticleSystem.connect i j w = Returns tt (emit (calls_between p q) w).
Proof.
  intros Hp Hq.
  unfold ParticleSystem.connect, bind, particle_at. rewrite Hp, Hq.
  unfold calls_between. fold (distance p q).
  destruct (Rlt_dec (distance p q) config.maxDistance).
  - unfold call, modify, emit, set_ctx, line_calls, opacity. cbn.
    repeat rewrite <- app_assoc. reflexivity.
  - unfold ret. rewrite emit_nil. reflexivity.
Qed.

(** A loop whose body only draws, only draws. *)
Lemma for_each_emit {A : Type} (ps : list Particle.t)
    (f : A -> list DrawCmd) (body : A -> M unit) (l : list A) :
  (forall a w, In a l -> particles w = ps ->
               body a w = Returns tt (emit (f a) w)) ->
  forall w, particles w = ps ->
            for_each l body w = Returns tt (emit (flat_map f l) w).
Proof.
  induction l as [ | a l IH]; intros Hbody w Hw; cbn [for_each flat_map].
  - unfold ret. rewrite emit_nil. reflexivity.
  - unfold bind. rewrite (Hbody a w (or_introl eq_refl) Hw).
    rewrite IH.
    + rewrite emit_emit. reflexivity.
    + intros b w1 Hb. apply Hbody. right. exact Hb.
    + exact Hw.
Qed.

(** The calls [drawLines] makes: those of each index pair, in order. *)
Lemma drawLines_emit (w : World) :
  ParticleSystem.drawLines w =
  Returns tt
    (emit (flat_map (calls_of_pair (particles w))
                    (index_pairs (length (particles w)))) w).
Proof.
  unfold ParticleSystem.drawLines. rewrite each_pair_for_each.
  apply (for_each_emit (particles w)); [ | reflexivity].
  intros [i j] w1 Hin Hw1. apply index_pairs_In in Hin. cbn [fst snd].
  destruct (nth_error (particles w) i) as [p | ] eqn:Hp;
    [ | apply nth_error_None in Hp; lia].
  destruct (nth_error (particles w) j) as [q | ] eqn:Hq;
    [ | apply nth_error_None in Hq; lia].
  unfold calls_of_pair. cbn [fst snd]. rewrite Hp, Hq.
  apply connect_emit; rewrite Hw1; assumption.
Qed.

(** C10. [drawLines] returns and leaves the particles (position,
    velocity and size of each), the pointer, the canvas and the rest of
    the state as they were: only the 2d context receives calls. *)
Theorem drawLines_only_draws (w : World) :
  exists cmds : list DrawCmd,
    ParticleSystem.drawLines w =
    Returns tt
      (mkWorld (canvas w) (ctx w ++ cmds) (particles w) (mouse w) (rng w)
               (listeners w) (animation_frames w)).
Proof.
  eexists. rewrite drawLines_emit. reflexivity.
Qed.

(** C7. Pairwise completeness: with [N] particles, the two nested
    loops of [drawLines] run their body, whatever it is, once on each
    of the index pairs [(i, j)] with [i < j < N], in order, and the body
    of [drawLines] evaluates the distance between the particles [i] and
    [j]: the calls it makes are those that this distance decides.  There
    are [N * (N - 1) / 2] index pairs; every unordered pair of distinct
    indices below [N] is among them exactly once, as [(i, j)] or as
    [(j, i)], and no other pair is; no iteration throws. *)
Theorem drawLines_pairwise_complete (w : World) :
  let N := length (particles w) in
  (forall (body : nat -> nat -> M unit) (w0 : World),
      length (particles w0) = N ->
      ParticleSystem.each_pair body w0 =
      for_each (index_pairs N) (fun ij => body (fst ij) (snd ij)) w0) /\
  ParticleSystem.drawLines w =
    for_each (index_pairs N)
             (fun ij => ParticleSystem.connect (fst ij) (snd ij)) w /\
  (forall (i j : nat) (p q : Particle.t) (w0 : World),
      nth_error (particles w0) i = Some p ->
      nth_error (particles w0) j = Some q ->
      ParticleSystem.connect i j w0 =
      Returns tt
        (emit (if Rlt_dec (distance p q) config.maxDistance
               then line_calls p q
                      ((1 - distance p q / config.maxDistance) * 0.5)
               else []) w0)) /\
  ParticleSystem.drawLines w =
    Returns tt
      (emit (flat_map (calls_of_pair (particles w)) (index_pairs N)) w) /\
  length (index_pairs N) = (N * (N - 1) / 2)%nat /\
  (forall i j : nat, (i < N)%nat -> (j < N)%nat -> i <> j ->
     (visits N (i, j) + visits N (j, i) = 1)%nat) /\
  (forall i j : nat, In (i, j) (index_pairs N) -> (i < j < N)%nat).
Proof.
  cbn zeta.
  split; [intros body w0 Hn; rewrite <- Hn; apply each_pair_for_each | ].
  split; [apply each_pair_for_each | ].
  split; [intros i j p q w0 Hp Hq; apply (connect_emit i j p q w0 Hp Hq) | ].
  split; [apply drawLines_emit | ].
  split; [apply index_pairs_length | ].
  split.
  - intros i j Hi Hj Hij.
    destruct (visits_ordered (length (particles w)) i j) as [A1 A0].
    destruct (visits_ordered (length (particles w)) j i) as [B1 B0].
    destruct (Nat.lt_ge_cases i j).
    + rewrite A1, B0; lia.
    + rewrite A0, B1; lia.
  - intros i j. apply index_pairs_In.
Qed.

Lemma sqrt_below (a b : R) : 0 <= a -> 0 < b -> a < b * b -> sqrt a < b.
Proof.
  intros Ha Hb H. rewrite <- (sqrt_square b) by lra.
  apply sqrt_lt_1; [exact Ha | apply Rle_0_sqr | exact H].
Qed.

Lemma sqrt_above (a b : R) : 0 <= b -> b * b <= a -> b <= sqrt a.
Proof.
  intros Hb H. rewrite <- (sqrt_square b) by lra.
  pose proof (Rle_0_sqr b) as Hbb. unfold Rsqr in Hbb.
  apply sqrt_le_1; [exact Hbb | lra | exact H].
Qed.

Lemma drawLines_pairwise_complete_witness :
  ParticleSystem.drawLines field_of_four =
  Returns tt
    (emit (line_calls particle_origin particle_50_0
             (opacity (distance particle_origin particle_50_0)) ++
           line_calls particle_origin particle_centre
             (opacity (distance particle_origin particle_centre)) ++
           line_calls particle_50_0 particle_centre
             (opacity (distance particle_50_0 particle_centre)))
          field_of_four) /\
  length (index_pairs (length (particles field_of_four))) = 6%nat /\
  (visits 4 (3, 1) + visits 4 (1, 3) = 1)%nat.
Proof.
  destruct (drawLines_pairwise_complete field_of_four)
    as (_ & _ & _ & HD & HL & HV & _).
  split; [ | split; [exact HL | apply HV; simpl; lia]].
  rewrite HD. f_equal. f_equal.
  assert (Hnear : forall p q : Particle.t,
             (Particle.x p - Particle.x q) * (Particle.x p - Particle.x q) +
             (Particle.y p - Particle.y q) * (Particle.y p - Particle.y q)
             < 180 * 180 ->
             calls_between p q = line_calls p q (opacity (distance p q))).
  { intros p q H. unfold calls_between.
    destruct (Rlt_dec (distance p q) config.maxDistance) as [ | Hn];
      [reflexivity | ].
    exfalso. apply Hn. unfold distance, config.maxDistance.
    apply sqrt_below;
      [apply Rplus_le_le_0_compat; apply Rle_0_sqr | lra | exact H]. }
  assert (Hfar : forall p q : Particle.t,
             180 * 180 <=
             (Particle.x p - Particle.x q) * (Particle.x p - Particle.x q) +
             (Particle.y p - Particle.y q) * (Particle.y p - Particle.y q) ->
             calls_between p q = []).
  { intros p q H. unfold calls_between.
    destruct (Rlt_dec (distance p q) config.maxDistance) as [Hl | ];
      [ | reflexivity].
    exfalso. unfold distance, config.maxDistance in Hl.
    pose proof (sqrt_above _ 180 ltac:(lra) H). lra. }
  cbn [field_of_four field_of particles length index_pairs seq flat_map map
       Nat.add Nat.sub app calls_of_pair fst snd nth_error].
  rewrite (Hnear particle_origin particle_50_0) by (simpl; lra).
  rewrite (Hnear particle_origin particle_centre) by (simpl; lra).
  rewrite (Hfar particle_origin remote_particle) by (simpl; lra).
  rewrite (Hnear particle_50_0 particle_centre) by (simpl; lra).
  rewrite (Hfar particle_50_0 remote_particle) by (simpl; lra).
  rewrite (Hfar particle_centre remote_particle) by (simpl; lra).
  cbn [app]. rewrite !app_nil_r. reflexivity.
Defined.

(** ** The opacity of a connection *)

Lemma opacity_range (d : R) :
  0 <= d -> d < config.maxDistance -> 0 < opacity d <= 0.5.
Proof.
  unfold opacity, config.maxDistance. intros H0 H. lra.
Qed.

Lemma distance_nonneg (p q : Particle.t) : 0 <= distance p q.
Proof. unfold distance. apply sqrt_pos. Qed.

(** C5. Connection opacity: in [drawLines], for the particles [p] and
    [q] of any index pair, a line is drawn exactly when their distance
    is below [maxDistance], with opacity
    [(1 - distance / maxDistance) * 0.5], which is at most 0.5; at
    distance 0 it is 0.5; at distance [maxDistance] the formula gives 0
    (and nothing is drawn); beyond [maxDistance] nothing is drawn.  With
    two particles at (0,0) and (50,0), exactly one line is drawn, from
    the first to the second, with opacity [(1 - 50/180) * 0.5]. *)
Theorem connection_opacity :
  (forall (w : World) (i j : nat) (p q : Particle.t),
      nth_error (particles w) i = Some p ->
      nth_error (particles w) j = Some q ->
      let d := distance p q in
      (d < config.maxDistance ->
       ParticleSystem.connect i j w =
         Returns tt (emit (line_calls p q ((1 - d / config.maxDistance) * 0.5))
                          w) /\
       (1 - d / config.maxDistance) * 0.5 <= 0.5) /\
      (d = 0 ->
       ParticleSystem.connect i j w =
         Returns tt (emit (line_calls p q 0.5) w)) /\
      (d = config.maxDistance ->
       (1 - d / config.maxDistance) * 0.5 = 0 /\
       ParticleSystem.connect i j w = Returns tt w) /\
      (config.maxDistance < d ->
       ParticleSystem.connect i j w = Returns tt w))
  /\
  (forall (w : World) (p q : Particle.t),
      particles w = [p; q] ->
      Particle.x p = 0 -> Particle.y p = 0 ->
      Particle.x q = 50 -> Particle.y q = 0 ->
      config.maxDistance = 180 /\
      ParticleSystem.drawLines w =
        Returns tt (emit (line_calls p q ((1 - 50 / 180) * 0.5)) w)).
Proof.
  split.
  - intros w i j p q Hp Hq d.
    pose proof (connect_emit i j p q w Hp Hq) as E.
    pose proof (distance_nonneg p q) as Hd. fold d in Hd.
    unfold calls_between in E. fold d in E.
    repeat split.
    + destruct (Rlt_dec d config.maxDistance); [exact E | lra].
    + destruct (opacity_range d Hd H) as [_ Hle]. exact Hle.
    + intros H0.
      assert (Hlt : d < config.maxDistance)
        by (rewrite H0; unfold config.maxDistance; lra).
      destruct (Rlt_dec d config.maxDistance); [ | lra].
      rewrite E. unfold opacity. rewrite H0.
      replace ((1 - 0 / config.maxDistance) * 0.5) with 0.5
        by (unfold config.maxDistance; lra).
      reflexivity.
    + rewrite H. unfold config.maxDistance. lra.
    + destruct (Rlt_dec d config.maxDistance); [lra | ].
      rewrite E, emit_nil. reflexivity.
    + intros Hgt. destruct (Rlt_dec d config.maxDistance); [lra | ].
      rewrite E, emit_nil. reflexivity.
  - intros w p q Hw Hpx Hpy Hqx Hqy. split; [reflexivity | ].
    rewrite drawLines_emit, Hw. cbn [length index_pairs seq flat_map map
      Nat.add Nat.sub app calls_of_pair fst snd nth_error].
    assert (Hd : distance p q = 50).
    { unfold distance. rewrite Hpx, Hpy, Hqx, Hqy. apply sqrt_lem_1; lra. }
    unfold calls_between. rewrite Hd.
    destruct (Rlt_dec 50 config.maxDistance) as [ | Hn];
      [ | exfalso; apply Hn; unfold config.maxDistance; lra].
    unfold opacity, config.maxDistance. reflexivity.
Qed.

Lemma connection_opacity_witness :
  ParticleSystem.drawLines field_of_two =
  Returns tt
    (emit [ beginPath;
            set_strokeStyle (rgba 26 188 156 ((1 - 50 / 180) * 0.5));
            set_lineWidth 2;
            moveTo 0 0;
            lineTo 50 0;
            stroke ] field_of_two).
Proof.
  apply (proj2 connection_opacity field_of_two particle_origin particle_50_0);
    reflexivity.
Defined.

(** ** [resize] *)

(** The callback of [forEach] in [resize], lines 116-118. *)
Lemma rescale_proportional (x old new : R) :
  0 < old ->
  x / old * new = x * new / old /\
  (0 < new -> x / old * new / new = x / old).
Proof.
  intros Hold. split.
  - field. lra.
  - intros Hnew. field. lra.
Qed.

(** C6. Resize rescaling: when both previous dimensions of the canvas
    are positive, [resize] gives the canvas the dimensions of its parent
    and moves every particle to [x * newWidth / oldWidth] and
    [y * newHeight / oldHeight], its velocity and size unchanged; the
    position relative to the dimensions is preserved. *)
Theorem resize_rescales (w : World) (c : Canvas) :
  canvas w = Some c ->
  (0 < width c)%N -> (0 < height c)%N ->
  let oldWidth := num (width c) in
  let oldHeight := num (height c) in
  let newWidth := num (offsetWidth (parentElement c)) in
  let newHeight := num (offsetHeight (parentElement c)) in
  exists w' : World,
    ParticleSystem.resize w = Returns tt w' /\
    canvas w' = Some (mkCanvas (offsetWidth (parentElement c))
                               (offsetHeight (parentElement c))
                               (parentElement c)) /\
    length (particles w') = length (particles w) /\
    forall (i : nat) (p : Particle.t),
      nth_error (particles w) i = Some p ->
      exists p' : Particle.t,
        nth_error (particles w') i = Some p' /\
        Particle.x p' = Particle.x p * newWidth / oldWidth /\
        Particle.y p' = Particle.y p * newHeight / oldHeight /\
        Particle.vx p' = Particle.vx p /\
        Particle.vy p' = Particle.vy p /\
        Particle.size p' = Particle.size p /\
        (0 < newWidth -> Particle.x p' / newWidth = Particle.x p / oldWidth) /\
        (0 < newHeight -> Particle.y p' / newHeight = Particle.y p / oldHeight).
Proof.
  intros Hc Hw Hh. cbn zeta.
  pose proof (num_pos _ Hw) as Hw'. pose proof (num_pos _ Hh) as Hh'.
  unfold ParticleSystem.resize, bind, the_canvas. rewrite Hc.
  unfold modify at 1.
  apply N.ltb_lt in Hw, Hh. rewrite Hw, Hh. cbn [andb].
  unfold modify. eexists. split; [reflexivity | ].
  cbn [canvas particles set_particles set_canvas].
  split; [reflexivity | ].
  split; [apply length_map | ].
  intros i p Hp. eexists. split; [apply map_nth_error, Hp | ].
  cbn [Particle.x Particle.y Particle.vx Particle.vy Particle.size].
  destruct (rescale_proportional (Particle.x p) (num (width c))
              (num (offsetWidth (parentElement c))) Hw') as [X1 X2].
  destruct (rescale_proportional (Particle.y p) (num (height c))
              (num (offsetHeight (parentElement c))) Hh') as [Y1 Y2].
  repeat split; assumption.
Qed.

Lemma resize_rescales_witness :
  exists w' : World,
    ParticleSystem.resize (field_of [particle_centre]) = Returns tt w' /\
    exists p' : Particle.t,
      nth_error (particles w') 0 = Some p' /\
      Particle.x p' = 200 /\ Particle.y p' = 100.
Proof.
  destruct (resize_rescales (field_of [particle_centre])
              (mkCanvas 200 100 (mkContainer 400 200)) eq_refl eq_refl eq_refl)
    as (w' & Hrun & _ & _ & Hp).
  exists w'. split; [exact Hrun | ].
  destruct (Hp 0%nat particle_centre eq_refl)
    as (p' & Hn & Hx & Hy & _).
  exists p'. split; [exact Hn | ].
  cbn in Hx, Hy. unfold num in Hx, Hy. cbn in Hx, Hy.
  split; [rewrite Hx | rewrite Hy]; lra.
Defined.

(** ** Construction *)

Lemma resize_settled (c : Canvas) (n : nat) (L : list Listener) (F : nat)
    (w : World) :
  settled c n L F w ->
  returns ParticleSystem.resize w (fun _ w' => settled (resized c) n L F w').
Proof.
  intros (Hc & Hn & HL & HF).
  unfold ParticleSystem.resize.
  apply returns_bind, (returns_the_canvas c); [exact Hc | ].
  apply returns_bind, returns_modify.
  destruct ((0 <? width c)%N && (0 <? height c)%N)%bool.
  - apply returns_modify. unfold settled. cbn. rewrite length_map. auto.
  - apply returns_ret. unfold settled. cbn. auto.
Qed.

Lemma init_settled (c : Canvas) (L : list Listener) (F : nat) (w : World) :
  settled c 0 L F w ->
  returns ParticleSystem.init w
          (fun _ w' => settled (resized c) config.particleCount L F w').
Proof.
  intros Hw. unfold ParticleSystem.init.
  apply returns_bind.
  apply (returns_weaken _ _ _ _ (resize_settled c 0 L F w Hw)).
  intros _ w1 H1.
  apply (returns_for_range (fun i w' => settled (resized c) i L F w'));
    [lia | exact H1 | ].
  intros i w2 _ (Hc & Hn & HL & HF).
  apply returns_bind, (returns_the_canvas (resized c)); [exact Hc | ].
  apply returns_bind, returns_draw_random.
  apply returns_modify. unfold settled. cbn.
  rewrite length_app, Hn. cbn. repeat split; auto. lia.
Qed.

Lemma bindEvents_settled (c : Canvas) (n : nat) (L : list Listener) (F : nat)
    (w : World) :
  settled c n L F w ->
  returns ParticleSystem.bindEvents w
          (fun _ w' => settled c n (L ++ bound_listeners) F w').
Proof.
  intros (Hc & Hn & HL & HF). unfold ParticleSystem.bindEvents.
  apply returns_bind, returns_modify.
  apply returns_bind, (returns_the_canvas c); [exact Hc | ].
  apply returns_bind, returns_modify.
  apply returns_bind, (returns_the_canvas c); [exact Hc | ].
  apply returns_modify. unfold settled, bound_listeners. cbn.
  rewrite HL. repeat rewrite <- app_assoc. auto.
Qed.

Lemma update_and_draw_settled (c : Canvas) (n : nat) (L : list Listener)
    (F : nat) (i : nat) (w : World) :
  (i < n)%nat ->
  settled c n L F w ->
  returns (ParticleSystem.update_and_draw i) w
          (fun _ w' => settled c n L F w').
Proof.
  intros Hi (Hc & Hn & HL & HF). unfold ParticleSystem.update_and_draw.
  destruct (nth_error (particles w) i) as [p | ] eqn:Hp;
    [ | apply nth_error_None in Hp; lia].
  apply returns_bind, (returns_particle_at i p); [exact Hp | ].
  apply returns_bind, (returns_the_canvas c); [exact Hc | ].
  apply returns_bind, returns_gets.
  apply returns_bind, returns_draw_random.
  apply returns_bind, returns_modify.
  apply returns_modify. unfold settled.
  cbn [canvas particles listeners animation_frames set_particles set_ctx
       set_rng].
  rewrite length_app, length_firstn. cbn [length].
  rewrite length_skipn. repeat split; auto. lia.
Qed.

Lemma animate_settled (c : Canvas) (n : nat) (L : list Listener) (F : nat)
    (w : World) :
  settled c n L F w ->
  returns ParticleSystem.animate w (fun _ w' => settled c n L (S F) w').
Proof.
  intros (Hc & Hn & HL & HF). unfold ParticleSystem.animate.
  apply returns_bind, (returns_the_canvas c); [exact Hc | ].
  apply returns_bind, (returns_eq _ _ _ _ _ (call_emit _ _)).
  apply returns_bind, (returns_eq _ _ _ _ _ (drawLines_emit _)).
  apply returns_bind, returns_gets.
  cbn [particles emit set_ctx]. rewrite Hn.
  apply returns_bind.
  apply (returns_weaken _ _ (fun _ w' => settled c n L F w')).
  - apply (returns_for_range (fun _ w' => settled c n L F w')); [lia | | ].
    + unfold settled. cbn. auto.
    + intros i w1 Hi H1. apply update_and_draw_settled; [lia | exact H1].
  - intros _ w1 (Hc1 & Hn1 & HL1 & HF1).
    apply returns_modify. unfold settled. cbn. auto.
Qed.

(** C9. When [document.getElementById] finds no element, the constructor
    returns without throwing and has only set [this.canvas] to [null]:
    no particle is created, no listener registered, no animation frame
    requested, nothing drawn.  It is the only case in which the system
    does not start: with an element, the constructor returns with 120
    particles, its three listeners registered and one animation frame
    requested. *)
Theorem constructor_unresolved_is_noop
    (document : string -> option Canvas) (canvasId : string) (w : World) :
  (document canvasId = None ->
   ParticleSystem.constructor document canvasId w =
   Returns tt
     (mkWorld None (ctx w) (particles w) (mouse w) (rng w) (listeners w)
              (animation_frames w)))
  /\
  (forall c : Canvas,
      document canvasId = Some c ->
      exists w' : World,
        ParticleSystem.constructor document canvasId w = Returns tt w' /\
        canvas w' = Some (resized c) /\
        length (particles w') = 120%nat /\
        listeners w' = listeners w ++ bound_listeners /\
        animation_frames w' = S (animation_frames w)).
Proof.
  split.
  - intros Hnone. unfold ParticleSystem.constructor, bind, modify, gets.
    cbn. rewrite Hnone. reflexivity.
  - intros c Hc.
    assert (H : returns (ParticleSystem.constructor document canvasId) w
                  (fun _ w' =>
                     settled (resized c) config.particleCount
                             (listeners w ++ bound_listeners)
                             (S (animation_frames w)) w')).
    { unfold ParticleSystem.constructor.
      apply returns_bind, returns_modify.
      apply returns_bind, returns_gets.
      cbn [canvas set_canvas]. rewrite Hc.
      apply returns_bind, returns_modify.
      apply returns_bind, returns_modify.
      apply returns_bind.
      eapply returns_weaken.
      { apply (init_settled c (listeners w) (animation_frames w)).
        unfold settled. cbn. auto. }
      intros u w1 H1. cbv beta in H1. apply returns_bind.
      apply (returns_weaken _ _ _ _ (bindEvents_settled _ _ _ _ w1 H1)).
      intros _ w2 H2. apply animate_settled. exact H2. }
    destruct H as ([] & w' & Hrun & H1 & H2 & H3 & H4).
    exists w'. auto.
Qed.

Lemma constructor_unresolved_is_noop_witness :
  ParticleSystem.constructor blank_page "particles-canvas" before_construction
    = Returns tt before_construction /\
  exists w' : World,
    ParticleSystem.constructor page_with_canvas "particles-canvas"
                               before_construction = Returns tt w' /\
    length (particles w') = 120%nat.
Proof.
  destruct (constructor_unresolved_is_noop blank_page "particles-canvas"
              before_construction) as [Hnone _].
  destruct (constructor_unresolved_is_noop page_with_canvas "particles-canvas"
              before_construction) as [_ Hsome].
  split; [exact (Hnone eq_refl) | ].
  destruct (Hsome _ eq_refl) as (w' & Hrun & _ & Hlen & _).
  exists w'. split; [exact Hrun | exact Hlen].
Defined.

(** ** One frame *)

(** After [animate], every particle is inside the canvas of the
    system. *)
Lemma animate_keeps_particles_inside (c : Canvas) (w : World) :
  canvas w = Some c ->
  returns ParticleSystem.animate w
          (fun _ w' => canvas w' = Some c /\
                       length (particles w') = length (particles w) /\
                       Forall (inside c) (particles w')).
Proof.
  intros Hc. unfold ParticleSystem.animate.
  apply returns_bind, (returns_the_canvas c); [exact Hc | ].
  apply returns_bind, (returns_eq _ _ _ _ _ (call_emit _ _)).
  apply returns_bind, (returns_eq _ _ _ _ _ (drawLines_emit _)).
  apply returns_bind, returns_gets.
  cbn [particles emit set_ctx].
  set (n := length (particles w)).
  apply returns_bind.
  apply (returns_weaken _ _
           (fun _ w' => canvas w' = Some c /\ length (particles w') = n /\
                        Forall (inside c) (firstn n (particles w')))).
  - apply (returns_for_range
             (fun i w' => canvas w' = Some c /\ length (particles w') = n /\
                          Forall (inside c) (firstn i (particles w'))));
      [lia | cbn; auto | ].
    intros i w1 Hi (Hc1 & Hn1 & Hin1).
    unfold ParticleSystem.update_and_draw.
    destruct (nth_error (particles w1) i) as [p | ] eqn:Hp;
      [ | apply nth_error_None in Hp; lia].
    apply returns_bind, (returns_particle_at i p); [exact Hp | ].
    apply returns_bind, (returns_the_canvas c); [exact Hc1 | ].
    apply returns_bind, returns_gets.
    apply returns_bind, returns_draw_random.
    apply returns_bind, returns_modify.
    apply returns_modify.
    cbn [canvas particles set_particles set_ctx set_rng].
    set (p' := fst (Particle.update c (mouse w1) p (rng w1))).
    assert (Hlen : length (firstn i (particles w1)) = i)
      by (rewrite length_firstn; lia).
    split; [exact Hc1 | ]. split.
    + rewrite length_app, Hlen. cbn [length]. rewrite length_skipn. lia.
    + replace (S i) with (length (firstn i (particles w1)) + 1)%nat at 1
        by (rewrite Hlen; lia).
      rewrite firstn_app_2. cbn [firstn]. apply Forall_app. split.
      * exact Hin1.
      * constructor; [ | constructor].
        destruct (update_ends_with_collision c (mouse w1) p (rng w1))
          as [q Hq].
        unfold p'. rewrite Hq. apply boundary_collision_within.
  - intros _ w1 (Hc1 & Hn1 & Hin1).
    apply returns_modify.
    cbn [canvas particles set_animation_frames].
    rewrite <- Hn1, firstn_all in Hin1. auto.
Qed.

(** And so after any number of frames, none of which throws. *)
Lemma frames_keep_particles_inside (c : Canvas) (k : nat) (w : World) :
  canvas w = Some c ->
  returns (frames (S k)) w
          (fun _ w' => canvas w' = Some c /\
                       length (particles w') = length (particles w) /\
                       Forall (inside c) (particles w')).
Proof.
  revert w. induction k as [ | k IH]; intros w Hc.
  - cbn [frames]. apply returns_bind.
    apply (returns_weaken _ _ _ _ (animate_keeps_particles_inside c w Hc)).
    intros u w1 H1. apply returns_ret. exact H1.
  - change (frames (S (S k))) with (bind ParticleSystem.animate
                                         (fun _ => frames (S k))).
    apply returns_bind.
    apply (returns_weaken _ _ _ _ (animate_keeps_particles_inside c w Hc)).
    intros u w1 (Hc1 & Hn1 & _).
    apply (returns_weaken _ _ _ _ (IH w1 Hc1)).
    intros u' w2 (Hc2 & Hn2 & Hin2). rewrite <- Hn1. auto.
Qed.

(** ** Binary64: no [NaN] without a guard

    Rounding, in the terms of [SpecFloat]: [binary_round_aux] never
    yields [NaN] from a mantissa that is not negative, and keeps a
    value below [2^K] below [2^(K+1)] without overflow as long as [K]
    is at most 970. *)

Section Doubles.
Import Binary64.
Local Open Scope Z_scope.

Lemma pow2_pos (k : Z) : 0 <= k -> 0 < 2 ^ k.
Proof. intros H. apply Z.pow_pos_nonneg; lia. Qed.

Lemma pow2_neg (k : Z) : k < 0 -> 2 ^ k = 0.
Proof. apply Z.pow_neg_r. Qed.

Lemma pow2_step (k : Z) : 1 <= k -> 2 ^ k = 2 * 2 ^ (k - 1).
Proof.
  intros H. replace k with (Z.succ (k - 1)) at 1 by lia.
  apply Z.pow_succ_r. lia.
Qed.

Lemma pow2_mono (a b : Z) : a <= b -> 2 ^ a <= 2 ^ b.
Proof.
  intros H. destruct (Z_lt_le_dec a 0) as [Ha | Ha].
  - rewrite (pow2_neg a Ha). destruct (Z_lt_le_dec b 0) as [Hb | Hb].
    + rewrite (pow2_neg b Hb). lia.
    + pose proof (pow2_pos b Hb). lia.
  - apply Z.pow_le_mono_r; lia.
Qed.

Lemma pow2_below (m k : Z) : 0 <= m < 2 ^ k -> 0 <= k.
Proof.
  intros H. destruct (Z_lt_le_dec k 0) as [Hk | Hk]; [ | exact Hk ].
  rewrite (pow2_neg k Hk) in H. lia.
Qed.

Lemma pow2_plus (a b : Z) : 0 <= a -> 0 <= b -> 2 ^ (a + b) = 2 ^ a * 2 ^ b.
Proof. intros Ha Hb. apply Z.pow_add_r; assumption. Qed.

(** Digits *)
Lemma digits2_pos_le (p : positive) : forall k, Zpos p < 2 ^ k -> Zpos (digits2_pos p) <= k.
Proof.
  induction p as [p IH | p IH | ]; intros k H; cbn [digits2_pos].
  - assert (Hk : 1 <= k).
    { destruct (Z_lt_le_dec k 1) as [Hk | Hk]; [ | exact Hk ].
      pose proof (pow2_mono k 0 ltac:(lia)) as Hm. change (2 ^ 0) with 1 in Hm. lia. }
    rewrite (pow2_step k Hk) in H.
    rewrite Pos2Z.inj_succ. specialize (IH (k - 1)). rewrite Pos2Z.inj_xI in H. lia.
  - assert (Hk : 1 <= k).
    { destruct (Z_lt_le_dec k 1) as [Hk | Hk]; [ | exact Hk ].
      pose proof (pow2_mono k 0 ltac:(lia)) as Hm. change (2 ^ 0) with 1 in Hm. lia. }
    rewrite (pow2_step k Hk) in H.
    rewrite Pos2Z.inj_succ. specialize (IH (k - 1)). rewrite Pos2Z.inj_xO in H. lia.
  - destruct (Z_lt_le_dec k 1) as [Hk | Hk]; [ | lia ].
    pose proof (pow2_mono k 0 ltac:(lia)) as Hm. change (2 ^ 0) with 1 in Hm. lia.
Qed.

Lemma digits2_pos_gt (p : positive) : Zpos p < 2 ^ Zpos (digits2_pos p).
Proof.
  induction p as [p IH | p IH | ]; cbn [digits2_pos].
  - rewrite Pos2Z.inj_succ, Z.pow_succ_r by lia. rewrite Pos2Z.inj_xI. lia.
  - rewrite Pos2Z.inj_succ, Z.pow_succ_r by lia. rewrite Pos2Z.inj_xO. lia.
  - reflexivity.
Qed.

Lemma Zdigits2_le (m k : Z) : 0 <= m < 2 ^ k -> Zdigits2 m <= k.
Proof.
  intros H. pose proof (pow2_below m k H) as Hk.
  destruct m as [ | p | p ]; cbn [Zdigits2]; [ exact Hk | | lia ].
  apply digits2_pos_le. lia.
Qed.

(** Shifts *)
Lemma iter_pos_invariant {A : Type} (f : A -> A) (P : Z -> A -> Prop) :
  (forall j x, P j x -> P (j - 1) (f x)) ->
  forall p j x, P j x -> P (j - Zpos p) (SpecFloat.iter_pos f p x).
Proof.
  intros Hf. induction p as [p IH | p IH | ]; intros j x H; cbn [SpecFloat.iter_pos].
  - replace (j - Zpos p~1) with (j - 1 - Zpos p - Zpos p) by lia.
    apply IH, IH, Hf, H.
  - replace (j - Zpos p~0) with (j - Zpos p - Zpos p) by lia.
    apply IH, IH, H.
  - apply Hf, H.
Qed.

Lemma shr_1_below (j : Z) (mrs : shr_record) :
  shr_below j mrs -> shr_below (j - 1) (shr_1 mrs).
Proof.
  unfold shr_below. destruct mrs as [m r s]. cbn [shr_m]. intros [H0 H].
  destruct (Z_lt_le_dec j 1) as [Hj | Hj].
  - replace (Z.max 0 j) with 0 in H by lia. change (2 ^ 0) with 1 in H.
    assert (m = 0) by lia. subst m. cbn. replace (Z.max 0 (j - 1)) with 0 by lia.
    change (2 ^ 0) with 1. lia.
  - replace (Z.max 0 j) with j in H by lia. rewrite (pow2_step j Hj) in H.
    replace (Z.max 0 (j - 1)) with (j - 1) by lia.
    pose proof (pow2_pos (j - 1) ltac:(lia)) as Hp.
    destruct m as [ | [p | p | ] | p ]; cbn [shr_1 shr_m]; try lia.
Qed.

Lemma shr_1_nonneg (mrs : shr_record) : 0 <= shr_m mrs -> 0 <= shr_m (shr_1 mrs).
Proof.
  destruct mrs as [m r s]. cbn [shr_m]. intros H0.
  destruct m as [ | [p | p | ] | p ]; cbn [shr_1 shr_m]; lia.
Qed.

Lemma fexp_le (e K : Z) : e <= K -> -1074 <= K -> fexp prec emax e <= K.
Proof. unfold fexp, emin, prec, emax. lia. Qed.

Lemma shr_fexp_below (m e K : Z) (l : location) :
  0 <= m < 2 ^ (K - e) -> -1074 <= K ->
  shr_below (K - snd (shr_fexp prec emax m e l)) (fst (shr_fexp prec emax m e l))
  /\ e <= snd (shr_fexp prec emax m e l) <= K.
Proof.
  intros H HK. pose proof (pow2_below _ _ H) as Hk.
  pose proof (Zdigits2_le _ _ H) as Hd.
  pose proof (fexp_le (Zdigits2 m + e) K ltac:(lia) HK) as Hf.
  unfold shr_fexp, shr.
  assert (Hm : shr_m (shr_record_of_loc m l) = m) by (destruct l as [ | [ | | ]]; reflexivity).
  destruct (fexp prec emax (Zdigits2 m + e) - e) as [ | p | p ] eqn:En; cbn [fst snd].
  - split; [ | lia ]. unfold shr_below. rewrite Hm. replace (Z.max 0 (K - e)) with (K - e) by lia. exact H.
  - split; [ | lia ]. replace (K - (e + Zpos p)) with (K - e - Zpos p) by lia.
    apply (iter_pos_invariant shr_1 shr_below shr_1_below).
    unfold shr_below. rewrite Hm. replace (Z.max 0 (K - e)) with (K - e) by lia. exact H.
  - split; [ | lia ]. unfold shr_below. rewrite Hm. replace (Z.max 0 (K - e)) with (K - e) by lia. exact H.
Qed.

Lemma shr_fexp_nonneg (m e : Z) (l : location) :
  0 <= m -> 0 <= shr_m (fst (shr_fexp prec emax m e l)).
Proof.
  intros H. unfold shr_fexp, shr.
  assert (Hm : shr_m (shr_record_of_loc m l) = m) by (destruct l as [ | [ | | ]]; reflexivity).
  destruct (fexp prec emax (Zdigits2 m + e) - e) as [ | p | p ]; cbn [fst]; try (rewrite Hm; exact H).
  apply (iter_pos_invariant shr_1 (fun _ x => 0 <= shr_m x) (fun _ x => shr_1_nonneg x) p 0).
  rewrite Hm. exact H.
Qed.

Lemma round_nearest_even_bounds (m : Z) (l : location) :
  m <= round_nearest_even m l <= m + 1.
Proof.
  destruct l as [ | [ | | ]]; cbn [round_nearest_even]; try lia.
  destruct (Z.even m); lia.
Qed.

Lemma binary_round_aux_signed (s : bool) (m e : Z) (l : location) :
  0 <= m -> sf_signed s (binary_round_aux prec emax s m e l).
Proof.
  intros H. unfold binary_round_aux.
  pose proof (shr_fexp_nonneg m e l H) as H1.
  destruct (shr_fexp prec emax m e l) as [mrs1 e1]. cbn [fst] in H1.
  pose proof (round_nearest_even_bounds (shr_m mrs1) (loc_of_shr_record mrs1)) as Hr.
  pose proof (shr_fexp_nonneg (round_nearest_even (shr_m mrs1) (loc_of_shr_record mrs1)) e1 loc_Exact ltac:(lia)) as H2.
  destruct (shr_fexp prec emax _ e1 loc_Exact) as [mrs2 e2]. cbn [fst] in H2.
  destruct (shr_m mrs2) as [ | p | p ]; [ reflexivity | | lia ].
  destruct (e2 <=? emax - prec); reflexivity.
Qed.

Lemma binary_round_aux_small (s : bool) (m e K : Z) (l : location) :
  0 <= m < 2 ^ (K - e) -> -1074 <= K -> K <= 970 ->
  sf_small (K + 1) (binary_round_aux prec emax s m e l).
Proof.
  intros H HK HK'. unfold binary_round_aux.
  destruct (shr_fexp_below m e K l H HK) as [H1 He1].
  destruct (shr_fexp prec emax m e l) as [mrs1 e1]. cbn [fst snd] in H1, He1.
  unfold shr_below in H1. replace (Z.max 0 (K - e1)) with (K - e1) in H1 by lia.
  pose proof (round_nearest_even_bounds (shr_m mrs1) (loc_of_shr_record mrs1)) as Hr.
  assert (H2 : 0 <= round_nearest_even (shr_m mrs1) (loc_of_shr_record mrs1) < 2 ^ (K + 1 - e1)).
  { rewrite (pow2_step (K + 1 - e1)) by lia. replace (K + 1 - e1 - 1) with (K - e1) by lia. lia. }
  destruct (shr_fexp_below _ e1 (K + 1) loc_Exact H2 ltac:(lia)) as [H3 He2].
  destruct (shr_fexp prec emax _ e1 loc_Exact) as [mrs2 e2]. cbn [fst snd] in H3, He2.
  unfold shr_below in H3. replace (Z.max 0 (K + 1 - e2)) with (K + 1 - e2) in H3 by lia.
  destruct (shr_m mrs2) as [ | p | p ]; [ exact I | | lia ].
  replace (e2 <=? emax - prec) with true by (symmetry; apply Z.leb_le; unfold emax, prec; lia).
  exact (proj2 H3).
Qed.

Lemma sf_small_mono (K K' : Z) (x : spec_float) :
  K <= K' -> sf_small K x -> sf_small K' x.
Proof.
  intros HK. destruct x as [ s | s | | s m e ]; cbn [sf_small]; try tauto.
  intros H. pose proof (pow2_mono (K - e) (K' - e) ltac:(lia)). lia.
Qed.

Lemma sf_small_finite (K : Z) (x : spec_float) : sf_small K x -> sf_finite x.
Proof. destruct x; cbn; tauto. Qed.

Lemma sf_signed_not_nan (s : bool) (x : spec_float) : sf_signed s x -> x <> S754_nan.
Proof. destruct x; cbn; intros H; try discriminate. contradiction. Qed.

Lemma pos_iter_xO (m d : positive) : Zpos (Pos.iter xO m d) = Zpos m * 2 ^ Zpos d.
Proof.
  induction d as [ | d IH ] using Pos.peano_ind.
  - cbn [Pos.iter]. rewrite Pos2Z.inj_xO. change (2 ^ 1) with 2. lia.
  - rewrite Pos.iter_succ, Pos2Z.inj_xO, IH, Pos2Z.inj_succ, Z.pow_succ_r by lia. lia.
Qed.

Lemma shl_align_down (mx : positive) (ex ex' : Z) :
  ex' <= ex ->
  Zpos (fst (shl_align mx ex ex')) = Zpos mx * 2 ^ (ex - ex')
  /\ snd (shl_align mx ex ex') = ex'.
Proof.
  intros H. unfold shl_align. destruct (ex' - ex) as [ | d | d ] eqn:Ed; cbn [fst snd].
  - replace (ex - ex') with 0 by lia. change (2 ^ 0) with 1. lia.
  - lia.
  - rewrite pos_iter_xO. replace (ex - ex') with (Zpos d) by lia. lia.
Qed.

Lemma shl_align_up (mx : positive) (ex ex' : Z) :
  ex <= ex' -> shl_align mx ex ex' = (mx, ex).
Proof.
  intros H. unfold shl_align. destruct (ex' - ex) as [ | d | d ] eqn:Ed; try reflexivity. lia.
Qed.

Lemma shl_align_small (mx : positive) (ex ez K : Z) :
  ez <= ex -> Zpos mx < 2 ^ (K - ex) -> Zpos (fst (shl_align mx ex ez)) < 2 ^ (K - ez).
Proof.
  intros He H. destruct (shl_align_down mx ex ez He) as [Hm _]. rewrite Hm.
  pose proof (pow2_below (Zpos mx) (K - ex) ltac:(lia)) as Hk.
  replace (K - ez) with ((K - ex) + (ex - ez)) by lia.
  rewrite pow2_plus by lia.
  pose proof (pow2_pos (ex - ez) ltac:(lia)).
  apply Z.mul_lt_mono_pos_r; assumption.
Qed.

Lemma binary_round_signed (s : bool) (mx : positive) (ex : Z) :
  sf_signed s (binary_round prec emax s mx ex).
Proof.
  unfold binary_round. destruct (shl_align mx ex _) as [mz ez].
  apply binary_round_aux_signed. lia.
Qed.

Lemma binary_round_small (s : bool) (mx : positive) (ex K : Z) :
  Zpos mx < 2 ^ (K - ex) -> -1074 <= K -> K <= 970 ->
  sf_small (K + 1) (binary_round prec emax s mx ex).
Proof.
  intros H HK HK'. unfold binary_round.
  destruct (Z_lt_le_dec (fexp prec emax (Zpos (digits2_pos mx) + ex)) ex) as [Hf | Hf].
  - pose proof (shl_align_small mx ex (fexp prec emax (Zpos (digits2_pos mx) + ex)) K ltac:(lia) H) as Hm.
    destruct (shl_align_down mx ex (fexp prec emax (Zpos (digits2_pos mx) + ex)) ltac:(lia)) as [_ He].
    destruct (shl_align mx ex _) as [mz ez]. cbn [fst snd] in Hm, He. subst ez.
    apply binary_round_aux_small; lia.
  - rewrite (shl_align_up mx ex _ Hf). apply binary_round_aux_small; lia.
Qed.

Lemma binary_normalize_small (z e K : Z) (szero : bool) :
  Z.abs z < 2 ^ (K - e) -> -1074 <= K -> K <= 970 ->
  sf_small (K + 1) (binary_normalize prec emax z e szero).
Proof.
  intros H HK HK'. destruct z as [ | p | p ]; cbn [binary_normalize].
  - exact I.
  - apply binary_round_small; lia.
  - apply binary_round_small; lia.
Qed.

Lemma binary_normalize_not_nan (z e : Z) (szero : bool) :
  binary_normalize prec emax z e szero <> S754_nan.
Proof.
  destruct z as [ | p | p ]; cbn [binary_normalize].
  - discriminate.
  - apply (sf_signed_not_nan false), binary_round_signed.
  - apply (sf_signed_not_nan true), binary_round_signed.
Qed.

Lemma cond_Zopp_abs (s : bool) (z : Z) : Z.abs (cond_Zopp s z) = Z.abs z.
Proof. destruct s; cbn [cond_Zopp]; lia. Qed.

Lemma aligned_sum_small (sx sy : bool) (mx my : positive) (ex ey K : Z) :
  Zpos mx < 2 ^ (K - ex) -> Zpos my < 2 ^ (K - ey) ->
  let ez := Z.min ex ey in
  let a := cond_Zopp sx (Zpos (fst (shl_align mx ex ez))) in
  let b := cond_Zopp sy (Zpos (fst (shl_align my ey ez))) in
  Z.abs (a + b) < 2 ^ (K + 1 - ez) /\ Z.abs (a - b) < 2 ^ (K + 1 - ez).
Proof.
  intros Hx Hy ez a b.
  pose proof (shl_align_small mx ex ez K ltac:(lia) Hx) as Ha.
  pose proof (shl_align_small my ey ez K ltac:(lia) Hy) as Hb.
  pose proof (pow2_below _ _ (conj (Pos2Z.is_nonneg _) Ha)) as Hk.
  rewrite (pow2_step (K + 1 - ez)) by lia. replace (K + 1 - ez - 1) with (K - ez) by lia.
  pose proof (cond_Zopp_abs sx (Zpos (fst (shl_align mx ex ez)))) as Ea.
  pose proof (cond_Zopp_abs sy (Zpos (fst (shl_align my ey ez)))) as Eb.
  fold a in Ea. fold b in Eb. lia.
Qed.

Lemma SFadd_small (K : Z) (x y : spec_float) :
  sf_small K x -> sf_small K y -> -1075 <= K -> K <= 969 ->
  sf_small (K + 2) (SFadd prec emax x y).
Proof.
  intros Hx Hy HK HK'.
  destruct x as [ sx | sx | | sx mx ex ]; cbn [sf_small] in Hx; try contradiction;
    destruct y as [ sy | sy | | sy my ey ]; cbn [sf_small] in Hy; try contradiction.
  - destruct sx, sy; exact I.
  - cbn [SFadd]. apply (sf_small_mono K); [ lia | exact Hy ].
  - cbn [SFadd]. apply (sf_small_mono K); [ lia | exact Hx ].
  - cbn [SFadd]. destruct (aligned_sum_small sx sy mx my ex ey K Hx Hy) as [H _].
    replace (K + 2) with (K + 1 + 1) by lia.
    apply binary_normalize_small; [ exact H | lia | lia ].
Qed.

Lemma SFsub_small (K : Z) (x y : spec_float) :
  sf_small K x -> sf_small K y -> -1075 <= K -> K <= 969 ->
  sf_small (K + 2) (SFsub prec emax x y).
Proof.
  intros Hx Hy HK HK'.
  destruct x as [ sx | sx | | sx mx ex ]; cbn [sf_small] in Hx; try contradiction;
    destruct y as [ sy | sy | | sy my ey ]; cbn [sf_small] in Hy; try contradiction.
  - destruct sx, sy; exact I.
  - cbn [SFsub]. apply (sf_small_mono K (K + 2) (S754_finite (negb sy) my ey)); [ lia | exact Hy ].
  - cbn [SFsub]. apply (sf_small_mono K); [ lia | exact Hx ].
  - cbn [SFsub]. destruct (aligned_sum_small sx sy mx my ex ey K Hx Hy) as [_ H].
    replace (K + 2) with (K + 1 + 1) by lia.
    apply binary_normalize_small; [ exact H | lia | lia ].
Qed.

Lemma SFadd_not_nan (x y : spec_float) :
  sf_finite x -> sf_finite y -> SFadd prec emax x y <> S754_nan.
Proof.
  intros Hx Hy.
  destruct x as [ sx | sx | | sx mx ex ]; cbn [sf_finite] in Hx; try contradiction;
    destruct y as [ sy | sy | | sy my ey ]; cbn [sf_finite] in Hy; try contradiction;
    cbn [SFadd]; try discriminate.
  - destruct sx, sy; discriminate.
  - apply binary_normalize_not_nan.
Qed.

Lemma SFsub_not_nan (x y : spec_float) :
  sf_finite x -> sf_finite y -> SFsub prec emax x y <> S754_nan.
Proof.
  intros Hx Hy.
  destruct x as [ sx | sx | | sx mx ex ]; cbn [sf_finite] in Hx; try contradiction;
    destruct y as [ sy | sy | | sy my ey ]; cbn [sf_finite] in Hy; try contradiction;
    cbn [SFsub]; try discriminate.
  - destruct sx, sy; discriminate.
  - apply binary_normalize_not_nan.
Qed.

Lemma SFsub_diag (x : spec_float) :
  sf_finite x -> SFsub prec emax x x = S754_zero false.
Proof.
  destruct x as [ s | s | | s m e ]; cbn [sf_finite]; try contradiction; intros _.
  - destruct s; reflexivity.
  - cbn [SFsub]. rewrite Z.sub_diag. reflexivity.
Qed.

Lemma SFmul_small (Kx Ky : Z) (x y : spec_float) :
  sf_small Kx x -> sf_small Ky y -> -1074 <= Kx + Ky -> Kx + Ky <= 970 ->
  sf_small (Kx + Ky + 1) (SFmul prec emax x y).
Proof.
  intros Hx Hy HK HK'.
  destruct x as [ sx | sx | | sx mx ex ]; cbn [sf_small] in Hx; try contradiction;
    destruct y as [ sy | sy | | sy my ey ]; cbn [sf_small] in Hy; try contradiction;
    cbn [SFmul]; try exact I.
  apply binary_round_aux_small; [ | lia | lia ].
  pose proof (pow2_below (Zpos mx) (Kx - ex) ltac:(lia)) as Hkx.
  pose proof (pow2_below (Zpos my) (Ky - ey) ltac:(lia)) as Hky.
  replace (Kx + Ky - (ex + ey)) with ((Kx - ex) + (Ky - ey)) by lia.
  rewrite pow2_plus by lia. rewrite Pos2Z.inj_mul.
  split; [ lia | ]. apply Z.mul_lt_mono_nonneg; lia.
Qed.

Lemma SFmul_square (x : spec_float) :
  x <> S754_nan -> sf_signed false (SFmul prec emax x x).
Proof.
  intros H. destruct x as [ s | s | | s m e ]; cbn [SFmul sf_signed].
  - apply xorb_nilpotent.
  - apply xorb_nilpotent.
  - congruence.
  - rewrite xorb_nilpotent. apply binary_round_aux_signed. lia.
Qed.

Lemma SFadd_signed_false (x y : spec_float) :
  sf_signed false x -> sf_signed false y -> sf_signed false (SFadd prec emax x y).
Proof.
  intros Hx Hy.
  destruct x as [ sx | sx | | sx mx ex ]; cbn [sf_signed] in Hx; try contradiction; subst sx;
    destruct y as [ sy | sy | | sy my ey ]; cbn [sf_signed] in Hy; try contradiction; subst sy;
    cbn [SFadd sf_signed]; try reflexivity.
  cbn [cond_Zopp].
  destruct (Zpos (fst (shl_align mx ex (Z.min ex ey))) + Zpos (fst (shl_align my ey (Z.min ex ey))))
    as [ | p | p ] eqn:E; try lia.
  cbn [binary_normalize]. apply binary_round_signed.
Qed.

Lemma SFsqrt_signed_false (x : spec_float) :
  sf_signed false x -> sf_signed false (SFsqrt prec emax x).
Proof.
  intros Hx.
  destruct x as [ sx | sx | | sx mx ex ]; cbn [sf_signed] in Hx; try contradiction; subst sx;
    cbn [SFsqrt sf_signed]; try reflexivity.
  unfold SFsqrt_core_binary.
  set (m' := match _ - _ with Zpos _ => _ | Z0 => _ | Zneg _ => _ end).
  pose proof (Z.sqrtrem_sqrt m') as Hq. pose proof (Z.sqrt_nonneg m') as Hn.
  destruct (Z.sqrtrem m') as [q r]. cbn [fst] in Hq.
  apply binary_round_aux_signed. lia.
Qed.

Lemma SFdiv_small (K : Z) (x : spec_float) (sy : bool) (my : positive) (ey : Z) :
  sf_small K x -> -1074 <= K - ey -> K - ey <= 970 ->
  sf_small (K - ey + 1) (SFdiv prec emax x (S754_finite sy my ey)).
Proof.
  intros Hx HK HK'.
  destruct x as [ sx | sx | | sx mx ex ]; cbn [sf_small] in Hx; try contradiction;
    cbn [SFdiv]; try exact I.
  unfold SFdiv_core_binary.
  set (e' := Z.min _ (ex - ey)).
  set (m' := match ex - ey - e' with Zpos _ => _ | Z0 => _ | Zneg _ => _ end).
  pose proof (pow2_below (Zpos mx) (K - ex) ltac:(lia)) as Hk.
  assert (He : e' <= ex - ey) by (unfold e'; lia).
  assert (Hm : 0 <= m' < 2 ^ (K - ey - e')).
  { unfold m'. destruct (ex - ey - e') as [ | s | s ] eqn:Es.
    - replace (K - ey - e') with (K - ex) by lia. lia.
    - rewrite Z.shiftl_mul_pow2 by lia.
      replace (K - ey - e') with ((K - ex) + Zpos s) by lia.
      rewrite pow2_plus by lia. pose proof (pow2_pos (Zpos s) ltac:(lia)).
      split; [ lia | ]. apply Z.mul_lt_mono_pos_r; lia.
    - lia. }
  assert (Hq : 0 <= m' / Zpos my <= m').
  { split; [ apply Z.div_pos; lia | ].
    apply Z.div_le_upper_bound; [ lia | ]. nia. }
  unfold Z.div in Hq. destruct (Z.div_eucl m' (Zpos my)) as [q r].
  apply binary_round_aux_small; lia.
Qed.

(** Comparisons *)
Lemma valid_mantissa (s : bool) (m : positive) (e : Z) :
  valid_binary (S754_finite s m e) = true -> Zpos m < 2 ^ 53.
Proof.
  unfold valid_binary; cbn [SpecFloat.valid_binary]. unfold bounded, canonical_mantissa. intros H.
  apply andb_prop in H. destruct H as [H _]. apply Z.eqb_eq in H.
  pose proof (digits2_pos_gt m) as Hd.
  assert (Hle : Zpos (digits2_pos m) <= 53) by (unfold fexp, emin, prec, emax in H; lia).
  pose proof (pow2_mono _ _ Hle). lia.
Qed.

Lemma valid_small (x : spec_float) (e0 : Z) :
  valid_binary x = true ->
  match x with S754_finite _ _ e => e <= e0 | S754_zero _ => True | _ => False end ->
  sf_small (53 + e0) x.
Proof.
  intros Hv. destruct x as [ s | s | | s m e ]; cbn [sf_small]; try tauto.
  intros He. pose proof (valid_mantissa s m e Hv).
  pose proof (pow2_mono 53 (53 + e0 - e) ltac:(lia)). lia.
Qed.

Lemma SFleb_abs_small (x : spec_float) (m0 : positive) (e0 : Z) :
  valid_binary x = true ->
  SFleb (SFabs x) (S754_finite false m0 e0) = true ->
  sf_small (53 + e0) x.
Proof.
  intros Hv H. apply valid_small; [ exact Hv | ].
  destruct x as [ s | s | | s m e ]; cbn in H; try discriminate; try exact I.
  cbn beta iota. destruct (Z.compare_spec e e0) as [E | E | E]; try discriminate; lia.
Qed.

Lemma SFltb_small (x : spec_float) (m0 : positive) (e0 : Z) :
  valid_binary x = true -> sf_signed false x ->
  SFltb x (S754_finite false m0 e0) = true ->
  sf_small (53 + e0) x.
Proof.
  intros Hv Hs H. apply valid_small; [ exact Hv | ].
  destruct x as [ s | s | | s m e ]; cbn [sf_signed] in Hs; try contradiction; subst s;
    cbn in H; try discriminate; try exact I.
  cbn beta iota. destruct (Z.compare_spec e e0) as [E | E | E]; try discriminate; lia.
Qed.

Lemma SFleb_between_small (x : spec_float) (m0 : positive) (e0 : Z) :
  valid_binary x = true ->
  SFleb (S754_finite true m0 e0) x = true ->
  SFleb x (S754_finite false m0 e0) = true ->
  sf_small (53 + e0) x.
Proof.
  intros Hv Hl Hu. apply valid_small; [ exact Hv | ].
  destruct x as [ s | s | | s m e ]; try exact I.
  - destruct s; cbn in Hl, Hu; discriminate.
  - cbn in Hl. discriminate.
  - cbn beta iota. destruct s.
    + cbn in Hl. destruct (Z.compare_spec e0 e) as [E | E | E]; try discriminate; lia.
    + cbn in Hu. destruct (Z.compare_spec e e0) as [E | E | E]; try discriminate; lia.
Qed.

Lemma SFunit_interval_small (x : spec_float) (m0 : positive) (e0 : Z) :
  valid_binary x = true ->
  SFleb (S754_zero false) x = true ->
  SFltb x (S754_finite false m0 e0) = true ->
  sf_small (53 + e0) x.
Proof.
  intros Hv Hl Hu. apply valid_small; [ exact Hv | ].
  destruct x as [ s | s | | s m e ]; try exact I.
  - destruct s; cbn in Hl, Hu; discriminate.
  - cbn in Hl. discriminate.
  - cbn beta iota. destruct s; [ cbn in Hl; discriminate | ].
    cbn in Hu. destruct (Z.compare_spec e e0) as [E | E | E]; try discriminate; lia.
Qed.

(** The operations of the format. *)

Lemma SFeqb_refl (x : spec_float) : x <> S754_nan -> SFeqb x x = true.
Proof.
  intros H. destruct x as [ s | s | | s m e ]; [ reflexivity | destruct s; reflexivity | congruence | ].
  unfold SFeqb, SFcompare. destruct s; rewrite Z.compare_refl, Pos.compare_cont_refl; reflexivity.
Qed.

Lemma is_nan_false (x : float) : is_nan x = false <-> Prim2SF x <> S754_nan.
Proof.
  unfold is_nan. rewrite FloatAxioms.eqb_spec. split.
  - intros H E. rewrite E in H. discriminate.
  - intros H. rewrite (SFeqb_refl _ H). reflexivity.
Qed.

Lemma is_finite_true (x : float) : is_finite x = true <-> sf_finite (Prim2SF x).
Proof.
  unfold is_finite, is_nan, is_infinity.
  rewrite !FloatAxioms.eqb_spec, FloatAxioms.abs_spec.
  change (Prim2SF PrimFloat.infinity) with (S754_infinity false).
  destruct (Prim2SF x) as [ s | s | | s m e ] eqn:E; cbn [sf_finite SFabs].
  - split; [ trivial | reflexivity ].
  - split; [ | contradiction ]. destruct s; discriminate.
  - split; [ discriminate | contradiction ].
  - split; [ trivial | intros _ ].
    rewrite (SFeqb_refl (S754_finite s m e)) by discriminate. reflexivity.
Qed.

Lemma number_not_nan (x : float) : is_finite x = true -> is_nan x = false.
Proof.
  intros H. apply is_finite_true in H. apply is_nan_false.
  destruct (Prim2SF x); cbn in H; try contradiction; discriminate.
Qed.

Lemma small_number (K : Z) (x : float) : small K x -> is_finite x = true.
Proof. intros H. apply is_finite_true. exact (sf_small_finite K _ H). Qed.

Lemma small_mono (K K' : Z) (x : float) : K <= K' -> small K x -> small K' x.
Proof. apply sf_small_mono. Qed.

Lemma small_add (K : Z) (x y : float) :
  small K x -> small K y -> -1075 <= K -> K <= 969 -> small (K + 2) (x + y)%float.
Proof.
  unfold small. intros Hx Hy HK HK'. rewrite FloatAxioms.add_spec. apply SFadd_small; assumption.
Qed.

Lemma small_sub (K : Z) (x y : float) :
  small K x -> small K y -> -1075 <= K -> K <= 969 -> small (K + 2) (x - y)%float.
Proof.
  unfold small. intros Hx Hy HK HK'. rewrite FloatAxioms.sub_spec. apply SFsub_small; assumption.
Qed.

Lemma small_mul (Kx Ky : Z) (x y : float) :
  small Kx x -> small Ky y -> -1074 <= Kx + Ky -> Kx + Ky <= 970 ->
  small (Kx + Ky + 1) (x * y)%float.
Proof.
  unfold small. intros Hx Hy HK HK'. rewrite FloatAxioms.mul_spec. apply SFmul_small; assumption.
Qed.

Lemma small_div (K : Z) (x y : float) (sy : bool) (my : positive) (ey : Z) :
  Prim2SF y = S754_finite sy my ey ->
  small K x -> -1074 <= K - ey -> K - ey <= 970 -> small (K - ey + 1) (x / y)%float.
Proof.
  unfold small. intros Ey Hx HK HK'. rewrite FloatAxioms.div_spec, Ey. apply SFdiv_small; assumption.
Qed.

Lemma small_of_abs (v b : float) (m0 : positive) (e0 : Z) :
  Prim2SF b = S754_finite false m0 e0 ->
  (PrimFloat.abs v <=? b)%float = true -> small (53 + e0) v.
Proof.
  intros Eb H. rewrite FloatAxioms.leb_spec, FloatAxioms.abs_spec, Eb in H.
  exact (SFleb_abs_small _ m0 e0 (Prim2SF_valid v) H).
Qed.

Lemma not_nan_sub (x y : float) :
  is_finite x = true -> is_finite y = true -> is_nan (x - y)%float = false.
Proof.
  intros Hx Hy. apply is_nan_false. rewrite FloatAxioms.sub_spec.
  apply SFsub_not_nan; apply is_finite_true; assumption.
Qed.

Lemma not_nan_add (x y : float) :
  is_finite x = true -> is_finite y = true -> is_nan (x + y)%float = false.
Proof.
  intros Hx Hy. apply is_nan_false. rewrite FloatAxioms.add_spec.
  apply SFadd_not_nan; apply is_finite_true; assumption.
Qed.

Lemma sub_diag (x : float) : is_finite x = true -> (x - x)%float = 0%float.
Proof.
  intros H. apply Prim2SF_inj. rewrite FloatAxioms.sub_spec.
  exact (SFsub_diag _ (proj1 (is_finite_true x) H)).
Qed.

(** The distance of line 38: never [NaN], never negative. *)
Lemma distance_signed (mx my : float) (p : Particle.t) :
  is_finite (Particle.x p) = true -> is_finite (Particle.y p) = true ->
  is_finite mx = true -> is_finite my = true ->
  sf_signed false (Prim2SF (Particle.distance mx my p)).
Proof.
  intros Hx Hy Hmx Hmy. unfold Particle.distance, Math_sqrt. cbv zeta.
  rewrite FloatAxioms.sqrt_spec, FloatAxioms.add_spec, !FloatAxioms.mul_spec.
  apply SFsqrt_signed_false, SFadd_signed_false; apply SFmul_square;
    apply is_nan_false, not_nan_sub; assumption.
Qed.

Lemma distance_within_reach (mx my : float) (p : Particle.t) :
  is_finite (Particle.x p) = true -> is_finite (Particle.y p) = true ->
  is_finite mx = true -> is_finite my = true ->
  (Particle.distance mx my p <? config.mouseRadius)%float = true ->
  small 8 (Particle.distance mx my p).
Proof.
  intros Hx Hy Hmx Hmy H. rewrite FloatAxioms.ltb_spec in H.
  change (Prim2SF config.mouseRadius) with (S754_finite false 7036874417766400 (-45)) in H.
  exact (SFltb_small _ _ (-45) (Prim2SF_valid _) (distance_signed mx my p Hx Hy Hmx Hmy) H).
Qed.

Lemma force_small (d : float) : small 8 d -> small 56 (Particle.force d).
Proof.
  intros H. unfold Particle.force.
  apply (small_div 10 _ config.mouseRadius false 7036874417766400 (-45)); [ reflexivity | | lia | lia ].
  apply (small_sub 8); [ | exact H | lia | lia ].
  unfold small. vm_compute. reflexivity.
Qed.

Lemma unit_range_small (c : float) :
  (-1 <=? c)%float = true -> (c <=? 1)%float = true -> small 1 c.
Proof.
  intros Hl Hu. rewrite FloatAxioms.leb_spec in Hl, Hu.
  change (Prim2SF (-1)%float) with (S754_finite true 4503599627370496 (-52)) in Hl.
  change (Prim2SF 1%float) with (S754_finite false 4503599627370496 (-52)) in Hu.
  exact (SFleb_between_small _ _ (-52) (Prim2SF_valid c) Hl Hu).
Qed.

Lemma random_small (r : float) :
  (0 <=? r)%float = true -> (r <? 1)%float = true -> small 1 r.
Proof.
  intros Hl Hu. rewrite FloatAxioms.leb_spec in Hl. rewrite FloatAxioms.ltb_spec in Hu.
  change (Prim2SF 0%float) with (S754_zero false) in Hl.
  change (Prim2SF 1%float) with (S754_finite false 4503599627370496 (-52)) in Hu.
  exact (SFunit_interval_small _ _ (-52) (Prim2SF_valid r) Hl Hu).
Qed.

(** The push of lines 43-44. *)
Lemma push_small (c d : float) :
  small 1 c -> small 8 d -> small 55 (c * Particle.force d * config.mouseForce)%float.
Proof.
  intros Hc Hd.
  apply (small_mul 58 (-4)); [ | unfold small; vm_compute; reflexivity | lia | lia ].
  apply (small_mul 1 56); [ exact Hc | apply force_small, Hd | lia | lia ].
Qed.

Section Interaction.
Variable M : MathObject.
Hypothesis HM : conforms M.
Variable mouse : Mouse.t.
Hypothesis Hmouse : finite_pointer mouse.
Variable p : Particle.t.
Hypothesis Hx : is_finite (Particle.x p) = true.
Hypothesis Hy : is_finite (Particle.y p) = true.

Lemma mouse_interaction_position :
  Particle.x (Particle.mouse_interaction M mouse p) = Particle.x p
  /\ Particle.y (Particle.mouse_interaction M mouse p) = Particle.y p.
Proof.
  unfold Particle.mouse_interaction.
  destruct (Mouse.x mouse) as [mx | ]; [ | split; reflexivity ].
  destruct (Mouse.y mouse) as [my | ]; [ | split; reflexivity ].
  cbv zeta. destruct (_ <? _)%float; split; reflexivity.
Qed.

Lemma mouse_interaction_small (K : Z) :
  55 <= K -> K <= 969 ->
  small K (Particle.vx p) -> small K (Particle.vy p) ->
  small (K + 2) (Particle.vx (Particle.mouse_interaction M mouse p))
  /\ small (K + 2) (Particle.vy (Particle.mouse_interaction M mouse p)).
Proof.
  intros HK HK' Hvx Hvy.
  assert (Hkeep : small (K + 2) (Particle.vx p) /\ small (K + 2) (Particle.vy p)).
  { split; apply (small_mono K); (lia || assumption). }
  unfold Particle.mouse_interaction. unfold finite_pointer in Hmouse.
  destruct (Mouse.x mouse) as [mx | ]; [ | exact Hkeep ].
  destruct (Mouse.y mouse) as [my | ]; [ | exact Hkeep ].
  destruct Hmouse as [Hmx Hmy]. cbv zeta.
  destruct (Particle.distance mx my p <? config.mouseRadius)%float eqn:Hd; [ | exact Hkeep ].
  pose proof (distance_within_reach mx my p Hx Hy Hmx Hmy Hd) as Hsmall.
  assert (Hangle : is_finite (Math_atan2 M (Particle.y p - my) (Particle.x p - mx)) = true).
  { apply (atan2_of_numbers M HM); apply not_nan_sub; assumption. }
  cbn [Particle.vx Particle.vy]. split.
  - apply small_add; [ exact Hvx | | lia | lia ].
    apply (small_mono 55); [ lia | ]. apply push_small; [ | exact Hsmall ].
    destruct (cos_range M HM _ Hangle) as [Hl Hu]. apply unit_range_small; assumption.
  - apply small_add; [ exact Hvy | | lia | lia ].
    apply (small_mono 55); [ lia | ]. apply push_small; [ | exact Hsmall ].
    destruct (sin_range M HM _ Hangle) as [Hl Hu]. apply unit_range_small; assumption.
Qed.

Lemma mouse_interaction_on_pointer :
  Mouse.x mouse = Some (Particle.x p) -> Mouse.y mouse = Some (Particle.y p) ->
  Particle.distance (Particle.x p) (Particle.y p) p = 0%float
  /\ Particle.mouse_interaction M mouse p
     = Particle.mk (Particle.x p) (Particle.y p)
         (Particle.vx p + Math_cos M (Math_atan2 M 0 0) * Particle.force 0 * config.mouseForce)%float
         (Particle.vy p + Math_sin M (Math_atan2 M 0 0) * Particle.force 0 * config.mouseForce)%float
         (Particle.size p).
Proof.
  intros Ex Ey.
  assert (Hd : Particle.distance (Particle.x p) (Particle.y p) p = 0%float).
  { unfold Particle.distance. cbv zeta. rewrite !sub_diag by assumption. reflexivity. }
  split; [ exact Hd | ].
  unfold Particle.mouse_interaction. rewrite Ex, Ey. cbv zeta.
  rewrite Hd, !sub_diag by assumption.
  reflexivity.
Qed.

End Interaction.

Lemma nudge_small (K : Z) (v : float) (g : Rng) :
  uniform g -> 1 <= K -> K <= 969 -> small K v ->
  small (K + 2) (fst (Particle.nudge v g)).
Proof.
  intros Hg HK HK' Hv. unfold Particle.nudge.
  destruct (Math_abs v <? 0.1)%float; cbn [Math_random fst].
  - apply small_add; [ exact Hv | | lia | lia ].
    apply (small_mono 1); [ lia | ].
    apply (small_mul 3 (-3)); [ | unfold small; vm_compute; reflexivity | lia | lia ].
    apply (small_sub 1); [ | unfold small; vm_compute; reflexivity | lia | lia ].
    destruct (Hg (calls g)) as [Hl Hu]. apply random_small; assumption.
  - apply (small_mono K); [ lia | exact Hv ].
Qed.

Lemma nudge_uniform (v : float) (g : Rng) :
  uniform g -> uniform (snd (Particle.nudge v g)).
Proof.
  intros Hg. unfold Particle.nudge.
  destruct (Math_abs v <? 0.1)%float; cbn [Math_random snd]; [ | exact Hg ].
  intros n. exact (Hg n).
Qed.

Lemma keep_moving_fields (p : Particle.t) (g : Rng) :
  Particle.x (fst (Particle.keep_moving p g)) = Particle.x p
  /\ Particle.y (fst (Particle.keep_moving p g)) = Particle.y p
  /\ Particle.vx (fst (Particle.keep_moving p g)) = fst (Particle.nudge (Particle.vx p) g)
  /\ Particle.vy (fst (Particle.keep_moving p g))
     = fst (Particle.nudge (Particle.vy p) (snd (Particle.nudge (Particle.vx p) g))).
Proof.
  unfold Particle.keep_moving.
  destruct (Particle.nudge (Particle.vx p) g) as [vx' g1]. cbn [fst snd].
  destruct (Particle.nudge (Particle.vy p) g1) as [vy' g2]. cbn [fst snd Particle.x Particle.y Particle.vx Particle.vy].
  repeat split.
Qed.

(** Comparisons with the infinities. *)
Lemma ltb_infinity (w : float) :
  is_finite w = true ->
  forall x : float, Prim2SF x = S754_infinity false -> (w <? x)%float = true.
Proof.
  intros Hw x Ex. rewrite FloatAxioms.ltb_spec, Ex. apply is_finite_true in Hw.
  destruct (Prim2SF w) as [ s | s | | s m e ]; cbn in Hw; try contradiction; reflexivity.
Qed.

Lemma ltb_neg_infinity (x : float) :
  Prim2SF x = S754_infinity true -> (x <? 0)%float = true.
Proof.
  intros Ex. rewrite FloatAxioms.ltb_spec, Ex. reflexivity.
Qed.

Lemma neg_infinity_ltb (x : float) :
  Prim2SF x = S754_infinity true -> (0 <? x)%float = false.
Proof.
  intros Ex. rewrite FloatAxioms.ltb_spec, Ex. reflexivity.
Qed.

Lemma not_nan_cases (x : float) :
  is_nan x = false ->
  is_finite x = true \/ Prim2SF x = S754_infinity false \/ Prim2SF x = S754_infinity true.
Proof.
  intros H. apply is_nan_false in H.
  destruct (Prim2SF x) as [ s | s | | s m e ] eqn:E.
  - left. apply is_finite_true. rewrite E. exact I.
  - right. destruct s; [ right | left ]; reflexivity.
  - congruence.
  - left. apply is_finite_true. rewrite E. exact I.
Qed.

(** [Math.max(0, Math.min(bound, x))] is a number as soon as the bound
    is one and [x] is not [NaN]. *)
Lemma clamp_number (w x : float) :
  is_finite w = true -> is_nan x = false ->
  is_finite (Math_max 0 (Math_min w x)) = true.
Proof.
  intros Hw Hx.
  assert (Hmin : is_finite (Math_min w x) = true
                 \/ Prim2SF (Math_min w x) = S754_infinity true).
  { unfold Math_min. rewrite (number_not_nan w Hw), Hx. cbn [orb].
    destruct (not_nan_cases x Hx) as [Hf | [Hp | Hn]].
    - left. destruct (w <? x)%float; [ exact Hw | ].
      destruct (x <? w)%float; [ exact Hf | ]. destruct (get_sign w); assumption.
    - left. rewrite (ltb_infinity w Hw x Hp). exact Hw.
    - destruct (w <? x)%float; [ left; exact Hw | ].
      destruct (x <? w)%float; [ right; exact Hn | ].
      destruct (get_sign w); [ left; exact Hw | right; exact Hn ]. }
  unfold Math_max. change (is_nan 0%float) with false. cbn [orb].
  destruct Hmin as [Hf | Hn].
  - rewrite (number_not_nan _ Hf).
    destruct (0 <? Math_min w x)%float; [ exact Hf | ].
    destruct (Math_min w x <? 0)%float; [ reflexivity | ].
    change (get_sign 0%float) with false. reflexivity.
  - assert (Hnn : is_nan (Math_min w x) = false).
    { apply is_nan_false. rewrite Hn. discriminate. }
    rewrite Hnn, (neg_infinity_ltb _ Hn), (ltb_neg_infinity _ Hn). reflexivity.
Qed.

Lemma inside_number (w x : float) :
  is_finite w = true -> is_nan x = false ->
  (x <? 0)%float || (w <? x)%float = false -> is_finite x = true.
Proof.
  intros Hw Hx H. apply orb_false_elim in H. destruct H as [H0 H1].
  destruct (not_nan_cases x Hx) as [Hf | [Hp | Hn]]; [ exact Hf | | ].
  - rewrite (ltb_infinity w Hw x Hp) in H1. discriminate.
  - rewrite (ltb_neg_infinity x Hn) in H0. discriminate.
Qed.

Lemma small_reversed (K : Z) (v : float) :
  -1075 <= K -> K <= 969 -> small K v -> small (K + 2) (v * -1)%float.
Proof.
  intros HK HK' Hv. replace (K + 2) with (K + 1 + 1) by lia.
  apply small_mul; [ exact Hv | unfold small; vm_compute; reflexivity | lia | lia ].
Qed.

Lemma boundary_collision_number (canvas : Canvas) (p : Particle.t) (K : Z) :
  is_finite (width canvas) = true -> is_finite (height canvas) = true ->
  is_nan (Particle.x p) = false -> is_nan (Particle.y p) = false ->
  -1075 <= K -> K <= 969 ->
  small K (Particle.vx p) -> small K (Particle.vy p) ->
  let p' := Particle.boundary_collision canvas p in
  is_finite (Particle.x p') = true /\ is_finite (Particle.y p') = true
  /\ small (K + 2) (Particle.vx p') /\ small (K + 2) (Particle.vy p').
Proof.
  intros Hw Hh Hx Hy HK HK' Hvx Hvy. cbv zeta. unfold Particle.boundary_collision. cbv zeta.
  set (p1 := if (Particle.x p <? 0)%float || (width canvas <? Particle.x p)%float
             then _ else p).
  assert (H1 : is_finite (Particle.x p1) = true /\ Particle.y p1 = Particle.y p
               /\ small (K + 2) (Particle.vx p1) /\ Particle.vy p1 = Particle.vy p).
  { unfold p1. destruct ((Particle.x p <? 0)%float || (width canvas <? Particle.x p)%float) eqn:Ec;
      cbn [Particle.x Particle.y Particle.vx Particle.vy].
    - split; [ apply clamp_number; assumption | ]. split; [ reflexivity | ].
      split; [ apply small_reversed; assumption | reflexivity ].
    - split; [ apply (inside_number (width canvas)); assumption | ]. split; [ reflexivity | ].
      split; [ apply (small_mono K); (lia || assumption) | reflexivity ]. }
  destruct H1 as [H1x [H1y [H1vx H1vy]]].
  destruct ((Particle.y p1 <? 0)%float || (height canvas <? Particle.y p1)%float) eqn:Ec;
    cbn [Particle.x Particle.y Particle.vx Particle.vy].
  - split; [ exact H1x | ]. split; [ apply clamp_number; [ exact Hh | rewrite H1y; exact Hy ] | ].
    split; [ exact H1vx | ]. rewrite H1vy. apply small_reversed; assumption.
  - split; [ exact H1x | ]. split; [ apply (inside_number (height canvas)); [ exact Hh | rewrite H1y; exact Hy | exact Ec ] | ].
    split; [ exact H1vx | ]. rewrite H1vy. apply (small_mono K); (lia || assumption).
Qed.

Lemma speed_limit_small (v : float) :
  (PrimFloat.abs v <=? speed_limit)%float = true -> small 513 v.
Proof.
  intros H. exact (small_of_abs v speed_limit 4503599627370496 460 eq_refl H).
Qed.

Lemma update_number (M : MathObject) (canvas : Canvas) (mouse : Mouse.t)
    (p : Particle.t) (g : Rng) :
  conforms M -> uniform g ->
  is_finite (width canvas) = true -> is_finite (height canvas) = true ->
  finite_pointer mouse ->
  is_finite (Particle.x p) = true -> is_finite (Particle.y p) = true ->
  (PrimFloat.abs (Particle.vx p) <=? speed_limit)%float = true ->
  (PrimFloat.abs (Particle.vy p) <=? speed_limit)%float = true ->
  let p' := fst (Particle.update M canvas mouse p g) in
  is_finite (Particle.x p') = true /\ is_finite (Particle.y p') = true
  /\ is_finite (Particle.vx p') = true /\ is_finite (Particle.vy p') = true.
Proof.
  intros HM Hg Hw Hh Hmouse Hx Hy Hvx Hvy. cbv zeta.
  apply speed_limit_small in Hvx. apply speed_limit_small in Hvy.
  destruct (mouse_interaction_small M HM mouse Hmouse p Hx Hy 513 ltac:(lia) ltac:(lia) Hvx Hvy)
    as [Hix Hiy].
  destruct (mouse_interaction_position M mouse p) as [Epx Epy].
  unfold Particle.update.
  set (q := Particle.mouse_interaction M mouse p) in *.
  destruct (keep_moving_fields (Particle.damping (Particle.move q)) g) as [Ex [Ey [Evx Evy]]].
  destruct (Particle.keep_moving (Particle.damping (Particle.move q)) g) as [k g'].
  cbn [fst] in *.
  cbn [Particle.damping Particle.move Particle.x Particle.y Particle.vx Particle.vy] in Ex, Ey, Evx, Evy.
  assert (Hkx : is_nan (Particle.x k) = false).
  { rewrite Ex, Epx. apply not_nan_add; [ exact Hx | exact (small_number _ _ Hix) ]. }
  assert (Hky : is_nan (Particle.y k) = false).
  { rewrite Ey, Epy. apply not_nan_add; [ exact Hy | exact (small_number _ _ Hiy) ]. }
  assert (Hdx : small 516 (Particle.vx q * 0.99)%float).
  { apply (small_mul 515 0); [ exact Hix | unfold small; vm_compute; reflexivity | lia | lia ]. }
  assert (Hdy : small 516 (Particle.vy q * 0.99)%float).
  { apply (small_mul 515 0); [ exact Hiy | unfold small; vm_compute; reflexivity | lia | lia ]. }
  assert (Hkvx : small 518 (Particle.vx k)).
  { rewrite Evx. apply (nudge_small 516); [ exact Hg | lia | lia | exact Hdx ]. }
  assert (Hkvy : small 518 (Particle.vy k)).
  { rewrite Evy. apply (nudge_small 516); [ apply nudge_uniform, Hg | lia | lia | exact Hdy ]. }
  destruct (boundary_collision_number canvas k 518 Hw Hh Hkx Hky ltac:(lia) ltac:(lia) Hkvx Hkvy)
    as [Hfx [Hfy [Hfvx Hfvy]]].
  split; [ exact Hfx | ]. split; [ exact Hfy | ].
  split; [ exact (small_number _ _ Hfvx) | exact (small_number _ _ Hfvy) ].
Qed.

End Doubles.

(** ** The particle under the pointer *)

Lemma force_at_zero : Binary64.Particle.force 0 = 1%float.
Proof. reflexivity. Qed.

Lemma push_at_zero :
  (1 * Binary64.Particle.force 0 * Binary64.config.mouseForce
   = Binary64.config.mouseForce)%float
  /\ (0 * Binary64.Particle.force 0 * Binary64.config.mouseForce = 0)%float.
Proof. split; reflexivity. Qed.


Lemma eastward_conforms : Binary64.conforms Binary64.eastward.
Proof. constructor; intros; try split; reflexivity. Defined.

Lemma three_quarters_uniform : Binary64.uniform Binary64.draws_of_three_quarters.
Proof. intros n. split; reflexivity. Defined.



(** * Further properties of the code *)

(** ** Creation of a particle *)

(** [new Particle(canvas)] (lines 18-31) draws six values; the third and
    fourth give the velocity, within half of [speed] of zero on each
    axis, and the fifth and sixth the position, which replaces the one
    [reset] drew from the first two: the particle is inside the canvas,
    strictly below a positive width and height, with the configured
    size. *)
Theorem constructor_places_particle (canvas : Canvas) (g : Rng) :
  uniform g ->
  let p := fst (Particle.constructor canvas g) in
  let g' := snd (Particle.constructor canvas g) in
  Particle.x p = entropy g (4 + calls g) * num (width canvas) /\
  Particle.y p = entropy g (5 + calls g) * num (height canvas) /\
  Particle.vx p = (entropy g (2 + calls g) - 0.5) * config.speed /\
  Particle.vy p = (entropy g (3 + calls g) - 0.5) * config.speed /\
  inside canvas p /\
  ((0 < width canvas)%N -> Particle.x p < num (width canvas)) /\
  ((0 < height canvas)%N -> Particle.y p < num (height canvas)) /\
  - (config.speed / 2) <= Particle.vx p < config.speed / 2 /\
  - (config.speed / 2) <= Particle.vy p < config.speed / 2 /\
  Particle.size p = config.particleSize /\
  entropy g' = entropy g /\ calls g' = (6 + calls g)%nat.
Proof.
  intros Hg. cbn zeta.
  pose proof (num_nonneg (width canvas)) as Hw.
  pose proof (num_nonneg (height canvas)) as Hh.
  pose proof (Hg (2 + calls g)%nat) as H2.
  pose proof (Hg (3 + calls g)%nat) as H3.
  pose proof (Hg (4 + calls g)%nat) as H4.
  pose proof (Hg (5 + calls g)%nat) as H5.
  unfold Particle.constructor, Particle.reset, rbind, Math_random, rret.
  cbn [fst snd entropy calls Particle.x Particle.y Particle.vx Particle.vy
       Particle.size Nat.add].
  cbn [Nat.add] in H2, H3, H4, H5.
  unfold inside, config.speed.
  cbn [Particle.x Particle.y].
  repeat split; try reflexivity; try nra.
  - intros Hpos. apply num_pos in Hpos. nra.
  - intros Hpos. apply num_pos in Hpos. nra.
Qed.

Lemma constructor_places_particle_witness :
  inside canvas_100 (fst (Particle.constructor canvas_100 three_quarters)) /\
  Particle.x (fst (Particle.constructor canvas_100 three_quarters)) = 75.
Proof.
  assert (Hg : uniform three_quarters) by (intros n; simpl; lra).
  destruct (constructor_places_particle canvas_100 three_quarters Hg)
    as (Hx & _ & _ & _ & Hin & _).
  split; [exact Hin | ].
  rewrite Hx. unfold num. simpl. lra.
Defined.

(** ** More on one update step *)

(** The pointer changes each velocity component by at most
    [mouseForce]. *)
Lemma mouse_push_bound (mouse : Mouse.t) (p : Particle.t) :
  let p' := Particle.mouse_interaction mouse p in
  Rabs (Particle.vx p' - Particle.vx p) <= config.mouseForce /\
  Rabs (Particle.vy p' - Particle.vy p) <= config.mouseForce /\
  Particle.x p' = Particle.x p /\ Particle.y p' = Particle.y p /\
  Particle.size p' = Particle.size p.
Proof.
  cbn zeta.
  assert (Hzero : Rabs (Particle.vx p - Particle.vx p) <= config.mouseForce /\
                  Rabs (Particle.vy p - Particle.vy p) <= config.mouseForce /\
                  Particle.x p = Particle.x p /\ Particle.y p = Particle.y p /\
                  Particle.size p = Particle.size p).
  { replace (Particle.vx p - Particle.vx p) with 0 by ring.
    replace (Particle.vy p - Particle.vy p) with 0 by ring.
    rewrite Rabs_R0. unfold config.mouseForce. repeat split; lra. }
  unfold Particle.mouse_interaction.
  destruct (Mouse.x mouse) as [mx | ]; [ | exact Hzero].
  destruct (Mouse.y mouse) as [my | ]; [ | exact Hzero].
  fold (distance_to mx my p).
  destruct (Rlt_dec (distance_to mx my p) config.mouseRadius) as [Hd | Hd];
    [ | exact Hzero].
  cbn [Particle.x Particle.y Particle.vx Particle.vy Particle.size].
  set (a := Math_atan2 _ _).
  assert (Hf : 0 < Particle.force (distance_to mx my p) <= 1).
  { split; [apply force_positive, Hd | ].
    pose proof (sqrt_pos ((Particle.x p - mx) * (Particle.x p - mx) +
                          (Particle.y p - my) * (Particle.y p - my))) as H0.
    fold (distance_to mx my p) in H0.
    unfold Particle.force, config.mouseRadius. lra. }
  set (f := Particle.force (distance_to mx my p)) in *.
  pose proof (COS_bound a) as Hc. pose proof (SIN_bound a) as Hs.
  unfold config.mouseForce.
  repeat split; try reflexivity; apply Rabs_le; nra.
Qed.

(** The random source after [update]: the same sequence, advanced by
    one value for each velocity component that the floor perturbs. *)
Theorem update_draws
    (canvas : Canvas) (mouse : Mouse.t) (p : Particle.t) (g : Rng) :
  let q := damped mouse p in
  let g' := snd (Particle.update canvas mouse p g) in
  entropy g' = entropy g /\
  calls g' = (calls g + draws_for (Particle.vx q) +
              draws_for (Particle.vy q))%nat.
Proof.
  cbn zeta. rewrite update_unfold. cbn [snd]. unfold draws_for.
  set (q := damped mouse p).
  destruct (Rlt_dec (Rabs (Particle.vx q)) 0.1) as [Hx | Hx].
  - rewrite (nudge_slow _ g Hx). cbn [snd].
    destruct (Rlt_dec (Rabs (Particle.vy q)) 0.1) as [Hy | Hy].
    + rewrite (nudge_slow _ _ Hy). cbn [snd entropy calls]. split; [easy | lia].
    + apply Rnot_lt_le in Hy. rewrite (nudge_fast _ _ Hy).
      cbn [snd entropy calls]. split; [easy | lia].
  - apply Rnot_lt_le in Hx. rewrite (nudge_fast _ g Hx). cbn [snd].
    destruct (Rlt_dec (Rabs (Particle.vy q)) 0.1) as [Hy | Hy].
    + rewrite (nudge_slow _ _ Hy). cbn [snd entropy calls]. split; [easy | lia].
    + apply Rnot_lt_le in Hy. rewrite (nudge_fast _ _ Hy).
      cbn [snd]. split; [easy | lia].
Qed.

(** [update] never changes the size of a particle. *)
Lemma update_keeps_size
    (canvas : Canvas) (mouse : Mouse.t) (p : Particle.t) (g : Rng) :
  Particle.size (fst (Particle.update canvas mouse p g)) = Particle.size p.
Proof.
  rewrite update_unfold. cbn [fst].
  unfold Particle.boundary_collision.
  destruct (either _ _); cbn [Particle.x Particle.y Particle.size];
    destruct (either _ _); cbn [Particle.size]; unfold damped;
    cbn [Particle.damping Particle.move Particle.size];
    apply mouse_push_bound.
Qed.

(** One component through damping and the floor: a speed within the cap
    before the push of the pointer is within the cap after the floor. *)
Lemma floor_within_cap (v v0 : R) (g : Rng) :
  uniform g ->
  Rabs v <= speed_cap ->
  Rabs (v0 - v) <= config.mouseForce ->
  Rabs (fst (Particle.nudge (v0 * 0.99) g)) <= speed_cap.
Proof.
  unfold speed_cap, config.mouseForce. intros Hg Hv Hpush.
  assert (Hd : Rabs (v0 * 0.99) <= 4.95).
  { apply Rabs_le. unfold Rabs in Hv, Hpush.
    destruct (Rcase_abs v); destruct (Rcase_abs (v0 - v)); lra. }
  destruct (nudge_cases (v0 * 0.99) g Hg) as [_ [[Hs [r [Hr E]]] | [_ E]]];
    rewrite E; [ | exact Hd].
  apply Rabs_small in Hs. apply Rabs_le. lra.
Qed.

(** Terminal speed: whatever the pointer does and whatever is drawn, a
    velocity component within [speed_cap] of zero before [update] is
    within it after. *)
Theorem update_speed_cap
    (canvas : Canvas) (mouse : Mouse.t) (p : Particle.t) (g : Rng) :
  uniform g ->
  let p' := fst (Particle.update canvas mouse p g) in
  (Rabs (Particle.vx p) <= speed_cap -> Rabs (Particle.vx p') <= speed_cap) /\
  (Rabs (Particle.vy p) <= speed_cap -> Rabs (Particle.vy p') <= speed_cap).
Proof.
  intros Hg. cbn zeta. rewrite update_unfold. cbn [fst].
  match goal with
  | |- context [Particle.boundary_collision canvas ?q] =>
      destruct (collision_speed canvas q) as [Hx Hy]
  end.
  cbn [Particle.vx Particle.vy] in Hx, Hy. rewrite Hx, Hy.
  destruct (mouse_push_bound mouse p) as (Px & Py & _).
  unfold damped. cbn [Particle.damping Particle.move Particle.vx Particle.vy].
  split; intros Hv.
  - apply (floor_within_cap (Particle.vx p)); assumption.
  - apply (floor_within_cap (Particle.vy p)); [ | assumption | assumption].
    apply nudge_cases, Hg.
Qed.

Lemma update_speed_cap_witness :
  Rabs (Particle.vx (fst (Particle.update canvas_100 pointer_at_origin
                            near_particle three_quarters))) <= speed_cap.
Proof.
  assert (Hg : uniform three_quarters) by (intros n; simpl; lra).
  apply (update_speed_cap canvas_100 pointer_at_origin near_particle
           three_quarters Hg).
  simpl. rewrite Rabs_R0. unfold speed_cap. lra.
Defined.

(** The clamp of lines 63 and 67 moves a value no farther than the
    step that took it from inside the interval. *)
Lemma clamp_step (bound x v : R) :
  0 <= x <= bound ->
  Rabs ((if either (Rlt_dec (x + v) 0) (Rgt_dec (x + v) bound)
         then Rmax 0 (Rmin bound (x + v)) else x + v) - x) <= Rabs v.
Proof.
  intros Hx. unfold either, Rmax, Rmin.
  destruct (Rlt_dec (x + v) 0); [ | destruct (Rgt_dec (x + v) bound)];
    try (destruct (Rle_dec bound (x + v));
         match goal with
         | |- context [Rle_dec 0 ?b] => destruct (Rle_dec 0 b)
         end);
    unfold Rabs;
    repeat match goal with
           | |- context [Rcase_abs ?a] => destruct (Rcase_abs a)
           end; lra.
Qed.

(** No jump: a particle inside the canvas moves, on each axis, by at
    most its speed plus [mouseForce] in one [update]. *)
Theorem update_displacement
    (canvas : Canvas) (mouse : Mouse.t) (p : Particle.t) (g : Rng) :
  inside canvas p ->
  let p' := fst (Particle.update canvas mouse p g) in
  Rabs (Particle.x p' - Particle.x p) <= Rabs (Particle.vx p) + config.mouseForce /\
  Rabs (Particle.y p' - Particle.y p) <= Rabs (Particle.vy p) + config.mouseForce.
Proof.
  intros [Hx Hy]. cbn zeta. rewrite update_unfold. cbn [fst].
  rewrite collision_x, collision_y.
  cbn [Particle.x Particle.y]. unfold damped.
  cbn [Particle.damping Particle.move Particle.x Particle.y].
  destruct (mouse_push_bound mouse p) as (Px & Py & Ex & Ey & _).
  rewrite Ex, Ey.
  set (q := Particle.mouse_interaction mouse p) in *.
  assert (Htri : forall v0 v : R,
             Rabs (v0 - v) <= config.mouseForce ->
             Rabs v0 <= Rabs v + config.mouseForce).
  { intros v0 v H. replace v0 with (v + (v0 - v)) at 1 by ring.
    eapply Rle_trans; [apply Rabs_triang | lra]. }
  split.
  - eapply Rle_trans; [apply (clamp_step _ _ _ Hx) | apply Htri, Px].
  - eapply Rle_trans; [apply (clamp_step _ _ _ Hy) | apply Htri, Py].
Qed.

Lemma update_displacement_witness :
  Rabs (Particle.x (fst (Particle.update canvas_100 absent at_rest halves))
        - Particle.x at_rest)
  <= Rabs (Particle.vx at_rest) + config.mouseForce.
Proof.
  apply (update_displacement canvas_100 absent at_rest halves).
  unfold inside, num. simpl. lra.
Defined.

(** One axis of [update] after the floor, in terms of the state the
    floor acts on: when the component is not below the threshold, the
    particle passes if its new position is within the canvas, and
    otherwise lands on the wall it crossed with the component
    reversed. *)
Theorem update_reflects_at_walls
    (canvas : Canvas) (mouse : Mouse.t) (p : Particle.t) (g : Rng) :
  let q := damped mouse p in
  let p' := fst (Particle.update canvas mouse p g) in
  let w := num (width canvas) in
  let h := num (height canvas) in
  (0.1 <= Rabs (Particle.vx q) ->
   (Particle.x q < 0 -> Particle.x p' = 0 /\ Particle.vx p' = - Particle.vx q) /\
   (w < Particle.x q -> Particle.x p' = w /\ Particle.vx p' = - Particle.vx q) /\
   (0 <= Particle.x q <= w ->
    Particle.x p' = Particle.x q /\ Particle.vx p' = Particle.vx q))
  /\
  (0.1 <= Rabs (Particle.vy q) ->
   (Particle.y q < 0 -> Particle.y p' = 0 /\ Particle.vy p' = - Particle.vy q) /\
   (h < Particle.y q -> Particle.y p' = h /\ Particle.vy p' = - Particle.vy q) /\
   (0 <= Particle.y q <= h ->
    Particle.y p' = Particle.y q /\ Particle.vy p' = Particle.vy q)).
Proof.
  cbn zeta. rewrite update_unfold. cbn [fst].
  rewrite collision_x, collision_y, collision_vx, collision_vy.
  cbn [Particle.x Particle.y Particle.vx Particle.vy].
  set (q := damped mouse p).
  pose proof (num_nonneg (width canvas)) as Hw.
  pose proof (num_nonneg (height canvas)) as Hh.
  assert (Hclamp : forall bound v : R, 0 <= bound ->
             (v < 0 -> either (Rlt_dec v 0) (Rgt_dec v bound) = true /\
                       Rmax 0 (Rmin bound v) = 0) /\
             (bound < v -> either (Rlt_dec v 0) (Rgt_dec v bound) = true /\
                           Rmax 0 (Rmin bound v) = bound) /\
             (0 <= v <= bound ->
              either (Rlt_dec v 0) (Rgt_dec v bound) = false)).
  { intros bound v Hb. unfold either, Rmax, Rmin.
    destruct (Rlt_dec v 0); destruct (Rgt_dec v bound);
      destruct (Rle_dec bound v);
      match goal with
      | |- context [Rle_dec 0 ?b] => destruct (Rle_dec 0 b)
      end;
      repeat split; intros; try reflexivity; lra. }
  split; intros Hv.
  - rewrite (nudge_fast _ g Hv). cbn [fst snd].
    destruct (Hclamp (num (width canvas)) (Particle.x q) Hw)
      as (Hlow & Hhigh & Hmid).
    split; [ | split]; intros H.
    + destruct (Hlow H) as [E1 E2]. rewrite E1. split; [exact E2 | ring].
    + destruct (Hhigh H) as [E1 E2]. rewrite E1. split; [exact E2 | ring].
    + rewrite (Hmid H). split; reflexivity.
  - rewrite (nudge_fast _ _ Hv). cbn [fst snd].
    destruct (Hclamp (num (height canvas)) (Particle.y q) Hh)
      as (Hlow & Hhigh & Hmid).
    split; [ | split]; intros H.
    + destruct (Hlow H) as [E1 E2]. rewrite E1. split; [exact E2 | ring].
    + destruct (Hhigh H) as [E1 E2]. rewrite E1. split; [exact E2 | ring].
    + rewrite (Hmid H). split; reflexivity.
Qed.

(** Free flight: with the pointer absent, both components at or above
    the threshold after damping and the new position within the canvas,
    [update] is one Euler step followed by the damping, and draws no
    value. *)
Theorem update_free_flight (canvas : Canvas) (p : Particle.t) (g : Rng) :
  0.1 <= Rabs (Particle.vx p * 0.99) ->
  0.1 <= Rabs (Particle.vy p * 0.99) ->
  0 <= Particle.x p + Particle.vx p <= num (width canvas) ->
  0 <= Particle.y p + Particle.vy p <= num (height canvas) ->
  Particle.update canvas (Mouse.mk None None) p g =
  (Particle.mk (Particle.x p + Particle.vx p) (Particle.y p + Particle.vy p)
               (Particle.vx p * 0.99) (Particle.vy p * 0.99) (Particle.size p),
   g).
Proof.
  intros Hvx Hvy Hx Hy. rewrite update_unfold.
  unfold damped. rewrite mouse_interaction_absent.
  cbn [Particle.damping Particle.move Particle.x Particle.y Particle.vx
       Particle.vy Particle.size].
  rewrite (nudge_fast _ g Hvx). cbn [fst snd].
  rewrite (nudge_fast _ g Hvy). cbn [fst snd].
  unfold Particle.boundary_collision, either.
  cbn [Particle.x Particle.y].
  destruct (Rlt_dec (Particle.x p + Particle.vx p) 0); [lra | ].
  destruct (Rgt_dec (Particle.x p + Particle.vx p) (num (width canvas)));
    [lra | ].
  cbn [Particle.x Particle.y].
  destruct (Rlt_dec (Particle.y p + Particle.vy p) 0); [lra | ].
  destruct (Rgt_dec (Particle.y p + Particle.vy p) (num (height canvas)));
    [lra | ].
  reflexivity.
Qed.

Lemma Rabs_big (v b : R) : b <= v \/ v <= - b -> 0 <= b -> b <= Rabs v.
Proof.
  intros H Hb. unfold Rabs. destruct (Rcase_abs v); lra.
Qed.

Lemma update_reflects_at_walls_witness :
  let p' := fst (Particle.update canvas_100 absent toward_left_wall halves) in
  Particle.x p' = 0 /\
  Particle.vx p' = - Particle.vx (damped absent toward_left_wall).
Proof.
  destruct (update_reflects_at_walls canvas_100 absent toward_left_wall halves)
    as [Hx _].
  apply Hx.
  - simpl. apply Rabs_big; lra.
  - simpl. lra.
Defined.

Lemma update_free_flight_witness :
  Particle.update canvas_100 (Mouse.mk None None) cruising halves =
  (Particle.mk (10 + 2) (10 + 1) (2 * 0.99) (1 * 0.99) 3.5, halves).
Proof.
  apply (update_free_flight canvas_100 cruising halves).
  - simpl. apply Rabs_big; lra.
  - simpl. apply Rabs_big; lra.
  - unfold num. simpl. lra.
  - unfold num. simpl. lra.
Defined.

Lemma mouse_interaction_pushes_away_witness :
  Particle.vx (Particle.mouse_interaction pointer_at_origin near_particle) =
  0 + (30 - 0) / 50 * Particle.force 50 * config.mouseForce.
Proof.
  destruct (mouse_interaction_pushes_away 0 0 near_particle) as [Hx _].
  - rewrite distance_near_particle. lra.
  - rewrite distance_near_particle. unfold config.mouseRadius. lra.
  - unfold pointer_at_origin. rewrite Hx, distance_near_particle.
    reflexivity.
Defined.

(** ** More on [resize] *)

(** What [resize] returns, in one equation. *)
Lemma resize_run (c : Canvas) (w : World) :
  canvas w = Some c ->
  ParticleSystem.resize w =
  Returns tt
    (if ((0 <? width c)%N && (0 <? height c)%N)%bool
     then set_particles (map (rescaled c) (particles w))
                        (set_canvas (Some (resized c)) w)
     else set_canvas (Some (resized c)) w).
Proof.
  intros Hc. unfold ParticleSystem.resize, bind, the_canvas. rewrite Hc.
  unfold modify at 1.
  destruct ((0 <? width c)%N && (0 <? height c)%N)%bool; reflexivity.
Qed.

Lemma rescaled_inside (c : Canvas) (p : Particle.t) :
  (0 < width c)%N -> (0 < height c)%N ->
  inside c p -> inside (resized c) (rescaled c p).
Proof.
  intros Hw Hh [Hx Hy]. apply num_pos in Hw, Hh.
  unfold inside, rescaled, resized.
  cbn [Particle.x Particle.y width height].
  pose proof (num_nonneg (offsetWidth (parentElement c))) as Hnw.
  pose proof (num_nonneg (offsetHeight (parentElement c))) as Hnh.
  assert (Hscale : forall v old new : R,
             0 < old -> 0 <= new -> 0 <= v <= old ->
             0 <= v / old * new <= new).
  { intros v old new Hold Hnew Hv.
    assert (H1 : 0 <= v / old <= 1).
    { split.
      - apply Rmult_le_pos; [lra | apply Rlt_le, Rinv_0_lt_compat, Hold].
      - apply (Rmult_le_reg_r old); [exact Hold | ].
        unfold Rdiv. rewrite Rmult_assoc, Rinv_l; lra. }
    nra. }
  split; apply Hscale; assumption.
Qed.

(** [resize] keeps the particles inside: when both previous dimensions
    are positive, particles that were inside the canvas are inside the
    resized one. *)
Theorem resize_keeps_inside (c : Canvas) (w : World) :
  canvas w = Some c ->
  (0 < width c)%N -> (0 < height c)%N ->
  Forall (inside c) (particles w) ->
  exists w' : World,
    ParticleSystem.resize w = Returns tt w' /\
    canvas w' = Some (resized c) /\
    Forall (inside (resized c)) (particles w').
Proof.
  intros Hc Hw Hh Hin. rewrite (resize_run c w Hc).
  pose proof Hw as Hw'. pose proof Hh as Hh'.
  apply N.ltb_lt in Hw', Hh'. rewrite Hw', Hh'. cbn [andb].
  eexists. split; [reflexivity | ]. split; [reflexivity | ].
  cbn [particles set_particles set_canvas].
  apply Forall_map. revert Hin. apply Forall_impl.
  intros p. apply rescaled_inside; assumption.
Qed.

Lemma resize_keeps_inside_witness :
  exists w' : World,
    ParticleSystem.resize field_of_two = Returns tt w' /\
    Forall (inside (mkCanvas 400 200 (mkContainer 400 200))) (particles w').
Proof.
  destruct (resize_keeps_inside (mkCanvas 200 100 (mkContainer 400 200))
              field_of_two eq_refl eq_refl eq_refl) as (w' & Hrun & _ & Hin).
  - repeat constructor; unfold num; simpl; lra.
  - exists w'. split; [exact Hrun | exact Hin].
Defined.

(** A layout of zero width is not undone: when the parent has no width,
    [resize] puts every particle at [x = 0], and however the parent is
    laid out next, the following [resize] leaves the particles where
    they are. *)
Theorem resize_through_zero_width (c : Canvas) (w : World) :
  canvas w = Some c ->
  (0 < width c)%N -> (0 < height c)%N ->
  offsetWidth (parentElement c) = 0%N ->
  exists w1 : World,
    ParticleSystem.resize w = Returns tt w1 /\
    Forall (fun p => Particle.x p = 0) (particles w1) /\
    forall s : Container,
    exists w2 : World,
      ParticleSystem.resize (relayout s w1) = Returns tt w2 /\
      particles w2 = particles w1.
Proof.
  intros Hc Hw Hh Hzero. rewrite (resize_run c w Hc).
  apply N.ltb_lt in Hw, Hh. rewrite Hw, Hh. cbn [andb].
  eexists. split; [reflexivity | ].
  cbn [particles set_particles set_canvas]. split.
  - apply Forall_map, Forall_forall. intros p _.
    unfold rescaled. cbn [Particle.x]. rewrite Hzero. unfold num. simpl. ring.
  - intros s. unfold relayout. cbn [canvas set_particles set_canvas].
    rewrite (resize_run (mkCanvas (width (resized c)) (height (resized c)) s));
      [ | reflexivity].
    cbn [width height resized]. rewrite Hzero. cbn [N.ltb N.compare andb].
    eexists. split; reflexivity.
Qed.

Lemma resize_through_zero_width_witness :
  exists w1 : World,
    ParticleSystem.resize
      (mkWorld (Some (mkCanvas 200 100 (mkContainer 0 100))) []
               [particle_centre] absent halves [] 0) = Returns tt w1 /\
    Forall (fun p => Particle.x p = 0) (particles w1).
Proof.
  destruct (resize_through_zero_width (mkCanvas 200 100 (mkContainer 0 100))
              (mkWorld (Some (mkCanvas 200 100 (mkContainer 0 100))) []
                       [particle_centre] absent halves [] 0)
              eq_refl eq_refl eq_refl eq_refl) as (w1 & Hrun & Hx & _).
  exists w1. auto.
Defined.

(** ** More on one frame *)

Lemma firstn_snoc {A : Type} (l : list A) (i : nat) (a : A) :
  nth_error l i = Some a -> firstn (S i) l = firstn i l ++ [a].
Proof.
  revert i. induction l as [ | b l IH]; intros [ | i] H; cbn in H;
    try discriminate.
  - inversion H. reflexivity.
  - cbn [firstn app]. f_equal. apply IH, H.
Qed.

(** Replacing the element after a prefix [done] of length [i]. *)
Lemma replace_after_prefix {A : Type} (done todo : list A) (i : nat) (a : A) :
  length done = i ->
  firstn i (done ++ todo) ++ a :: skipn (S i) (done ++ todo) =
  (done ++ [a]) ++ skipn 1 todo.
Proof.
  intros Hlen. rewrite firstn_app, skipn_app, Hlen.
  rewrite Nat.sub_diag. replace (S i - i)%nat with 1%nat by lia.
  rewrite <- Hlen at 1. rewrite firstn_all. cbn [firstn].
  rewrite skipn_all2 by lia. rewrite app_nil_r. cbn [app].
  rewrite <- app_assoc. reflexivity.
Qed.

Lemma uniform_entropy (g g' : Rng) :
  entropy g' = entropy g -> uniform g -> uniform g'.
Proof. intros E H n. rewrite E. apply H. Qed.

(** [update] reads the random sequence and does not change it. *)
Lemma update_entropy
    (canvas : Canvas) (mouse : Mouse.t) (p : Particle.t) (g : Rng) :
  entropy (snd (Particle.update canvas mouse p g)) = entropy g.
Proof.
  rewrite update_unfold. cbn [snd]. unfold Particle.nudge.
  destruct (Rlt_dec _ 0.1); destruct (Rlt_dec _ 0.1); reflexivity.
Qed.

(** What one call of [animate] does, in full. *)
Lemma animate_run (c : Canvas) (w : World) :
  canvas w = Some c ->
  exists w' : World,
    ParticleSystem.animate w = Returns tt w' /\
    canvas w' = Some c /\
    mouse w' = mouse w /\
    listeners w' = listeners w /\
    animation_frames w' = S (animation_frames w) /\
    entropy (rng w') = entropy (rng w) /\
    Forall2 (updated c (mouse w) (entropy (rng w)))
            (particles w) (particles w') /\
    ctx w' = ctx w ++ frame_calls c (particles w) (particles w').
Proof.
  intros Hc.
  set (ps0 := particles w). set (n := length ps0).
  set (lines := flat_map (calls_of_pair ps0) (index_pairs n)).
  set (base := ctx w ++ clearRect 0 0 (num (width c)) (num (height c))
                     :: lines).
  assert (H : returns ParticleSystem.animate w
                (fun _ w' =>
                   canvas w' = Some c /\ mouse w' = mouse w /\
                   listeners w' = listeners w /\
                   animation_frames w' = S (animation_frames w) /\
                   entropy (rng w') = entropy (rng w) /\
                   Forall2 (updated c (mouse w) (entropy (rng w)))
                           ps0 (particles w') /\
                   ctx w' = base ++ flat_map Particle.draw (particles w'))).
  { unfold ParticleSystem.animate.
    apply returns_bind, (returns_the_canvas c); [exact Hc | ].
    apply returns_bind, (returns_eq _ _ _ _ _ (call_emit _ _)).
    apply returns_bind, (returns_eq _ _ _ _ _ (drawLines_emit _)).
    apply returns_bind, returns_gets.
    cbn [particles emit set_ctx]. fold ps0. fold n.
    apply returns_bind.
    apply (returns_weaken _ _
             (fun _ w1 =>
                canvas w1 = Some c /\ mouse w1 = mouse w /\
                listeners w1 = listeners w /\
                animation_frames w1 = animation_frames w /\
                entropy (rng w1) = entropy (rng w) /\
                exists done : list Particle.t,
                  particles w1 = done ++ skipn n ps0 /\
                  length done = n /\
                  Forall2 (updated c (mouse w) (entropy (rng w)))
                          (firstn n ps0) done /\
                  ctx w1 = base ++ flat_map Particle.draw done)).
    - apply (returns_for_range
               (fun i w1 =>
                  canvas w1 = Some c /\ mouse w1 = mouse w /\
                  listeners w1 = listeners w /\
                  animation_frames w1 = animation_frames w /\
                  entropy (rng w1) = entropy (rng w) /\
                  exists done : list Particle.t,
                    particles w1 = done ++ skipn i ps0 /\
                    length done = i /\
                    Forall2 (updated c (mouse w) (entropy (rng w)))
                            (firstn i ps0) done /\
                    ctx w1 = base ++ flat_map Particle.draw done));
        [lia | | ].
      + cbn [canvas mouse listeners animation_frames rng particles ctx
             set_ctx emit].
        repeat split; auto. exists []. cbn [app skipn firstn flat_map length].
        repeat split; [constructor | ].
        unfold base, emit, lines. cbn [ctx set_ctx].
        rewrite app_nil_r, <- app_assoc. reflexivity.
      + intros i w1 Hi (Hc1 & Hm1 & Hl1 & Hf1 & He1 & done & Hps & Hlen & HR & Hctx).
        assert (Hp0 : exists p0, nth_error ps0 i = Some p0).
        { destruct (nth_error ps0 i) as [p0 | ] eqn:E; [eauto | ].
          apply nth_error_None in E. fold n in E. lia. }
        destruct Hp0 as [p0 Hp0].
        assert (Hp : nth_error (particles w1) i = Some p0).
        { rewrite Hps, nth_error_app2 by lia.
          rewrite Hlen, Nat.sub_diag, nth_error_skipn, Nat.add_0_r.
          exact Hp0. }
        unfold ParticleSystem.update_and_draw.
        apply returns_bind, (returns_particle_at i p0); [exact Hp | ].
        apply returns_bind, (returns_the_canvas c); [exact Hc1 | ].
        apply returns_bind, returns_gets.
        apply returns_bind, returns_draw_random.
        apply returns_bind, returns_modify.
        apply returns_modify.
        cbn [canvas mouse listeners animation_frames rng particles ctx
             set_particles set_ctx set_rng].
        set (p' := fst (Particle.update c (mouse w1) p0 (rng w1))).
        repeat split; auto.
        * rewrite update_entropy. exact He1.
        * exists (done ++ [p']).
          rewrite Hps, (replace_after_prefix _ _ _ _ Hlen), skipn_skipn.
          cbn [Nat.add].
          repeat split.
          -- rewrite length_app, Hlen. cbn. lia.
          -- rewrite (firstn_snoc _ _ _ Hp0). apply Forall2_app; [exact HR | ].
             constructor; [ | constructor].
             exists (rng w1). split; [exact He1 | ].
             unfold p'. rewrite Hm1. reflexivity.
          -- rewrite Hctx, flat_map_app. cbn [flat_map].
             rewrite app_nil_r, app_assoc. reflexivity.
    - intros u w1 (Hc1 & Hm1 & Hl1 & Hf1 & He1 & done & Hps & Hlen & HR & Hctx).
      apply returns_modify.
      cbn [canvas mouse listeners animation_frames rng particles ctx
           set_animation_frames].
      unfold n in Hps, HR. rewrite skipn_all, app_nil_r in Hps.
      rewrite firstn_all in HR. rewrite Hps.
      repeat split; auto. }
  destruct H as ([] & w' & Hrun & H1 & H2 & H3 & H4 & H5 & H6 & H7).
  exists w'. repeat split; auto.
  rewrite H7. unfold base, frame_calls, lines, n, ps0.
  rewrite <- app_assoc. reflexivity.
Qed.

Lemma Forall2_nth_error {A B : Type} (R : A -> B -> Prop)
    (l : list A) (l' : list B) :
  Forall2 R l l' ->
  forall (i : nat) (a : A),
    nth_error l i = Some a ->
    exists b : B, nth_error l' i = Some b /\ R a b.
Proof.
  induction 1 as [ | a0 b0 l l' Hab _ IH]; intros [ | i] a Ha; cbn in Ha;
    try discriminate.
  - inversion Ha; subst. exists b0. split; [reflexivity | exact Hab].
  - apply IH, Ha.
Qed.

(** One frame (lines 158-171): [animate] clears the canvas, draws the
    lines between the positions the particles have when the frame
    starts, then updates every particle once, with the canvas and the
    pointer of the frame, and draws it where the update leaves it; it
    requests one animation frame and leaves the canvas, the pointer and
    the listeners as they were. *)
Theorem animate_frame (c : Canvas) (w : World) :
  canvas w = Some c ->
  exists w' : World,
    ParticleSystem.animate w = Returns tt w' /\
    ctx w' = ctx w ++ frame_calls c (particles w) (particles w') /\
    length (particles w') = length (particles w) /\
    (forall (i : nat) (p : Particle.t),
        nth_error (particles w) i = Some p ->
        exists (g : Rng) (p' : Particle.t),
          entropy g = entropy (rng w) /\
          nth_error (particles w') i = Some p' /\
          p' = fst (Particle.update c (mouse w) p g)) /\
    animation_frames w' = S (animation_frames w) /\
    canvas w' = Some c /\ mouse w' = mouse w /\ listeners w' = listeners w.
Proof.
  intros Hc.
  destruct (animate_run c w Hc)
    as (w' & Hrun & Hc' & Hm & Hl & Hf & _ & HR & Hctx).
  exists w'. repeat split; auto.
  - symmetry. apply (Forall2_length HR).
  - intros i p Hp.
    destruct (Forall2_nth_error _ _ _ HR i p Hp) as (p' & Hp' & g & Hg & E).
    exists g, p'. auto.
Qed.

Lemma animate_frame_witness :
  exists w' : World,
    ParticleSystem.animate field_of_two = Returns tt w' /\
    length (particles w') = 2%nat /\
    animation_frames w' = 1%nat.
Proof.
  destruct (animate_frame (mkCanvas 200 100 (mkContainer 400 200))
              field_of_two eq_refl)
    as (w' & Hrun & _ & Hlen & _ & Hf & _).
  exists w'. auto.
Defined.

(** ** Population *)

Lemma constructor_fresh (c : Canvas) (g : Rng) :
  uniform g ->
  fresh c (fst (Particle.constructor c g)) /\
  entropy (snd (Particle.constructor c g)) = entropy g /\
  calls (snd (Particle.constructor c g)) = (6 + calls g)%nat.
Proof.
  intros Hg.
  pose proof (num_nonneg (width c)) as Hw.
  pose proof (num_nonneg (height c)) as Hh.
  pose proof (Hg (2 + calls g)%nat) as H2.
  pose proof (Hg (3 + calls g)%nat) as H3.
  pose proof (Hg (4 + calls g)%nat) as H4.
  pose proof (Hg (5 + calls g)%nat) as H5.
  unfold Particle.constructor, Particle.reset, rbind, Math_random, rret.
  cbn [fst snd entropy calls Nat.add]. cbn [Nat.add] in H2, H3, H4, H5.
  unfold fresh, inside, config.speed.
  cbn [Particle.x Particle.y Particle.vx Particle.vy Particle.size].
  repeat split; try reflexivity; try nra; apply Rabs_le; lra.
Qed.

(** What [init] returns when the system has a canvas and no particle
    yet. *)
Lemma init_run (c : Canvas) (w : World) :
  canvas w = Some c ->
  particles w = [] ->
  uniform (rng w) ->
  returns ParticleSystem.init w
    (fun _ w' =>
       canvas w' = Some (resized c) /\
       length (particles w') = config.particleCount /\
       Forall (fresh (resized c)) (particles w') /\
       entropy (rng w') = entropy (rng w) /\
       calls (rng w') = (calls (rng w) + 6 * config.particleCount)%nat /\
       mouse w' = mouse w /\ listeners w' = listeners w /\
       animation_frames w' = animation_frames w /\ ctx w' = ctx w).
Proof.
  intros Hc Hnil Hg. unfold ParticleSystem.init.
  apply returns_bind, (returns_eq _ _ _ _ _ (resize_run c w Hc)).
  set (w0 := if ((0 <? width c)%N && (0 <? height c)%N)%bool then _ else _).
  assert (H0 : canvas w0 = Some (resized c) /\ particles w0 = [] /\
               rng w0 = rng w /\ mouse w0 = mouse w /\
               listeners w0 = listeners w /\
               animation_frames w0 = animation_frames w /\ ctx w0 = ctx w).
  { unfold w0. destruct (_ && _)%bool;
      cbn [canvas particles rng mouse listeners animation_frames ctx
           set_particles set_canvas];
      rewrite ?Hnil; cbn [map]; repeat split; reflexivity. }
  destruct H0 as (Hc0 & Hp0 & Hr0 & Hm0 & Hl0 & Hf0 & Hx0).
  apply (returns_weaken _ _
           (fun _ w' =>
              canvas w' = Some (resized c) /\
              length (particles w') = config.particleCount /\
              Forall (fresh (resized c)) (particles w') /\
              entropy (rng w') = entropy (rng w) /\
              calls (rng w') = (calls (rng w) + 6 * config.particleCount)%nat /\
              mouse w' = mouse w /\ listeners w' = listeners w /\
              animation_frames w' = animation_frames w /\ ctx w' = ctx w));
    [ | auto].
  apply (returns_for_range
           (fun i w' =>
              canvas w' = Some (resized c) /\
              length (particles w') = i /\
              Forall (fresh (resized c)) (particles w') /\
              entropy (rng w') = entropy (rng w) /\
              calls (rng w') = (calls (rng w) + 6 * i)%nat /\
              mouse w' = mouse w /\ listeners w' = listeners w /\
              animation_frames w' = animation_frames w /\ ctx w' = ctx w));
    [lia | | ].
  - rewrite Hp0, Hr0. cbn [length]. repeat split; auto; lia.
  - intros i w1 _ (Hc1 & Hn1 & Hin1 & He1 & Hk1 & Hm1 & Hl1 & Hf1 & Hx1).
    apply returns_bind, (returns_the_canvas (resized c)); [exact Hc1 | ].
    apply returns_bind, returns_draw_random.
    apply returns_modify.
    cbn [canvas mouse listeners animation_frames rng particles ctx
         set_particles set_rng].
    assert (Hg1 : uniform (rng w1)) by (apply (uniform_entropy _ _ He1), Hg).
    destruct (constructor_fresh (resized c) (rng w1) Hg1) as (Hfr & He & Hk).
    split; [exact Hc1 | ].
    split; [rewrite length_app, Hn1; cbn; lia | ].
    split.
    { apply Forall_app. split; [exact Hin1 | ].
      constructor; [exact Hfr | constructor]. }
    split; [rewrite He; exact He1 | ].
    split; [rewrite Hk, Hk1; lia | auto].
Qed.

(** [init] (lines 93-100), called on a system that has a canvas and no
    particle yet: the canvas takes the dimensions of its parent, and 120
    particles are created, each inside the canvas, with the configured
    size and a velocity within half of [speed] per axis, from 720
    values of [Math.random]; nothing is drawn and no listener or frame
    is touched. *)
Theorem init_populates (c : Canvas) (w : World) :
  canvas w = Some c ->
  particles w = [] ->
  uniform (rng w) ->
  exists w' : World,
    ParticleSystem.init w = Returns tt w' /\
    canvas w' = Some (resized c) /\
    length (particles w') = 120%nat /\
    Forall (fresh (resized c)) (particles w') /\
    entropy (rng w') = entropy (rng w) /\
    calls (rng w') = (calls (rng w) + 720)%nat /\
    mouse w' = mouse w /\ listeners w' = listeners w /\
    animation_frames w' = animation_frames w /\ ctx w' = ctx w.
Proof.
  intros Hc Hnil Hg.
  destruct (init_run c w Hc Hnil Hg) as ([] & w' & Hrun & H).
  exists w'. split; [exact Hrun | exact H].
Qed.

Lemma init_populates_witness :
  exists w' : World,
    ParticleSystem.init (field_of []) = Returns tt w' /\
    length (particles w') = 120%nat /\
    Forall (fresh (mkCanvas 400 200 (mkContainer 400 200))) (particles w').
Proof.
  assert (Hg : uniform (rng (field_of []))) by (intros n; simpl; lra).
  destruct (init_populates (mkCanvas 200 100 (mkContainer 400 200))
              (field_of []) eq_refl eq_refl Hg)
    as (w' & Hrun & _ & Hlen & Hfr & _).
  exists w'. auto.
Defined.

(** ** More on [drawLines] *)

(** With fewer than two particles there is no pair to connect:
    [drawLines] makes no call and changes nothing. *)
Theorem drawLines_needs_two (w : World) :
  (length (particles w) < 2)%nat ->
  ParticleSystem.drawLines w = Returns tt w.
Proof.
  intros Hn. rewrite drawLines_emit.
  destruct (particles w) as [ | p [ | q ps]]; cbn in Hn; try lia;
    cbn; rewrite emit_nil; reflexivity.
Qed.

Lemma drawLines_needs_two_witness :
  ParticleSystem.drawLines (field_of [particle_centre]) =
  Returns tt (field_of [particle_centre]).
Proof.
  apply drawLines_needs_two. simpl. lia.
Defined.

Lemma flat_map_blocks {A B : Type} (f : A -> list B) (size : nat)
    (l : list A) :
  (forall a, f a = [] \/ length (f a) = size) ->
  exists k : nat,
    (k <= length l)%nat /\ length (flat_map f l) = (size * k)%nat.
Proof.
  intros Hf. induction l as [ | a l (k & Hk & E)]; cbn [flat_map length].
  - exists 0%nat. split; [lia | ]. rewrite Nat.mul_0_r. reflexivity.
  - rewrite length_app, E. destruct (Hf a) as [H | H]; rewrite H.
    + exists k. cbn. split; lia.
    + exists (S k). split; [lia | ]. rewrite Nat.mul_succ_r. lia.
Qed.

(** [drawLines] draws at most one line per pair of particles, with six
    calls per line: with [N] particles it makes [6 * k] calls on the
    context for some [k <= N * (N - 1) / 2]. *)
Theorem drawLines_call_count (w : World) :
  let N := length (particles w) in
  exists (cmds : list DrawCmd) (k : nat),
    ParticleSystem.drawLines w = Returns tt (emit cmds w) /\
    length cmds = (6 * k)%nat /\ (k <= N * (N - 1) / 2)%nat.
Proof.
  cbn zeta. rewrite drawLines_emit.
  destruct (flat_map_blocks (calls_of_pair (particles w)) 6
              (index_pairs (length (particles w)))) as (k & Hk & E).
  - intros [i j]. unfold calls_of_pair, calls_between.
    destruct (nth_error _ (fst (i, j))); [ | left; reflexivity].
    destruct (nth_error _ (snd (i, j))); [ | left; reflexivity].
    destruct (Rlt_dec _ _); [right | left]; reflexivity.
  - rewrite index_pairs_length in Hk. eexists. exists k.
    split; [reflexivity | ]. split; assumption.
Qed.

(** ** The handlers of [bindEvents] *)

Lemma track_pointer_run (c : Canvas) (clientX clientY left top : R)
    (w : World) :
  canvas w = Some c ->
  ParticleSystem.run_handler track_pointer clientX clientY left top w =
  Returns tt
    (set_mouse (Mouse.mk (Some (clientX - left)) (Some (clientY - top))) w).
Proof.
  intros Hc. unfold ParticleSystem.run_handler, bind, the_canvas.
  rewrite Hc. reflexivity.
Qed.

Lemma forget_pointer_run (clientX clientY left top : R) (w : World) :
  ParticleSystem.run_handler forget_pointer clientX clientY left top w =
  Returns tt (set_mouse (Mouse.mk None None) w).
Proof. reflexivity. Qed.

(** The pointer handlers (lines 126-135) change the pointer only, and
    the last one wins: "mousemove" stores the coordinates relative to
    the canvas whatever the pointer was, and "mouseleave" after any
    "mousemove" leaves the state that "mouseleave" alone would, with
    the pointer absent, so that the next [update] is not pushed. *)
Theorem pointer_handlers_last_wins
    (c : Canvas) (x1 y1 l1 t1 x2 y2 l2 t2 : R) (w : World) :
  canvas w = Some c ->
  let move1 := ParticleSystem.run_handler track_pointer x1 y1 l1 t1 in
  let move2 := ParticleSystem.run_handler track_pointer x2 y2 l2 t2 in
  let leave := ParticleSystem.run_handler forget_pointer 0 0 0 0 in
  bind move1 (fun _ => move2) w =
    Returns tt (set_mouse (Mouse.mk (Some (x2 - l2)) (Some (y2 - t2))) w) /\
  bind move1 (fun _ => leave) w = leave w /\
  leave w = Returns tt (set_mouse (Mouse.mk None None) w) /\
  (forall p : Particle.t,
      Particle.mouse_interaction (Mouse.mk None None) p = p).
Proof.
  intros Hc. cbn zeta. unfold bind.
  rewrite (track_pointer_run c _ _ _ _ w Hc).
  rewrite (track_pointer_run c); [ | exact Hc].
  rewrite !forget_pointer_run. repeat split.
Qed.

Lemma pointer_handlers_last_wins_witness :
  bind (ParticleSystem.run_handler track_pointer 30 40 10 10)
       (fun _ => ParticleSystem.run_handler forget_pointer 0 0 0 0)
       field_of_two
  = ParticleSystem.run_handler forget_pointer 0 0 0 0 field_of_two.
Proof.
  apply (pointer_handlers_last_wins
           (mkCanvas 200 100 (mkContainer 400 200)) 30 40 10 10 0 0 0 0
           field_of_two eq_refl).
Defined.

(** ** The system under the events of the host *)

Lemma update_healthy
    (canvas : Canvas) (mouse : Mouse.t) (p : Particle.t) (g : Rng) :
  uniform g -> healthy p ->
  healthy (fst (Particle.update canvas mouse p g)).
Proof.
  intros Hg (Hs & Hx & Hy). unfold healthy.
  rewrite update_keeps_size. split; [exact Hs | ].
  rewrite update_unfold. cbn [fst].
  match goal with
  | |- context [Particle.boundary_collision canvas ?q] =>
      destruct (collision_speed canvas q) as [Ex Ey]
  end.
  cbn [Particle.vx Particle.vy] in Ex, Ey. rewrite Ex, Ey.
  destruct (mouse_push_bound mouse p) as (Px & Py & _).
  unfold damped. cbn [Particle.damping Particle.move Particle.vx Particle.vy].
  split.
  - apply (floor_within_cap (Particle.vx p)); assumption.
  - apply (floor_within_cap (Particle.vy p)); [ | assumption | assumption].
    apply nudge_cases, Hg.
Qed.

Lemma update_inside
    (c : Canvas) (mouse : Mouse.t) (p : Particle.t) (g : Rng) :
  inside c (fst (Particle.update c mouse p g)).
Proof.
  destruct (update_ends_with_collision c mouse p g) as [q Hq].
  rewrite Hq. apply boundary_collision_within.
Qed.

Lemma fresh_healthy (c : Canvas) (p : Particle.t) : fresh c p -> healthy p.
Proof.
  unfold fresh, healthy, speed_cap, config.speed.
  intros (_ & Hs & Hx & Hy). repeat split; [exact Hs | lra | lra].
Qed.

Lemma Forall2_Forall {A B : Type} (R : A -> B -> Prop) (P : A -> Prop)
    (Q : B -> Prop) (l : list A) (l' : list B) :
  (forall a b, P a -> R a b -> Q b) ->
  Forall2 R l l' -> Forall P l -> Forall Q l'.
Proof.
  intros H. induction 1 as [ | a b l l' Hab _ IH]; intros HP.
  - constructor.
  - inversion HP; subst. constructor; [eapply H; eassumption | auto].
Qed.

(** After [animate], from a state with healthy particles: the
    particles are healthy and inside the canvas, and the rest is as
    [animate_run] says. *)
Lemma animate_healthy (c : Canvas) (w : World) :
  canvas w = Some c ->
  uniform (rng w) ->
  Forall healthy (particles w) ->
  returns ParticleSystem.animate w
    (fun _ w' =>
       canvas w' = Some c /\ mouse w' = mouse w /\
       listeners w' = listeners w /\
       animation_frames w' = S (animation_frames w) /\
       uniform (rng w') /\
       length (particles w') = length (particles w) /\
       Forall healthy (particles w') /\
       Forall (inside c) (particles w')).
Proof.
  intros Hc Hg Hh.
  destruct (animate_run c w Hc)
    as (w' & Hrun & Hc' & Hm & Hl & Hf & He & HR & _).
  exists tt, w'. split; [exact Hrun | ].
  split; [exact Hc' | ]. split; [exact Hm | ]. split; [exact Hl | ].
  split; [exact Hf | ].
  split; [apply (uniform_entropy _ _ He), Hg | ].
  split; [symmetry; apply (Forall2_length HR) | ].
  split.
  - apply (Forall2_Forall _ healthy _ _ _ (fun p p' Hp Hpp' =>
             match Hpp' with
             | ex_intro _ g (conj Eg Ep) =>
                 eq_ind_r healthy
                   (update_healthy c (mouse w) p g
                      (uniform_entropy (rng w) g Eg Hg) Hp) Ep
             end) HR Hh).
  - apply (Forall2_Forall _ (fun _ => True) _ _ _ (fun p p' _ Hpp' =>
             match Hpp' with
             | ex_intro _ g (conj _ Ep) =>
                 eq_ind_r (inside c) (update_inside c (mouse w) p g) Ep
             end) HR).
    apply Forall_forall. auto.
Qed.

Section Dispatch.

Variables (a b l t : R) (w : World).
Hypothesis Hbound : listeners w = bound_listeners.

Lemma dispatch_resize :
  dispatch window "resize" a b l t w =
  bind ParticleSystem.resize (fun _ => ret tt) w.
Proof.
  unfold dispatch, bind, gets. rewrite Hbound. reflexivity.
Qed.

Lemma dispatch_mousemove :
  dispatch this_canvas_element "mousemove" a b l t w =
  bind (ParticleSystem.run_handler track_pointer a b l t)
       (fun _ => ret tt) w.
Proof.
  unfold dispatch, bind, gets. rewrite Hbound. reflexivity.
Qed.

Lemma dispatch_mouseleave :
  dispatch this_canvas_element "mouseleave" a b l t w =
  bind (ParticleSystem.run_handler forget_pointer a b l t)
       (fun _ => ret tt) w.
Proof.
  unfold dispatch, bind, gets. rewrite Hbound. reflexivity.
Qed.

End Dispatch.

Lemma rescaled_healthy (c : Canvas) (p : Particle.t) :
  healthy p -> healthy (rescaled c p).
Proof. intros H. exact H. Qed.

(** One event of the host on a running system. *)
Lemma host_step_running (e : HostEvent) (w : World) :
  running w ->
  returns (host_step e) w
    (fun _ w' => running w' /\ (placed w -> positive_layout e -> placed w')).
Proof.
  intros ((c & Hc & Hcw & Hch) & Hn & Hh & Hp & Hg & Hl & Hf).
  destruct e as [s | cx cy rl rt | | ]; cbn [host_step].
  - (* layout *)
    apply returns_bind, returns_modify.
    assert (Hc1 : canvas (relayout s w) = Some (mkCanvas (width c) (height c) s))
      by (unfold relayout; rewrite Hc; reflexivity).
    assert (Hl1 : listeners (relayout s w) = bound_listeners)
      by (unfold relayout; rewrite Hc; exact Hl).
    apply (returns_eq _ _ tt _ _
             (eq_trans (dispatch_resize 0 0 0 0 _ Hl1)
                (f_equal (fun o => match o with
                                   | Returns _ w' => ret tt w'
                                   | Throws => Throws
                                   end)
                         (resize_run _ _ Hc1)))).
    unfold relayout. rewrite Hc.
    cbn [width height parentElement resized].
    split.
    + assert (Hmap : Forall healthy
                       (map (rescaled (mkCanvas (width c) (height c) s))
                            (particles w))).
      { apply Forall_map. revert Hh. apply Forall_impl.
        intros p. apply rescaled_healthy. }
      destruct ((0 <? width c)%N && (0 <? height c)%N)%bool;
        unfold running;
        cbn [canvas particles mouse rng listeners animation_frames
             set_particles set_canvas];
        (split; [eexists; split; [reflexivity | split; reflexivity] | ]);
        rewrite ?length_map;
        (split; [exact Hn | ]); (split; [assumption | ]);
        (split; [exact Hp | ]); (split; [exact Hg | ]);
        (split; [exact Hl | exact Hf]).
    + intros (c0 & Hc0 & Hw0 & Hh0 & Hin) [Hsw Hsh].
      rewrite Hc in Hc0. inversion Hc0; subst c0.
      pose proof Hw0 as Hw0'. pose proof Hh0 as Hh0'.
      apply N.ltb_lt in Hw0', Hh0'. rewrite Hw0', Hh0'. cbn [andb].
      eexists. cbn [canvas particles set_particles set_canvas].
      split; [reflexivity | ]. cbn [width height].
      split; [exact Hsw | ]. split; [exact Hsh | ].
      apply Forall_map. revert Hin. apply Forall_impl. intros p Hp0.
      apply (rescaled_inside (mkCanvas (width c) (height c) s) p Hw0 Hh0).
      exact Hp0.
  - (* mousemove *)
    apply (returns_eq _ _ tt _ _
             (eq_trans (dispatch_mousemove cx cy rl rt _ Hl)
                (f_equal (fun o => match o with
                                   | Returns _ w' => ret tt w'
                                   | Throws => Throws
                                   end)
                         (track_pointer_run c cx cy rl rt w Hc)))).
    split.
    + unfold running.
      cbn [canvas particles mouse rng listeners animation_frames set_mouse].
      split; [exists c; auto | ].
      split; [exact Hn | ]. split; [exact Hh | ]. split; [exact I | ].
      split; [exact Hg | ]. split; [exact Hl | exact Hf].
    + intros Hpl _. exact Hpl.
  - (* mouseleave *)
    apply (returns_eq _ _ tt _ _
             (eq_trans (dispatch_mouseleave 0 0 0 0 _ Hl)
                (f_equal (fun o => match o with
                                   | Returns _ w' => ret tt w'
                                   | Throws => Throws
                                   end)
                         (forget_pointer_run 0 0 0 0 w)))).
    split.
    + unfold running.
      cbn [canvas particles mouse rng listeners animation_frames set_mouse].
      split; [exists c; auto | ].
      split; [exact Hn | ]. split; [exact Hh | ]. split; [exact I | ].
      split; [exact Hg | ]. split; [exact Hl | exact Hf].
    + intros Hpl _. exact Hpl.
  - (* next_frame *)
    unfold run_frame. apply returns_bind, returns_gets. rewrite Hf.
    apply returns_bind, returns_modify.
    eapply returns_weaken.
    { apply (animate_healthy c); cbn [canvas rng particles set_animation_frames];
        assumption. }
    cbn [canvas mouse listeners animation_frames rng particles
         set_animation_frames].
    intros u w' (Hc' & Hm' & Hl' & Hf' & Hg' & Hn' & Hh' & Hin').
    split.
    + unfold running. rewrite Hm', Hl', Hf', Hn'.
      split; [exists c; auto | ].
      split; [exact Hn | ]. split; [exact Hh' | ]. split; [exact Hp | ].
      split; [exact Hg' | ]. split; [exact Hl | reflexivity].
    + intros (c0 & Hc0 & Hw0 & Hh0 & _) _.
      rewrite Hc in Hc0. inversion Hc0; subst c0.
      exists c. auto.
Qed.

Lemma bindEvents_run (c : Canvas) (w : World) :
  canvas w = Some c ->
  ParticleSystem.bindEvents w =
  Returns tt (set_listeners (listeners w ++ bound_listeners) w).
Proof.
  intros Hc. unfold ParticleSystem.bindEvents, bind, modify, the_canvas.
  cbn [canvas set_listeners]. rewrite Hc.
  cbn [canvas set_listeners]. rewrite Hc.
  unfold set_listeners, bound_listeners.
  cbn [canvas ctx particles mouse rng listeners animation_frames].
  repeat rewrite <- app_assoc. reflexivity.
Qed.

(** The constructor on a page that has the element. *)
Lemma constructor_running
    (document : string -> option Canvas) (canvasId : string) (c : Canvas)
    (w : World) :
  document canvasId = Some c ->
  listeners w = [] ->
  animation_frames w = 0%nat ->
  uniform (rng w) ->
  returns (ParticleSystem.constructor document canvasId) w
    (fun _ w' =>
       running w' /\ canvas w' = Some (resized c) /\
       Forall (inside (resized c)) (particles w')).
Proof.
  intros Hdoc Hl Hf Hg. unfold ParticleSystem.constructor.
  apply returns_bind, returns_modify.
  apply returns_bind, returns_gets.
  cbn [canvas set_canvas]. rewrite Hdoc.
  apply returns_bind, returns_modify.
  apply returns_bind, returns_modify.
  apply returns_bind.
  eapply returns_weaken.
  { apply (init_run c); [reflexivity | reflexivity | exact Hg]. }
  cbn [canvas mouse listeners animation_frames rng particles ctx
       set_canvas set_particles set_mouse].
  intros u w1 (Hc1 & Hn1 & Hfr1 & He1 & _ & Hm1 & Hl1 & Hf1 & _).
  apply returns_bind,
    (returns_eq _ _ _ _ _ (bindEvents_run (resized c) w1 Hc1)).
  eapply returns_weaken.
  { apply (animate_healthy (resized c));
      cbn [canvas rng particles set_listeners].
    - exact Hc1.
    - apply (uniform_entropy _ _ He1), Hg.
    - revert Hfr1. apply Forall_impl. apply fresh_healthy. }
  cbn [canvas mouse listeners animation_frames rng particles set_listeners].
  intros u' w2 (Hc2 & Hm2 & Hl2 & Hf2 & Hg2 & Hn2 & Hh2 & Hin2).
  split; [ | split; [exact Hc2 | exact Hin2]].
  unfold running.
  split; [exists (resized c); repeat split; exact Hc2 | ].
  split; [rewrite Hn2; exact Hn1 | ]. split; [exact Hh2 | ].
  split; [rewrite Hm2, Hm1; exact I | ]. split; [exact Hg2 | ].
  split; [rewrite Hl2, Hl1, Hl; reflexivity | ].
  rewrite Hf2, Hf1, Hf. reflexivity.
Qed.

Lemma events_running (es : list HostEvent) (w : World) :
  running w ->
  returns (for_each es host_step) w
    (fun _ w' => running w' /\
                 (placed w -> Forall positive_layout es -> placed w')).
Proof.
  revert w. induction es as [ | e es IH]; intros w Hrun; cbn [for_each].
  - apply returns_ret. auto.
  - apply returns_bind.
    apply (returns_weaken _ _ _ _ (host_step_running e w Hrun)).
    intros u w1 [Hrun1 Hpl1].
    apply (returns_weaken _ _ _ _ (IH w1 Hrun1)).
    intros u' w2 [Hrun2 Hpl2]. split; [exact Hrun2 | ].
    intros Hpl Hpos. inversion Hpos; subst. auto.
Qed.

(** A system that has started keeps running: after the constructor has
    found its element, no sequence of frames, pointer events and
    layouts followed by "resize" makes a handler or a frame throw, and
    after it the system still has its canvas, at the dimensions of its
    parent, 120 particles of the configured size with a speed of at
    most [speed_cap] per axis, a pointer with both coordinates or none,
    its three listeners and exactly one animation frame requested.  If
    moreover every layout, the first included, has positive dimensions,
    every particle is inside the canvas. *)
Theorem started_system_keeps_running
    (document : string -> option Canvas) (canvasId : string) (c : Canvas)
    (w : World) (es : list HostEvent) :
  document canvasId = Some c ->
  listeners w = [] ->
  animation_frames w = 0%nat ->
  uniform (rng w) ->
  exists w' : World,
    bind (ParticleSystem.constructor document canvasId)
         (fun _ => for_each es host_step) w = Returns tt w' /\
    running w' /\
    ((0 < offsetWidth (parentElement c))%N ->
     (0 < offsetHeight (parentElement c))%N ->
     Forall positive_layout es ->
     placed w').
Proof.
  intros Hdoc Hl Hf Hg.
  assert (H : returns (bind (ParticleSystem.constructor document canvasId)
                            (fun _ => for_each es host_step)) w
                (fun _ w' =>
                   running w' /\
                   ((0 < offsetWidth (parentElement c))%N ->
                    (0 < offsetHeight (parentElement c))%N ->
                    Forall positive_layout es -> placed w'))).
  { apply returns_bind.
    apply (returns_weaken _ _ _ _
             (constructor_running document canvasId c w Hdoc Hl Hf Hg)).
    intros u w1 (Hrun1 & Hc1 & Hin1).
    apply (returns_weaken _ _ _ _ (events_running es w1 Hrun1)).
    intros u' w2 [Hrun2 Hpl2]. split; [exact Hrun2 | ].
    intros Hw Hh Hpos. apply Hpl2; [ | exact Hpos].
    exists (resized c). auto. }
  destruct H as ([] & w' & Hrun & H).
  exists w'. split; [exact Hrun | exact H].
Qed.

Lemma started_system_keeps_running_witness :
  exists w' : World,
    bind (ParticleSystem.constructor page_with_canvas "particles-canvas")
         (fun _ => for_each session host_step) before_construction
    = Returns tt w' /\
    running w' /\ placed w'.
Proof.
  assert (Hg : uniform (rng before_construction)) by (intros n; simpl; lra).
  destruct (started_system_keeps_running page_with_canvas "particles-canvas"
              (mkCanvas 300 150 (mkContainer 400 200)) before_construction
              session eq_refl eq_refl eq_refl Hg) as (w' & Hrun & Hr & Hp).
  exists w'. split; [exact Hrun | ]. split; [exact Hr | ].
  apply Hp; [reflexivity | reflexivity | ].
  unfold session. repeat constructor.
Defined.

Lemma host_step_inert (e : HostEvent) (w : World) :
  canvas w = None -> listeners w = [] -> animation_frames w = 0%nat ->
  host_step e w = Returns tt w.
Proof.
  intros Hc Hl Hf. destruct e; cbn [host_step].
  - unfold bind, modify, relayout. rewrite Hc.
    unfold dispatch, bind, gets. rewrite Hl. reflexivity.
  - unfold dispatch, bind, gets. rewrite Hl. reflexivity.
  - unfold dispatch, bind, gets. rewrite Hl. reflexivity.
  - unfold run_frame, bind, gets. rewrite Hf. reflexivity.
Qed.

Lemma events_inert (es : list HostEvent) (w : World) :
  canvas w = None -> listeners w = [] -> animation_frames w = 0%nat ->
  for_each es host_step w = Returns tt w.
Proof.
  intros Hc Hl Hf. induction es as [ | e es IH]; cbn [for_each].
  - reflexivity.
  - unfold bind. rewrite (host_step_inert e w Hc Hl Hf). exact IH.
Qed.

(** A system that has not started stays inactive: when the constructor
    finds no element, on a page without listeners or requested frames,
    every later frame, pointer event or layout leaves the state exactly
    as the constructor left it, and nothing throws. *)
Theorem failed_system_stays_inert
    (document : string -> option Canvas) (canvasId : string) (w : World)
    (es : list HostEvent) :
  document canvasId = None ->
  listeners w = [] ->
  animation_frames w = 0%nat ->
  bind (ParticleSystem.constructor document canvasId)
       (fun _ => for_each es host_step) w
  = Returns tt
      (mkWorld None (ctx w) (particles w) (mouse w) (rng w) [] 0).
Proof.
  intros Hdoc Hl Hf.
  assert (E : ParticleSystem.constructor document canvasId w =
              Returns tt (set_canvas None w)).
  { unfold ParticleSystem.constructor, bind, modify, gets.
    cbn [canvas set_canvas]. rewrite Hdoc. reflexivity. }
  unfold bind. rewrite E.
  rewrite events_inert; [ | reflexivity | exact Hl | exact Hf].
  unfold set_canvas. rewrite Hl, Hf. reflexivity.
Qed.

Lemma failed_system_stays_inert_witness :
  bind (ParticleSystem.constructor blank_page "particles-canvas")
       (fun _ => for_each session host_step) before_construction
  = Returns tt before_construction.
Proof.
  apply (failed_system_stays_inert blank_page "particles-canvas"
           before_construction session); reflexivity.
Defined.

(** ** Damping *)

(** With the pointer absent, a speed that is still at or above the
    threshold after damping loses exactly one percent in [update], and
    a speed below it ends below [0.15]: in both cases the speed after
    the step is at most the larger of [0.99] times the speed before and
    [0.15]. *)
Theorem update_damping (canvas : Canvas) (p : Particle.t) (g : Rng) :
  uniform g ->
  let p' := fst (Particle.update canvas (Mouse.mk None None) p g) in
  (0.1 <= 0.99 * Rabs (Particle.vx p) ->
   Rabs (Particle.vx p') = 0.99 * Rabs (Particle.vx p)) /\
  (0.1 <= 0.99 * Rabs (Particle.vy p) ->
   Rabs (Particle.vy p') = 0.99 * Rabs (Particle.vy p)) /\
  Rabs (Particle.vx p') <= Rmax (0.99 * Rabs (Particle.vx p)) 0.15 /\
  Rabs (Particle.vy p') <= Rmax (0.99 * Rabs (Particle.vy p)) 0.15.
Proof.
  intros Hg. cbn zeta. rewrite update_unfold. cbn [fst].
  match goal with
  | |- context [Particle.boundary_collision canvas ?q] =>
      destruct (collision_speed canvas q) as [Hx Hy]
  end.
  cbn [Particle.vx Particle.vy] in Hx, Hy. rewrite Hx, Hy.
  unfold damped. rewrite mouse_interaction_absent.
  cbn [Particle.damping Particle.move Particle.vx Particle.vy].
  assert (Habs : forall v : R, Rabs (v * 0.99) = 0.99 * Rabs v).
  { intros v. rewrite Rabs_mult, (Rabs_right 0.99) by lra. ring. }
  assert (Hcase : forall (v : R) (g0 : Rng), uniform g0 ->
             (0.1 <= 0.99 * Rabs v ->
              Rabs (fst (Particle.nudge (v * 0.99) g0)) = 0.99 * Rabs v) /\
             Rabs (fst (Particle.nudge (v * 0.99) g0))
             <= Rmax (0.99 * Rabs v) 0.15).
  { intros v g0 Hg0.
    destruct (nudge_cases (v * 0.99) g0 Hg0)
      as [_ [[Hs [r [Hr E]]] | [Hf E]]]; rewrite E.
    - rewrite Habs in Hs. split; [lra | ].
      eapply Rle_trans; [ | apply Rmax_r].
      rewrite <- Habs in Hs. apply Rabs_small in Hs. apply Rabs_le. lra.
    - rewrite Habs. split; [reflexivity | apply Rmax_l]. }
  destruct (Hcase (Particle.vx p) g Hg) as [X1 X2].
  destruct (Hcase (Particle.vy p)
              (snd (Particle.nudge (Particle.vx p * 0.99) g))) as [Y1 Y2];
    [apply nudge_cases, Hg | ].
  auto.
Qed.

Lemma update_damping_witness :
  Rabs (Particle.vx (fst (Particle.update canvas_100 (Mouse.mk None None)
                            cruising halves)))
  = 0.99 * Rabs (Particle.vx cruising).
Proof.
  assert (Hg : uniform halves) by (intros n; simpl; lra).
  apply (update_damping canvas_100 cruising halves Hg).
  simpl. rewrite (Rabs_right 2) by lra. lra.
Defined.

Lemma frames_keep_particles_inside_witness :
  exists w' : World,
    frames 3 field_of_four = Returns tt w' /\
    Forall (inside (mkCanvas 200 100 (mkContainer 400 200))) (particles w').
Proof.
  destruct (frames_keep_particles_inside
              (mkCanvas 200 100 (mkContainer 400 200)) 2 field_of_four eq_refl)
    as ([] & w' & Hrun & _ & _ & Hin).
  exists w'. split; [exact Hrun | exact Hin].
Defined.
